(** * libkson: pulse-indexed graphs, section lookup and curve expansion

    A shallow embedding of
      - include/kson/util/graph_utils.hpp  (GraphSectionAt, GraphSectionValueAt,
        GraphSectionValueAtWithDefault, GraphPointAt),
      - src/util/graph_curve.cpp           (EvaluateCurve, ExpandCurveSegments),
      - include/kson/note/note_info.hpp    (LaserSection), and
      - src/IO/KsonIOIn.cpp                (ParseGraphValue,
        ParseGraphPointFromArrayItem, ParseByPulse, ParseGraph,
        ParseLaserSection, ParseAudioEffectType),
    followed by the properties of these functions.

    Modelling choices.
      - [Pulse] and [RelPulse] are 64-bit signed integers in the source,
        embedded as [Z].  The subtraction [pulse - y] of the lookups of
        graph_utils.hpp is written with its 64-bit wrap-around ([int64_sub]);
        the additions and subtractions of ExpandCurveSegments are those of
        [Z], so its properties describe the executions in which the pulse
        arithmetic of the expansion does not overflow.
      - [double] is IEEE-754 binary64, embedded as Rocq's primitive [float];
        [+], [*], [/], [sqrt] and the comparisons are the correctly rounded
        operations, specified by [FloatAxioms] through [SpecFloat], applied
        one by one in the order of the C++ expression (no fused
        multiply-add).
      - [ByPulse<T>] is a [std::map<Pulse, T>]: an association list whose keys
        are strictly ascending ([keys_sorted]).  Iterators are positions in
        that list, [end()] being its length.
      - [assert], [throw], and the dereference of a past-the-end iterator are
        outcomes of the [exec] monad. *)

From Stdlib Require Import String ZArith List Bool Lia Floats Sorted.
Import ListNotations.
Local Open Scope Z_scope.

(* ================================================================== *)
(** * Part I: the embedding                                            *)
(* ================================================================== *)

(** ** Outcomes of a call *)

Inductive exception : Type :=
| invalid_argument (what : string)
| out_of_range.

Inductive exec (A : Type) : Type :=
| Return (a : A)                (* normal return *)
| Throw (e : exception)         (* a C++ exception leaves the function *)
| AssertionFailed               (* assert(...) aborted the program *)
| Undefined                     (* an end() iterator was dereferenced *)
| OutOfFuel.                    (* a loop of the model ran out of fuel *)

Arguments Return {A} a.
Arguments Throw {A} e.
Arguments AssertionFailed {A}.
Arguments Undefined {A}.
Arguments OutOfFuel {A}.

Definition bind {A B : Type} (c : exec A) (k : A -> exec B) : exec B :=
  match c with
  | Return a => k a
  | Throw e => Throw e
  | AssertionFailed => AssertionFailed
  | Undefined => Undefined
  | OutOfFuel => OutOfFuel
  end.

Notation "x <- c ;; k" := (bind c (fun x => k))
  (at level 61, c at next level, right associativity).
Notation "' pat <- c ;; k" := (bind c (fun x => match x with pat => k end))
  (at level 61, pat pattern, c at next level, right associativity).
Notation "c ;;; k" := (bind c (fun _ => k))
  (at level 61, right associativity).

(** [assert(cond)]: a no-op when the translation unit is compiled with
    [NDEBUG], an abort on a false condition otherwise. *)
Definition assert (NDEBUG : bool) (cond : bool) : exec unit :=
  if NDEBUG then Return tt
  else if cond then Return tt else AssertionFailed.

(** ** std::map<Pulse, T> *)

(** [using Pulse = std::int64_t; using RelPulse = std::int64_t;] and the two
    map aliases over them are one type each. *)
Abbreviation Pulse := Z (only parsing).
Abbreviation RelPulse := Z (only parsing).

(** [x - y] on [std::int64_t].  Where the difference does not fit in 64
    bits the C++ standard leaves the signed subtraction undefined; the
    two's-complement machine code wraps around, which is written out here.
    For a difference that fits, this is [x - y]. *)
Definition int64_sub (x y : Pulse) : RelPulse :=
  (x - y + 9223372036854775808) mod 18446744073709551616
  - 9223372036854775808.

Arguments int64_sub : simpl never.

Definition ByPulse (T : Type) : Type := list (Pulse * T).
Abbreviation ByRelPulse := ByPulse (only parsing).

Definition iterator : Type := nat.

Section StdMap.
Context {T : Type}.

(** The class invariant of [std::map]: keys unique and ascending. *)
Definition keys_sorted (m : ByPulse T) : Prop :=
  StronglySorted Z.lt (map fst m).

Definition map_empty (m : ByPulse T) : bool :=
  match m with [] => true | _ :: _ => false end.

Definition map_size (m : ByPulse T) : nat := length m.

Definition map_begin (m : ByPulse T) : iterator := 0%nat.

Definition map_end (m : ByPulse T) : iterator := length m.

(** [*itr]; undefined on [end()]. *)
Definition map_deref (m : ByPulse T) (itr : iterator) : exec (Pulse * T) :=
  match nth_error m itr with
  | Some kv => Return kv
  | None => Undefined
  end.

(** [*m.rbegin()]; undefined on an empty map. *)
Definition map_deref_rbegin (m : ByPulse T) : exec (Pulse * T) :=
  match rev m with
  | kv :: _ => Return kv
  | [] => Undefined
  end.

(** [m.upper_bound(p)]: the first position whose key is greater than [p]. *)
Fixpoint map_upper_bound (m : ByPulse T) (p : Pulse) : iterator :=
  match m with
  | [] => 0%nat
  | (k, _) :: m' => if p <? k then 0%nat else S (map_upper_bound m' p)
  end.

Fixpoint map_find (m : ByPulse T) (k : Pulse) : option T :=
  match m with
  | [] => None
  | (k', x) :: m' => if k =? k' then Some x else map_find m' k
  end.

(** [m.contains(k)] *)
Definition map_contains (m : ByPulse T) (k : Pulse) : bool :=
  match map_find m k with Some _ => true | None => false end.

(** [m.at(k)]: throws [std::out_of_range] on a missing key. *)
Definition map_at (m : ByPulse T) (k : Pulse) : exec T :=
  match map_find m k with
  | Some x => Return x
  | None => Throw out_of_range
  end.

(** [m.insert({k, x})]: a key already present keeps its old value. *)
Fixpoint map_insert (kv : Pulse * T) (m : ByPulse T) : ByPulse T :=
  match m with
  | [] => [kv]
  | (k', x') :: m' =>
      if fst kv <? k' then kv :: m
      else if fst kv =? k' then m
      else (k', x') :: map_insert kv m'
  end.

(** [m[k] = x]: inserts the key or overwrites its value. *)
Fixpoint map_assign (k : Pulse) (x : T) (m : ByPulse T) : ByPulse T :=
  match m with
  | [] => [(k, x)]
  | (k', x') :: m' =>
      if k <? k' then (k, x) :: m
      else if k =? k' then (k, x) :: m'
      else (k', x') :: map_assign k x m'
  end.

End StdMap.

(** ** double *)

Abbreviation double := float (only parsing).

(** [std::clamp(v, lo, hi)] *)
Definition clamp (v lo hi : double) : double :=
  if (v <? lo)%float then lo else if (hi <? v)%float then hi else v.

Arguments clamp (v lo hi)%_float.

(** [static_cast<double>(z)] for a 64-bit integer: round to nearest, ties to
    even. *)
Definition double_of_int64 (z : Z) : double :=
  SF2Prim (binary_normalize prec emax z 0 false).

(** ** kson/common: graph values, curves, points and sections *)

Module GraphValue.
Record t : Type := mk { v : double; vf : double }.
End GraphValue.

Module GraphCurveValue.
Record t : Type := mk { a : double; b : double }.
End GraphCurveValue.

Module GraphPoint.
Record t : Type := mk { v : GraphValue.t; curve : GraphCurveValue.t }.
End GraphPoint.

Definition Graph : Type := ByPulse GraphPoint.t.

Module GraphSection.
Record t : Type := mk { v : ByRelPulse GraphPoint.t }.
End GraphSection.

(** note_info.hpp.  The header spells the points [ByRelPulse<GraphValue>];
    graph_curve.cpp and graph_utils.hpp read [.curve] and [.v.vf] of them and
    return them as [GraphPoint], so [v] holds graph points here. *)
Module LaserSection.
Record t : Type := mk { v : ByRelPulse GraphPoint.t; w : Z }.
End LaserSection.

Definition kLaserXScale1x : Z := 1.
Definition kLaserXScale2x : Z := 2.

(** Modelled from the spec: the constructors of kson/common (absent from
    src/).  "Plain numeric constructions set both fields equal"; a point built
    from a value alone carries the default curve descriptor [(0, 0)]. *)
Definition GraphValue_of_double (x : double) : GraphValue.t :=
  GraphValue.mk x x.

Definition default_curve : GraphCurveValue.t :=
  GraphCurveValue.mk 0%float 0%float.

Definition GraphPoint_of_value (gv : GraphValue.t) : GraphPoint.t :=
  GraphPoint.mk gv default_curve.

(** The [requires] clause of the templates of graph_utils.hpp: [GS] is
    [GraphSection] or [LaserSection]; both expose their points as [.v]. *)
Class SectionLike (GS : Type) : Type :=
  section_v : GS -> ByRelPulse GraphPoint.t.

#[export] Instance GraphSection_SectionLike : SectionLike GraphSection.t :=
  GraphSection.v.

#[export] Instance LaserSection_SectionLike : SectionLike LaserSection.t :=
  LaserSection.v.

(** ** The functions of the repository

    Four things the functions use are not under src/ and are taken as
    parameters: [AlmostEquals] (kson/common), [GraphCurveValue::isLinear]
    (kson/common), [GraphValueAt] (declared in graph_utils.hpp, defined
    elsewhere) and [std::lerp] (the C++ library).  [NDEBUG] tells whether
    [assert] is compiled out. *)

Section Kson.

Variable NDEBUG : bool.
Variable AlmostEquals : double -> double -> bool.
Variable isLinear : GraphCurveValue.t -> bool.
Variable lerp : double -> double -> double -> double.
Variable GraphValueAt : Graph -> Pulse -> double.

(** *** graph_utils.hpp *)

Definition GraphSectionAt {GS : Type}
    (graphSections : ByPulse GS) (pulse : Pulse) : exec iterator :=
  assert NDEBUG (negb (map_empty graphSections)) ;;;
  let itr := map_upper_bound graphSections pulse in
  let itr :=
    if negb (itr =? map_begin graphSections)%nat then pred itr else itr in
  Return itr.

Definition GraphSectionValueAt {GS : Type} `{SectionLike GS}
    (graphSections : ByPulse GS) (pulse : Pulse) : exec (option double) :=
  if map_empty graphSections then Return None
  else
    itr <- GraphSectionAt graphSections pulse ;;
    if (itr =? map_end graphSections)%nat then Return None
    else
      '(y, graphSection) <- map_deref graphSections itr ;;
      let ry : RelPulse := int64_sub pulse y in
      if (map_size (section_v graphSection) <=? 1)%nat then Return None
      else
        '(firstRy, _) <- map_deref (section_v graphSection)
                                   (map_begin (section_v graphSection)) ;;
        if ry <? firstRy then Return None
        else
          '(lastRy, _) <- map_deref_rbegin (section_v graphSection) ;;
          if ry >=? lastRy then Return None
          else Return (Some (GraphValueAt (section_v graphSection) ry)).

Definition GraphSectionValueAtWithDefault {GS : Type} `{SectionLike GS}
    (graphSections : ByPulse GS) (pulse : Pulse) (defaultValue : double)
    : exec double :=
  sectionValue <- GraphSectionValueAt graphSections pulse ;;
  match sectionValue with
  | Some x => Return x
  | None => Return defaultValue
  end.

Definition GraphPointAt {GS : Type} `{SectionLike GS}
    (graphSections : ByPulse GS) (pulse : Pulse) : exec (option GraphPoint.t) :=
  if map_empty graphSections then Return None
  else
    itr <- GraphSectionAt graphSections pulse ;;
    if (itr =? map_end graphSections)%nat then Return None
    else
      '(y, graphSection) <- map_deref graphSections itr ;;
      let ry : RelPulse := int64_sub pulse y in
      if negb (map_contains (section_v graphSection) ry) then Return None
      else
        p <- map_at (section_v graphSection) ry ;;
        Return (Some p).

(** *** graph_curve.cpp *)

Definition EvaluateCurve (a b x : double) : double :=
  let a := clamp a 0 1 in
  let b := clamp b 0 1 in
  let x := clamp x 0 1 in
  if AlmostEquals a 0.5%float then x
  else
    let discriminant := (a * a + x - 2 * a * x)%float in
    if (discriminant <? 0)%float then x
    else
      let t := ((a - sqrt discriminant) / (-1 + 2 * a))%float in
      let result := (2 * (1 - t) * t * b + t * t)%float in
      clamp result 0 1.

Definition EvaluateCurve_curve (curve : GraphCurveValue.t) (x : double)
    : double :=
  if isLinear curve then x
  else EvaluateCurve (GraphCurveValue.a curve) (GraphCurveValue.b curve) x.

(** The [for] loop of ExpandCurveSegments over one curved segment:
    [for (ry = ...; ry < segmentLength; ry += subdivisionInterval)].
    Each turn uses one unit of [fuel]. *)
Fixpoint subdivide_loop (subdivisionInterval : Pulse)
    (y1 : Pulse) (point1 point2 : GraphPoint.t) (segmentLength : Pulse)
    (fuel : nat) (ry : Pulse) (result : Graph) : exec Graph :=
  if ry <? segmentLength then
    match fuel with
    | O => OutOfFuel
    | S fuel' =>
        let lerpRate :=
          (double_of_int64 ry / double_of_int64 segmentLength)%float in
        let curveValue :=
          EvaluateCurve_curve (GraphPoint.curve point1) lerpRate in
        let interpolatedValue :=
          lerp (GraphValue.vf (GraphPoint.v point1))
               (GraphValue.v (GraphPoint.v point2)) curveValue in
        subdivide_loop subdivisionInterval y1 point1 point2 segmentLength
          fuel' (ry + subdivisionInterval)
          (map_assign (y1 + ry)
             (GraphPoint_of_value (GraphValue_of_double interpolatedValue))
             result)
    end
  else Return result.

(** The [while (itr != endItr)] loop; [itr] is the part of the input from
    the iterator's position on.  The loop is the same text in the three
    overloads. *)
Fixpoint expand_loop (subdivisionInterval : Pulse)
    (itr : ByPulse GraphPoint.t) (result : Graph) : exec Graph :=
  match itr with
  | [] => Return result
  | (y1, point1) :: nextItr =>
      match nextItr with
      | [] => Return result
      | (y2, point2) :: _ =>
          if isLinear (GraphPoint.curve point1) then
            expand_loop subdivisionInterval nextItr
              (map_insert (y2, point2) result)
          else
            let segmentLength := y2 - y1 in
            result' <- subdivide_loop subdivisionInterval y1 point1 point2
                         segmentLength (Z.to_nat segmentLength)
                         subdivisionInterval result ;;
            expand_loop subdivisionInterval nextItr
              (map_insert (y2, point2) result')
      end
  end.

Definition ExpandCurveSegments (graph : Graph) (subdivisionInterval : Pulse)
    : exec Graph :=
  if subdivisionInterval <=? 0 then
    Throw (invalid_argument "subdivisionInterval must be positive")
  else if map_empty graph then Return graph
  else
    match graph with
    | [] => Undefined
    | first :: _ =>
        expand_loop subdivisionInterval graph (map_insert first [])
    end.

Definition ExpandCurveSegments_GraphSection
    (graphSection : GraphSection.t) (subdivisionInterval : RelPulse)
    : exec GraphSection.t :=
  if subdivisionInterval <=? 0 then
    Throw (invalid_argument "subdivisionInterval must be positive")
  else if map_empty (GraphSection.v graphSection) then Return graphSection
  else
    match GraphSection.v graphSection with
    | [] => Undefined
    | first :: _ =>
        v <- expand_loop subdivisionInterval (GraphSection.v graphSection)
               (map_insert first []) ;;
        Return (GraphSection.mk v)
    end.

Definition ExpandCurveSegments_LaserSection
    (laserSection : LaserSection.t) (subdivisionInterval : RelPulse)
    : exec LaserSection.t :=
  if subdivisionInterval <=? 0 then
    Throw (invalid_argument "subdivisionInterval must be positive")
  else if map_empty (LaserSection.v laserSection) then Return laserSection
  else
    match LaserSection.v laserSection with
    | [] => Undefined
    | first :: _ =>
        v <- expand_loop subdivisionInterval (LaserSection.v laserSection)
               (map_insert first []) ;;
        Return (LaserSection.mk v (LaserSection.w laserSection))
    end.

End Kson.

(** ** The rules of the spec, in its words

    These definitions follow the sentences of the specification; Part II
    compares them with the functions above. *)

(** "The governing entry is the one with the greatest key <= query pulse":
    the last entry of an ascending container whose key does not exceed
    [pulse]; [None] when the query is before all keys. *)
Fixpoint floor_entry {T : Type} (m : ByPulse T) (pulse : Pulse)
    : option (Pulse * T) :=
  match m with
  | [] => None
  | (k, x) :: m' =>
      if k <=? pulse then
        match floor_entry m' pulse with
        | Some e => Some e
        | None => Some (k, x)
        end
      else None
  end.

(** "Undefined if the section has fewer than 2 points, or if [ry] is before
    the first point's key or at/after the last point's key." *)
Definition section_undefined_at (points : ByRelPulse GraphPoint.t)
    (ry : RelPulse) : bool :=
  (length points <? 2)%nat
  || (ry <? hd 0 (map fst points))
  || (last (map fst points) 0 <=? ry).

(** "Clamped to [0, 1]": a number of the interval is kept, a number below
    0 becomes 0, and the others become 1.  Written from the interval, not
    from [std::clamp]. *)
Definition clamped_to_unit (v : double) : double :=
  if ((0 <=? v)%float && (v <=? 1)%float)%bool then v
  else if (v <? 0)%float then 0%float
  else 1%float.

(** The curve family of section 4.1 with its edge-case policy. *)
Definition EvaluateCurve_rule (AlmostEquals : double -> double -> bool)
    (a b x : double) : double :=
  let a' := clamped_to_unit a in
  let b' := clamped_to_unit b in
  let x' := clamped_to_unit x in
  if AlmostEquals a' 0.5%float then x'
  else if (a' * a' + x' - 2 * a' * x' <? 0)%float then x'
  else
    let t := ((a' - sqrt (a' * a' + x' - 2 * a' * x')) / (2 * a' - 1))%float in
    clamped_to_unit (2 * (1 - t) * t * b' + t * t)%float.

(** The value inserted at offset [ry] of the segment from [point1] at [y1]
    to [point2] at [y2]:
    [lerp(p1.vf, p2.v, EvaluateCurve(p1.curve.a, p1.curve.b, ry / (y2 - y1)))],
    with [v == vf] and the default curve. *)
Definition sample_point (AlmostEquals : double -> double -> bool)
    (lerp : double -> double -> double -> double)
    (point1 point2 : GraphPoint.t) (segmentLength ry : Pulse) : GraphPoint.t :=
  GraphPoint_of_value
    (GraphValue_of_double
       (lerp (GraphValue.vf (GraphPoint.v point1))
             (GraphValue.v (GraphPoint.v point2))
             (EvaluateCurve AlmostEquals
                (GraphCurveValue.a (GraphPoint.curve point1))
                (GraphCurveValue.b (GraphPoint.curve point1))
                (double_of_int64 ry / double_of_int64 segmentLength)%float))).

(** The samples of one segment as a list: offsets [ry, ry + s, ...] below
    [segmentLength]. *)
Fixpoint samples (AlmostEquals : double -> double -> bool)
    (lerp : double -> double -> double -> double) (s : Pulse)
    (y1 : Pulse) (point1 point2 : GraphPoint.t) (segmentLength : Pulse)
    (n : nat) (ry : Pulse) : list (Pulse * GraphPoint.t) :=
  match n with
  | O => []
  | S n' =>
      if ry <? segmentLength then
        (y1 + ry, sample_point AlmostEquals lerp point1 point2 segmentLength ry)
        :: samples AlmostEquals lerp s y1 point1 point2 segmentLength n'
             (ry + s)
      else []
  end.

(** "Always copy the first point; for a linear segment copy [p2]; otherwise
    insert the samples, then copy [p2]": the expansion as a list of points in
    key order. *)
Fixpoint expand_points (AlmostEquals : double -> double -> bool)
    (isLinear : GraphCurveValue.t -> bool)
    (lerp : double -> double -> double -> double) (s : Pulse)
    (points : list (Pulse * GraphPoint.t)) : list (Pulse * GraphPoint.t) :=
  match points with
  | [] => []
  | (y1, point1) :: rest =>
      (y1, point1) ::
      match rest with
      | [] => []
      | (y2, point2) :: _ =>
          (if isLinear (GraphPoint.curve point1) then []
           else samples AlmostEquals lerp s y1 point1 point2 (y2 - y1)
                  (Z.to_nat (y2 - y1)) s)
          ++ expand_points AlmostEquals isLinear lerp s rest
      end
  end.

(** *** Instances of the parameters

    The properties of Part II hold for every [AlmostEquals], [isLinear],
    [lerp] and [GraphValueAt].  The instances below follow sections 3, 4.1
    and 4.3 of the spec and are used only to evaluate the functions on
    concrete inputs. *)

(** "Numerically equal": equality of doubles up to the machine epsilon. *)
Definition AlmostEquals_epsilon (a b : double) : bool :=
  (abs (a - b) <=? 0x1p-52)%float.

(** The linear sentinel [(0, 0)]. *)
Definition isLinear_zero (curve : GraphCurveValue.t) : bool :=
  (GraphCurveValue.a curve =? 0)%float && (GraphCurveValue.b curve =? 0)%float.

(** Linear interpolation from [a] to [b]. *)
Definition lerp_linear (a b t : double) : double :=
  (a + t * (b - a))%float.

(** Continuous value at a pulse: the segment whose key is the floor of the
    pulse, eased by its curve and interpolated from its [vf] to the next
    point's [v]. *)
Fixpoint GraphValueAt_model (graph : Graph) (pulse : Pulse) : double :=
  match graph with
  | [] => 0%float
  | (y1, point1) :: rest =>
      match rest with
      | [] => GraphValue.v (GraphPoint.v point1)
      | (y2, point2) :: _ =>
          if pulse <? y1 then GraphValue.v (GraphPoint.v point1)
          else if pulse <? y2 then
            lerp_linear (GraphValue.vf (GraphPoint.v point1))
              (GraphValue.v (GraphPoint.v point2))
              (EvaluateCurve_curve AlmostEquals_epsilon isLinear_zero
                 (GraphPoint.curve point1)
                 (double_of_int64 (pulse - y1) / double_of_int64 (y2 - y1))%float)
          else GraphValueAt_model rest pulse
      end
  end.

(** [0 <= x <= 1] as doubles compare. *)
Definition in_unit_interval (x : double) : Prop :=
  (0 <=? x)%float = true /\ (x <=? 1)%float = true.

(** *** Concrete containers and numbers *)

Definition point_of (x : double) : GraphPoint.t :=
  GraphPoint_of_value (GraphValue_of_double x).

Definition section_0_100 : GraphSection.t :=
  GraphSection.mk [(0, point_of 1); (100, point_of 2)].

Definition sections_10_300 : ByPulse GraphSection.t :=
  [(10, section_0_100); (300, GraphSection.mk [])].

(** One section at pulse 10 whose first point is 8 pulses before its
    start. *)
Definition section_minus8_100 : GraphSection.t :=
  GraphSection.mk [(-8, point_of 1); (100, point_of 2)].

Definition sections_10_early : ByPulse GraphSection.t :=
  [(10, section_minus8_100)].

(** The scenario of section 8: a curved segment [a = 0.2, b = 0.8] over
    [0, 100). *)
Definition curved_point : GraphPoint.t :=
  GraphPoint.mk (GraphValue_of_double 1)
    (GraphCurveValue.mk 0x1.999999999999ap-3 0x1.999999999999ap-1).

Definition curved_graph : Graph := [(0, curved_point); (100, point_of 2)].

Definition linear_graph : Graph :=
  [(0, point_of 1); (100, point_of 2); (200, point_of 3)].

(** [a = 1.2e-160]: a number of the unit interval whose square is
    subnormal. *)
Definition tiny_a : double := 0x1.afe54e2fa848bp-532%float.

(** ** More of the repository *)

(** *** note_info.hpp: [LaserSection::wide] *)

Definition LaserSection_wide (laserSection : LaserSection.t) : bool :=
  LaserSection.w laserSection =? kLaserXScale2x.

(** *** A laser lane whose sections are expanded one by one

    [lane'] holds, under the keys of [lane], what the LaserSection overload
    of ExpandCurveSegments returns on the sections of [lane]. *)
Definition expanded_lane
    (AlmostEquals : double -> double -> bool)
    (isLinear : GraphCurveValue.t -> bool)
    (lerp : double -> double -> double -> double)
    (subdivisionInterval : RelPulse)
    (lane lane' : ByPulse LaserSection.t) : Prop :=
  Forall2
    (fun e e' =>
       fst e' = fst e /\
       ExpandCurveSegments_LaserSection AlmostEquals isLinear lerp (snd e)
         subdivisionInterval
       = Return (snd e'))
    lane lane'.

(** A lane of one curved section, and the lane of its expansion every 40
    pulses. *)
Definition curved_lane : ByPulse LaserSection.t :=
  [(0, LaserSection.mk curved_graph kLaserXScale1x)].

Definition curved_lane_expanded : ByPulse LaserSection.t :=
  [(0, LaserSection.mk
         (expand_points AlmostEquals_epsilon isLinear_zero lerp_linear 40
            curved_graph)
         kLaserXScale1x)].

(** *** audio_effect.hpp and KsonIOIn.cpp: audio effect types *)

Inductive AudioEffectType : Type :=
| Unspecified
| Retrigger
| Gate
| Flanger
| PitchShift
| Bitcrusher
| Phaser
| Wobble
| Tapestop
| Echo
| Sidechain
| SwitchAudio
| HighPassFilter
| LowPassFilter
| PeakingFilter.

(** [std::unordered_map<std::string, V>::find] on a map built from a list
    of entries with distinct keys. *)
Fixpoint unordered_map_find {V : Type} (m : list (string * V)) (key : string)
    : option V :=
  match m with
  | [] => None
  | (k, x) :: m' => if String.eqb key k then Some x else unordered_map_find m' key
  end.

(** The [static const] table of ParseAudioEffectType. *)
Definition typeMap : list (string * AudioEffectType) :=
  [ ("retrigger", Retrigger);
    ("gate", Gate);
    ("flanger", Flanger);
    ("pitch_shift", PitchShift);
    ("bitcrusher", Bitcrusher);
    ("phaser", Phaser);
    ("wobble", Wobble);
    ("tapestop", Tapestop);
    ("echo", Echo);
    ("sidechain", Sidechain);
    ("switch_audio", SwitchAudio);
    ("high_pass_filter", HighPassFilter);
    ("low_pass_filter", LowPassFilter);
    ("peaking_filter", PeakingFilter) ]%string.

Definition ParseAudioEffectType (typeStr : string) : AudioEffectType :=
  match unordered_map_find typeMap typeStr with
  | Some t => t
  | None => Unspecified
  end.

(** *** KsonIOIn.cpp: graphs and laser lanes read from JSON

    [nlohmann::json] is a library outside the repository.  The parsers are
    embedded over the operations they call on it, collected in a class.  An
    operation that can throw ([operator[]] on a value that is not an array,
    [get<T>] on a value of another type) or whose behaviour can be undefined
    (an index past the end) returns a sum with the fault. *)
Class Json (json fault : Type) : Type := {
  is_number : json -> bool;                      (* j.is_number() *)
  is_array : json -> bool;                       (* j.is_array() *)
  is_number_integer : json -> bool;              (* j.is_number_integer() *)
  json_size : json -> nat;                       (* j.size() *)
  json_index : json -> nat -> json + fault;      (* j[idx] *)
  get_double : json -> double + fault;           (* j.get<double>() *)
  get_int64 : json -> Z + fault;                 (* j.get<Pulse>() *)
  get_int32 : json -> Z + fault;                 (* j.get<std::int32_t>() *)
  json_elements : json -> list json              (* for (const auto& x : j) *)
}.

(** [Interval], of kson/common, as ParseLaneNotes fills it: the length of
    a note, 0 for a chip note. *)
Module Interval.
Record t : Type := mk { length : RelPulse }.
End Interval.

(** A parser runs on [chartData.warnings] and leaves the warnings it pushed
    there, whether it returns or throws: LoadKSONChartData catches the
    exceptions and returns the chart data with its warnings. *)
Definition parser (fault A : Type) : Type :=
  list string -> (A + fault) * list string.

Section Parser.
Context {fault : Type}.

Definition pure {A : Type} (a : A) : parser fault A :=
  fun warnings => (inl a, warnings).

Definition and_then {A B : Type} (c : parser fault A)
    (k : A -> parser fault B) : parser fault B :=
  fun warnings =>
    match c warnings with
    | (inl a, warnings') => k a warnings'
    | (inr e, warnings') => (inr e, warnings')
    end.

(** A call into the library. *)
Definition call {A : Type} (r : A + fault) : parser fault A :=
  fun warnings => (r, warnings).

(** [chartData.warnings.push_back(msg)] *)
Definition push_warning (msg : string) : parser fault unit :=
  fun warnings => (inl tt, warnings ++ [msg]).

(** [c] leaves the warnings it started with in place and pushes at most
    [n] more, each of them one of [allowed], whether it returns or
    throws. *)
Definition only_pushes {A : Type} (allowed : list string) (n : nat)
    (c : parser fault A) : Prop :=
  forall warnings, exists added,
    snd (c warnings) = warnings ++ added /\
    (length added <= n)%nat /\ incl added allowed.

(** The same, without a count. *)
Definition warns_only {A : Type} (allowed : list string)
    (c : parser fault A) : Prop :=
  forall warnings, exists added,
    snd (c warnings) = warnings ++ added /\ incl added allowed.

End Parser.

Notation "x <~ c ;; k" := (and_then c (fun x => k))
  (at level 61, c at next level, right associativity).
Notation "c ;;~ k" := (and_then c (fun _ => k))
  (at level 61, right associativity).

Section KsonIOIn.
Context {json fault : Type} {J : Json json fault}.

Definition ParseGraphValue (j : json) : parser fault GraphValue.t :=
  if is_number j then
    x <~ call (get_double j) ;;
    pure (GraphValue_of_double x)
  else if is_array j && (2 <=? json_size j)%nat then
    j0 <~ call (json_index j 0) ;;
    x0 <~ call (get_double j0) ;;
    j1 <~ call (json_index j 1) ;;
    x1 <~ call (get_double j1) ;;
    pure (GraphValue.mk x0 x1)
  else
    push_warning "Invalid graph value format" ;;~
    pure (GraphValue_of_double 0).

(** The reading of the curve element [x = item[curveIdx]] in
    ParseGraphPointFromArrayItem:
    [if (... && x.is_array() && x.size() >= 2)
       curve = GraphCurveValue{ x[0].get<double>(), x[1].get<double>() };]
    over the initial [GraphCurveValue curve{ 0.0, 0.0 }]. *)
Definition ParseCurveElement (x : json) : parser fault GraphCurveValue.t :=
  if is_array x && (2 <=? json_size x)%nat then
    x0 <~ call (json_index x 0) ;;
    a <~ call (get_double x0) ;;
    x1 <~ call (json_index x 1) ;;
    b <~ call (get_double x1) ;;
    pure (GraphCurveValue.mk a b)
  else pure (GraphCurveValue.mk 0 0).

Definition ParseGraphPointFromArrayItem (item : json)
    (valueIdx curveIdx : nat) : parser fault GraphPoint.t :=
  v <~
    (if (valueIdx <? json_size item)%nat then
       value <~ call (json_index item valueIdx) ;;
       ParseGraphValue value
     else pure (GraphValue_of_double 0)) ;;
  curve <~
    (if (curveIdx <? json_size item)%nat then
       x <~ call (json_index item curveIdx) ;;
       ParseCurveElement x
     else pure (GraphCurveValue.mk 0 0)) ;;
  pure (GraphPoint.mk v curve).

(** The [for] loop of ParseByPulse over the items of the array. *)
Fixpoint ParseByPulse_loop {T : Type} (get : json -> T + fault)
    (items : list json) (result : ByPulse T) : parser fault (ByPulse T) :=
  match items with
  | [] => pure result
  | item :: rest =>
      if is_array item && (2 <=? json_size item)%nat then
        item0 <~ call (json_index item 0) ;;
        pulse <~ call (get_int64 item0) ;;
        item1 <~ call (json_index item 1) ;;
        value <~ call (get item1) ;;
        ParseByPulse_loop get rest (map_assign pulse value result)
      else
        push_warning "Invalid ByPulse entry format" ;;~
        ParseByPulse_loop get rest result
  end.

(** [ParseByPulse<T>]; [get] is [get<T>]. *)
Definition ParseByPulse {T : Type} (get : json -> T + fault) (j : json)
    : parser fault (ByPulse T) :=
  if negb (is_array j) then pure []
  else ParseByPulse_loop get (json_elements j) [].

Fixpoint ParseGraph_loop (items : list json) (result : Graph)
    : parser fault Graph :=
  match items with
  | [] => pure result
  | item :: rest =>
      if is_array item && (2 <=? json_size item)%nat then
        item0 <~ call (json_index item 0) ;;
        pulse <~ call (get_int64 item0) ;;
        point <~ ParseGraphPointFromArrayItem item 1 2 ;;
        ParseGraph_loop rest (map_assign pulse point result)
      else
        push_warning "Invalid graph entry format" ;;~
        ParseGraph_loop rest result
  end.

Definition ParseGraph (j : json) : parser fault Graph :=
  if negb (is_array j) then pure []
  else ParseGraph_loop (json_elements j) [].

(** The [for] loop of ParseLaneNotes; [lane] is the reference parameter,
    returned. *)
Fixpoint ParseLaneNotes_loop (items : list json) (lane : ByPulse Interval.t)
    : parser fault (ByPulse Interval.t) :=
  match items with
  | [] => pure lane
  | item :: rest =>
      if is_array item && (2 <=? json_size item)%nat then
        item0 <~ call (json_index item 0) ;;
        pulse <~ call (get_int64 item0) ;;
        item1 <~ call (json_index item 1) ;;
        length <~ call (get_int64 item1) ;;
        ParseLaneNotes_loop rest (map_assign pulse (Interval.mk length) lane)
      else if is_number_integer item then
        pulse <~ call (get_int64 item) ;;
        ParseLaneNotes_loop rest (map_assign pulse (Interval.mk 0) lane)
      else
        push_warning "Invalid note entry format" ;;~
        ParseLaneNotes_loop rest lane
  end.

Definition ParseLaneNotes (j : json) (lane : ByPulse Interval.t)
    : parser fault (ByPulse Interval.t) :=
  if negb (is_array j) then pure lane
  else ParseLaneNotes_loop (json_elements j) lane.

(** The inner loop of ParseLaserSection, over the points of one section. *)
Fixpoint ParseLaserSection_points (points : list json)
    (v : ByRelPulse GraphPoint.t) : parser fault (ByRelPulse GraphPoint.t) :=
  match points with
  | [] => pure v
  | point :: rest =>
      if is_array point && (2 <=? json_size point)%nat then
        point0 <~ call (json_index point 0) ;;
        ry <~ call (get_int64 point0) ;;
        graphPoint <~ ParseGraphPointFromArrayItem point 1 2 ;;
        ParseLaserSection_points rest (map_assign ry graphPoint v)
      else ParseLaserSection_points rest v
  end.

(** The outer loop of ParseLaserSection; [lane] is the reference
    parameter, returned. *)
Fixpoint ParseLaserSection_loop (items : list json)
    (lane : ByPulse LaserSection.t) : parser fault (ByPulse LaserSection.t) :=
  match items with
  | [] => pure lane
  | item :: rest =>
      if is_array item && (2 <=? json_size item)%nat then
        item0 <~ call (json_index item 0) ;;
        pulse <~ call (get_int64 item0) ;;
        points <~ call (json_index item 1) ;;
        v <~
          (if is_array points then
             ParseLaserSection_points (json_elements points) []
           else pure []) ;;
        w <~
          (if (3 <=? json_size item)%nat then
             item2 <~ call (json_index item 2) ;;
             call (get_int32 item2)
           else pure kLaserXScale1x) ;;
        ParseLaserSection_loop rest
          (map_assign pulse (LaserSection.mk v w) lane)
      else
        push_warning "Invalid laser section format" ;;~
        ParseLaserSection_loop rest lane
  end.

Definition ParseLaserSection (j : json) (lane : ByPulse LaserSection.t)
    : parser fault (ByPulse LaserSection.t) :=
  if negb (is_array j) then pure lane
  else ParseLaserSection_loop (json_elements j) lane.

(** [item] is an array of at least two elements whose first element
    converts to the pulse of [entry] and whose point is read, without a
    warning, as the point of [entry]. *)
Definition graph_entry (item : json) (entry : Pulse * GraphPoint.t) : Prop :=
  is_array item = true /\ (2 <= json_size item)%nat /\
  (exists item0,
     json_index item 0 = inl item0 /\ get_int64 item0 = inl (fst entry)) /\
  forall warnings,
    ParseGraphPointFromArrayItem item 1 2 warnings
    = (inl (snd entry), warnings).

(** [item] is an array of at least two elements, the first of which
    converts to the pulse of [entry] and the second, by [get], to its
    value. *)
Definition by_pulse_entry {T : Type} (get : json -> T + fault)
    (item : json) (entry : Pulse * T) : Prop :=
  is_array item = true /\ (2 <= json_size item)%nat /\
  (exists item0,
     json_index item 0 = inl item0 /\ get_int64 item0 = inl (fst entry)) /\
  (exists item1,
     json_index item 1 = inl item1 /\ get item1 = inl (snd entry)).

(** [item] gives the note [entry] in the long form, an array
    [[pulse, length, ...]] whose two first elements convert. *)
Definition long_note (item : json) (entry : Pulse * Interval.t) : Prop :=
  is_array item = true /\ (2 <= json_size item)%nat /\
  (exists item0,
     json_index item 0 = inl item0 /\ get_int64 item0 = inl (fst entry)) /\
  (exists item1,
     json_index item 1 = inl item1 /\
     get_int64 item1 = inl (Interval.length (snd entry))).

(** [item] gives the note [entry] in the compact form: an integer, the
    pulse of a chip note. *)
Definition compact_note (item : json) (entry : Pulse * Interval.t) : Prop :=
  is_array item = false /\ is_number_integer item = true /\
  get_int64 item = inl (fst entry) /\ snd entry = Interval.mk 0.

End KsonIOIn.

(** *** A JSON value for the examples

    Null, integers in the range of [std::int64_t], floating-point numbers,
    strings and arrays, with the conversions of the library on them. *)
#[warnings="-register-all"]
Inductive json_value : Type :=
| json_null
| json_integer (z : Z)
| json_float (x : double)
| json_string (s : string)
| json_array (items : list json_value).

Inductive json_fault : Type :=
| type_error                  (* nlohmann::json::type_error *)
| undefined_behaviour.        (* index past the end, cast out of range *)

(** [static_cast] of a double to a signed integer of [bits] bits:
    truncation toward zero, undefined out of range. *)
Definition double_to_int (bits : Z) (x : double) : Z + json_fault :=
  match Prim2SF x with
  | S754_zero _ => inl 0
  | S754_finite s m e =>
      let n := if 0 <=? e then Z.pos m * 2 ^ e else Z.pos m / 2 ^ (- e) in
      let z := if s then - n else n in
      if (- 2 ^ (bits - 1) <=? z) && (z <? 2 ^ (bits - 1)) then inl z
      else inr undefined_behaviour
  | _ => inr undefined_behaviour
  end.

(** [static_cast<std::int32_t>] of a 64-bit integer: the value modulo
    [2^32]. *)
Definition int64_to_int32 (z : Z) : Z :=
  (z + 2 ^ 31) mod 2 ^ 32 - 2 ^ 31.

#[export] Instance json_value_Json : Json json_value json_fault := {
  is_number j :=
    match j with json_integer _ | json_float _ => true | _ => false end;
  is_array j := match j with json_array _ => true | _ => false end;
  is_number_integer j :=
    match j with json_integer _ => true | _ => false end;
  json_size j :=
    match j with
    | json_null => 0%nat
    | json_array items => length items
    | _ => 1%nat
    end;
  json_index j idx :=
    match j with
    | json_array items =>
        match nth_error items idx with
        | Some x => inl x
        | None => inr undefined_behaviour
        end
    | _ => inr type_error
    end;
  get_double j :=
    match j with
    | json_integer z => inl (double_of_int64 z)
    | json_float x => inl x
    | _ => inr type_error
    end;
  get_int64 j :=
    match j with
    | json_integer z => inl z
    | json_float x => double_to_int 64 x
    | _ => inr type_error
    end;
  get_int32 j :=
    match j with
    | json_integer z => inl (int64_to_int32 z)
    | json_float x => double_to_int 32 x
    | _ => inr type_error
    end;
  json_elements j :=
    match j with
    | json_array items => items
    | json_null => []
    | _ => [j]
    end
}.

(** [[[0, 1.0], [100, [2.0, 3.0], [0.2, 0.8]], [100, 4.0], 7]]: a point, a
    point with a curve, a second entry for pulse 100 and a malformed
    entry. *)
Definition json_graph_example : json_value :=
  json_array
    [ json_array [json_integer 0; json_float 1];
      json_array [json_integer 100;
                  json_array [json_float 2; json_float 3];
                  json_array [json_float 0x1.999999999999ap-3;
                              json_float 0x1.999999999999ap-1]];
      json_array [json_integer 100; json_float 4];
      json_integer 7 ].

(** [[[0, 1.0], [100, 2.0], [200, 3.0]]]: [linear_graph] in JSON. *)
Definition json_linear_graph : json_value :=
  json_array
    [ json_array [json_integer 0; json_float 1];
      json_array [json_integer 100; json_float 2];
      json_array [json_integer 200; json_float 3] ].

(** [[[0, 120.0], [960, 180.0], [960, 90.0]]]: tempo changes, two of them
    at pulse 960. *)
Definition json_bpm : json_value :=
  json_array
    [ json_array [json_integer 0; json_float 120];
      json_array [json_integer 960; json_float 180];
      json_array [json_integer 960; json_float 90] ].

(** [[[0, 240], 480, [960, 0]]]: a long note and two chip notes, one in
    each form. *)
Definition json_notes : json_value :=
  json_array
    [ json_array [json_integer 0; json_integer 240];
      json_integer 480;
      json_array [json_integer 960; json_integer 0] ].

(** [[[10, [[0, 1.0], [100, 2.0]]], [300, [], 2]]]: two laser sections, the
    second one wide. *)
Definition json_laser_lane : json_value :=
  json_array
    [ json_array [json_integer 10;
                  json_array [ json_array [json_integer 0; json_float 1];
                               json_array [json_integer 100; json_float 2] ]];
      json_array [json_integer 300; json_array []; json_integer 2] ].

(* ================================================================== *)
(** * Part II: properties                                              *)
(* ================================================================== *)

(** ** Ordered maps *)

Section StdMapFacts.
Context {T : Type}.
Implicit Types (m : ByPulse T) (p k : Pulse).

Lemma keys_sorted_tail (kv : Pulse * T) m :
  keys_sorted (kv :: m) -> keys_sorted m.
Proof.
  unfold keys_sorted; simpl; intros Hs.
  now apply StronglySorted_inv in Hs.
Qed.

Lemma keys_sorted_head_lt (kv : Pulse * T) m :
  keys_sorted (kv :: m) -> forall kv', In kv' m -> fst kv < fst kv'.
Proof.
  unfold keys_sorted; simpl; intros Hs kv' Hin.
  apply StronglySorted_inv in Hs as [_ Hall].
  rewrite Forall_forall in Hall.
  apply Hall, in_map, Hin.
Qed.

Lemma keys_sorted_cons (kv : Pulse * T) m :
  keys_sorted m -> (forall kv', In kv' m -> fst kv < fst kv') ->
  keys_sorted (kv :: m).
Proof.
  unfold keys_sorted; simpl; intros Hs Hlt.
  constructor; [exact Hs|].
  rewrite Forall_forall; intros k Hk.
  apply in_map_iff in Hk as [kv' [<- Hin]].
  now apply Hlt.
Qed.

Lemma map_find_In m k x : map_find m k = Some x -> In (k, x) m.
Proof.
  induction m as [|[k' x'] m IH]; simpl; [discriminate|].
  destruct (Z.eqb_spec k k') as [->|Hne].
  - intros [= ->]; now left.
  - intros Hf; right; now apply IH.
Qed.

Lemma map_find_None m k : map_find m k = None -> forall x, ~ In (k, x) m.
Proof.
  induction m as [|[k' x'] m IH]; simpl; [intros _ x []|].
  destruct (Z.eqb_spec k k') as [->|Hne]; [discriminate|].
  intros Hf x [[= E _]|Hin]; [congruence|].
  now apply (IH Hf x).
Qed.

Lemma In_map_find m k x :
  keys_sorted m -> In (k, x) m -> map_find m k = Some x.
Proof.
  induction m as [|[k' x'] m IH]; simpl; [intros _ []|].
  intros Hs [[= -> ->]|Hin].
  - now rewrite Z.eqb_refl.
  - pose proof (keys_sorted_head_lt _ _ Hs _ Hin) as Hlt; simpl in Hlt.
    destruct (Z.eqb_spec k k') as [->|Hne]; [lia|].
    apply IH; [eapply keys_sorted_tail; eassumption | exact Hin].
Qed.

Lemma map_upper_bound_le m p : (map_upper_bound m p <= length m)%nat.
Proof.
  induction m as [|[k x] m IH]; simpl; [lia|].
  destruct (p <? k); simpl; lia.
Qed.

Lemma map_upper_bound_cons k0 (x0 : T) m p :
  map_upper_bound ((k0, x0) :: m) p =
  if p <? k0 then 0%nat else S (map_upper_bound m p).
Proof. reflexivity. Qed.

Lemma floor_entry_cons k0 (x0 : T) m p :
  floor_entry ((k0, x0) :: m) p =
  if k0 <=? p then
    match floor_entry m p with Some e => Some e | None => Some (k0, x0) end
  else None.
Proof. reflexivity. Qed.

(** On an ascending map whose first key does not exceed [p], the position
    before [upper_bound(p)] holds the floor entry. *)
Lemma upper_bound_pred_floor k0 (x0 : T) m p :
  keys_sorted ((k0, x0) :: m) -> k0 <= p ->
  exists j e,
    map_upper_bound ((k0, x0) :: m) p = S j /\
    nth_error ((k0, x0) :: m) j = Some e /\
    floor_entry ((k0, x0) :: m) p = Some e.
Proof.
  revert k0 x0; induction m as [|[k1 x1] m IH]; intros k0 x0 Hs Hle;
    rewrite map_upper_bound_cons, floor_entry_cons;
    destruct (Z.ltb_spec p k0) as [|_]; try lia;
    destruct (Z.leb_spec k0 p) as [_|]; try lia.
  - exists 0%nat, (k0, x0); simpl; auto.
  - destruct (Z.le_gt_cases k1 p) as [Hge|Hlt].
    + destruct (IH k1 x1 (keys_sorted_tail _ _ Hs) Hge)
        as (j & e & Hub & Hnth & Hfl).
      exists (S j), e. rewrite Hub, Hfl. auto.
    + exists 0%nat, (k0, x0).
      rewrite map_upper_bound_cons, floor_entry_cons.
      destruct (Z.ltb_spec p k1); [|lia].
      destruct (Z.leb_spec k1 p); [lia|]. auto.
Qed.

Lemma floor_entry_None m p :
  keys_sorted m -> floor_entry m p = None ->
  forall kv, In kv m -> p < fst kv.
Proof.
  destruct m as [|[k0 x0] m]; [intros _ _ kv []|].
  intros Hs; rewrite floor_entry_cons.
  destruct (Z.leb_spec k0 p) as [Hle|Hgt].
  - destruct (floor_entry m p); discriminate.
  - intros _ kv [<-|Hin]; [exact Hgt|].
    pose proof (keys_sorted_head_lt _ _ Hs _ Hin) as Hlt; simpl in Hlt; lia.
Qed.

(** [floor_entry] is the floor: an entry of the map, at or before the query,
    and no key of the map lies strictly between the two. *)
Lemma floor_entry_spec m p k x :
  keys_sorted m -> floor_entry m p = Some (k, x) ->
  In (k, x) m /\ k <= p /\
  forall k' x', In (k', x') m -> k' <= p -> k' <= k.
Proof.
  revert k x; induction m as [|[k0 x0] m IH]; intros k x Hs;
    [discriminate|].
  rewrite floor_entry_cons.
  destruct (Z.leb_spec k0 p) as [Hle|Hgt]; [|discriminate].
  pose proof (keys_sorted_head_lt _ _ Hs) as Hhd; simpl in Hhd.
  pose proof (keys_sorted_tail _ _ Hs) as Hs'.
  destruct (floor_entry m p) as [[k1 x1]|] eqn:Hfl; intros [= -> ->].
  - destruct (IH _ _ Hs' eq_refl) as (Hin & Hle1 & Hmax).
    split; [now right|]. split; [exact Hle1|].
    intros k' x' [[= -> ->]|Hin'] Hk'.
    + specialize (Hhd _ Hin); simpl in Hhd; lia.
    + eauto.
  - split; [now left|]. split; [exact Hle|].
    intros k' x' [[= -> ->]|Hin'] Hk'; [lia|].
    pose proof (floor_entry_None _ _ Hs' Hfl _ Hin') as Hlt; simpl in Hlt; lia.
Qed.

End StdMapFacts.

(** ** graph_utils.hpp: section lookup *)

Section GraphUtilsFacts.
Variable NDEBUG : bool.
Variable GraphValueAt : Graph -> Pulse -> double.
Context {GS : Type} {HGS : SectionLike GS}.
Implicit Types (graphSections : ByPulse GS) (pulse : Pulse).

Lemma GraphSectionAt_cons (kv : Pulse * GS) graphSections pulse :
  GraphSectionAt NDEBUG (kv :: graphSections) pulse =
  Return (pred (map_upper_bound (kv :: graphSections) pulse)).
Proof.
  unfold GraphSectionAt, assert, map_begin, map_empty.
  generalize (map_upper_bound (kv :: graphSections) pulse); intros ub.
  destruct NDEBUG, ub; reflexivity.
Qed.

(** On a non-empty container GraphSectionAt always yields an entry, never
    [end()]. *)
Lemma GraphSectionAt_in_range (kv : Pulse * GS) graphSections pulse :
  exists itr e,
    GraphSectionAt NDEBUG (kv :: graphSections) pulse = Return itr /\
    nth_error (kv :: graphSections) itr = Some e.
Proof.
  rewrite GraphSectionAt_cons.
  pose proof (map_upper_bound_le (kv :: graphSections) pulse) as Hle.
  set (itr := pred (map_upper_bound (kv :: graphSections) pulse)).
  assert (Hlt : (itr < length (kv :: graphSections))%nat)
    by (subst itr; simpl in *; lia).
  apply nth_error_Some in Hlt.
  destruct (nth_error (kv :: graphSections) itr) as [e|] eqn:He;
    [|congruence].
  exists itr, e. split; [reflexivity | exact He].
Qed.

Lemma GraphSectionAt_floor_entry y0 (gs0 : GS) graphSections pulse :
  keys_sorted ((y0, gs0) :: graphSections) -> y0 <= pulse ->
  exists itr e,
    GraphSectionAt NDEBUG ((y0, gs0) :: graphSections) pulse = Return itr /\
    nth_error ((y0, gs0) :: graphSections) itr = Some e /\
    floor_entry ((y0, gs0) :: graphSections) pulse = Some e.
Proof.
  intros Hs Hle.
  destruct (upper_bound_pred_floor _ _ _ _ Hs Hle) as (j & e & Hub & Hnth & Hfl).
  exists j, e. rewrite GraphSectionAt_cons, Hub. auto.
Qed.

Lemma GraphSectionAt_before_first y0 (gs0 : GS) graphSections pulse :
  pulse < y0 ->
  GraphSectionAt NDEBUG ((y0, gs0) :: graphSections) pulse = Return 0%nat.
Proof.
  intros Hlt. rewrite GraphSectionAt_cons, map_upper_bound_cons.
  destruct (Z.ltb_spec pulse y0); [reflexivity | lia].
Qed.

Lemma rev_head_last (points : ByRelPulse GraphPoint.t) kv r :
  rev points = kv :: r -> last (map fst points) 0 = fst kv.
Proof.
  intros Hrev.
  assert (Hp : points = rev r ++ [kv])
    by (rewrite <- (rev_involutive points), Hrev; reflexivity).
  rewrite Hp, map_app; simpl. apply last_last.
Qed.

(** The 64-bit difference is the difference when it fits. *)
Lemma int64_sub_exact x y :
  - 9223372036854775808 <= x - y < 9223372036854775808 ->
  int64_sub x y = x - y.
Proof.
  intros Hrange. unfold int64_sub.
  rewrite Z.mod_small; lia.
Qed.

(** What the two value lookups return once the governing entry is known. *)
Lemma GraphSectionValueAt_governed graphSections pulse itr y gs :
  GraphSectionAt NDEBUG graphSections pulse = Return itr ->
  nth_error graphSections itr = Some (y, gs) ->
  GraphSectionValueAt NDEBUG GraphValueAt graphSections pulse =
  Return (if section_undefined_at (section_v gs) (int64_sub pulse y) then None
          else Some (GraphValueAt (section_v gs) (int64_sub pulse y))).
Proof.
  intros Hat Hnth.
  assert (Hlt : (itr < length graphSections)%nat)
    by (apply nth_error_Some; congruence).
  unfold GraphSectionValueAt.
  destruct graphSections as [|kv rest]; [simpl in Hlt; lia|].
  simpl map_empty; cbv iota.
  rewrite Hat; cbn [bind].
  unfold map_end.
  destruct (Nat.eqb_spec itr (length (kv :: rest))) as [|_]; [lia|].
  unfold map_deref at 1. rewrite Hnth; cbn [bind].
  unfold section_undefined_at, map_size, map_begin, map_deref, map_deref_rbegin.
  destruct (section_v gs) as [|[k1 p1] [|[k2 p2] tl]] eqn:Hv;
    [reflexivity | reflexivity |].
  match goal with
  | |- context [rev ?l] => destruct (rev l) as [|[kl pl] r] eqn:Hrev
  end.
  - apply (f_equal (@length _)) in Hrev. rewrite length_rev in Hrev.
    discriminate.
  - rewrite (rev_head_last _ _ _ Hrev).
    change (length ((k1, p1) :: (k2, p2) :: tl) <=? 1)%nat with false.
    change (length ((k1, p1) :: (k2, p2) :: tl) <? 2)%nat with false.
    cbn [nth_error bind map hd fst orb].
    destruct (int64_sub pulse y <? k1); [reflexivity|].
    cbn [bind orb].
    rewrite Z.geb_leb.
    destruct (kl <=? int64_sub pulse y); reflexivity.
Qed.

Lemma GraphPointAt_governed graphSections pulse itr y gs :
  GraphSectionAt NDEBUG graphSections pulse = Return itr ->
  nth_error graphSections itr = Some (y, gs) ->
  GraphPointAt NDEBUG graphSections pulse =
  Return (map_find (section_v gs) (int64_sub pulse y)).
Proof.
  intros Hat Hnth.
  assert (Hlt : (itr < length graphSections)%nat)
    by (apply nth_error_Some; congruence).
  unfold GraphPointAt.
  destruct graphSections as [|kv rest]; [simpl in Hlt; lia|].
  simpl map_empty; cbv iota.
  rewrite Hat; cbn [bind].
  unfold map_end.
  destruct (Nat.eqb_spec itr (length (kv :: rest))) as [|_]; [lia|].
  unfold map_deref. rewrite Hnth; cbn [bind].
  unfold map_contains, map_at.
  destruct (map_find (section_v gs) (int64_sub pulse y)); reflexivity.
Qed.

End GraphUtilsFacts.

Lemma sections_10_300_sorted : keys_sorted sections_10_300.
Proof.
  unfold keys_sorted, sections_10_300; simpl.
  repeat constructor; lia.
Qed.

(** C1 (as amended): when no key of the container is at or before the query
    pulse, GraphSectionAt does not report "none" on a non-empty container: it
    returns the iterator to the first (smallest-key) entry, which is not
    [end()].  On the empty container the asserted precondition fails; with
    assertions compiled out the call returns [end()]. *)
Theorem GraphSectionAt_no_predecessor {GS : Type} (NDEBUG : bool)
    (graphSections : ByPulse GS) (pulse : Pulse) :
  (forall kv, In kv graphSections -> pulse < fst kv) ->
  match graphSections with
  | [] =>
      GraphSectionAt NDEBUG graphSections pulse =
      if NDEBUG then Return (map_end graphSections) else AssertionFailed
  | first :: _ =>
      GraphSectionAt NDEBUG graphSections pulse =
        Return (map_begin graphSections) /\
      map_deref graphSections (map_begin graphSections) = Return first /\
      map_begin graphSections <> map_end graphSections
  end.
Proof.
  intros Hbefore.
  destruct graphSections as [|[y0 gs0] rest].
  - unfold GraphSectionAt, assert; simpl. now destruct NDEBUG.
  - split; [|split].
    + apply GraphSectionAt_before_first.
      apply (Hbefore (y0, gs0)); now left.
    + reflexivity.
    + unfold map_begin, map_end; simpl; lia.
Qed.

Lemma GraphSectionAt_no_predecessor_witness :
  GraphSectionAt false sections_10_300 5 =
    Return (map_begin sections_10_300) /\
  map_deref sections_10_300 (map_begin sections_10_300) =
    Return (10, section_0_100) /\
  map_begin sections_10_300 <> map_end sections_10_300.
Proof.
  apply (GraphSectionAt_no_predecessor false sections_10_300 5).
  intros kv [<-|[<-|[]]]; simpl; lia.
Defined.

(** C1 as stated fails: on a one-section container keyed at 10, the query
    pulse 5 (before the first key) yields the section at key 10, not
    [end()]. *)
Lemma GraphSectionAt_before_first_key_is_not_none :
  GraphSectionAt false [(10, section_0_100)] 5 = Return 0%nat /\
  GraphSectionAt true [(10, section_0_100)] 5 = Return 0%nat /\
  map_deref [(10, section_0_100)] 0%nat = Return (10, section_0_100) /\
  GraphSectionAt false [(10, section_0_100)] 5 <>
    Return (map_end [(10, section_0_100)]).
Proof.
  repeat split. vm_compute. intros [=].
Qed.

(** C5: on a non-empty container, for a query pulse at or after the first
    key, GraphSectionAt returns the entry with the greatest key that is less
    than or equal to the query; when the query is itself a key, that entry is
    the one stored at the query. *)
Theorem GraphSectionAt_floor {GS : Type} (NDEBUG : bool)
    (graphSections : ByPulse GS) (pulse : Pulse)
    (y0 : Pulse) (gs0 : GS) (rest : ByPulse GS) :
  keys_sorted graphSections ->
  graphSections = (y0, gs0) :: rest ->
  y0 <= pulse ->
  exists itr y gs,
    GraphSectionAt NDEBUG graphSections pulse = Return itr /\
    map_deref graphSections itr = Return (y, gs) /\
    In (y, gs) graphSections /\
    y <= pulse /\
    (forall y' gs', In (y', gs') graphSections -> y' <= pulse -> y' <= y) /\
    (forall gs', In (pulse, gs') graphSections -> y = pulse /\ gs = gs').
Proof.
  intros Hs -> Hle.
  destruct (GraphSectionAt_floor_entry NDEBUG _ _ _ _ Hs Hle)
    as (itr & [y gs] & Hat & Hnth & Hfl).
  destruct (floor_entry_spec _ _ _ _ Hs Hfl) as (Hin & Hyle & Hmax).
  exists itr, y, gs.
  split; [exact Hat|].
  split; [unfold map_deref; now rewrite Hnth|].
  split; [exact Hin|].
  split; [exact Hyle|].
  split; [exact Hmax|].
  intros gs' Hin'.
  assert (y = pulse) as ->
    by (pose proof (Hmax _ _ Hin' (Z.le_refl _)); lia).
  pose proof (In_map_find _ _ _ Hs Hin) as E1.
  pose proof (In_map_find _ _ _ Hs Hin') as E2.
  split; congruence.
Qed.

Lemma GraphSectionAt_floor_witness :
  exists itr y gs,
    GraphSectionAt false sections_10_300 299 = Return itr /\
    map_deref sections_10_300 itr = Return (y, gs) /\
    In (y, gs) sections_10_300 /\
    y <= 299 /\
    (forall y' gs', In (y', gs') sections_10_300 -> y' <= 299 -> y' <= y) /\
    (forall gs', In (299, gs') sections_10_300 -> y = 299 /\ gs = gs').
Proof.
  apply (GraphSectionAt_floor false sections_10_300 299 10 section_0_100
           [(300, GraphSection.mk [])]).
  - exact sections_10_300_sorted.
  - reflexivity.
  - lia.
Defined.

(** C4: GraphSectionValueAt returns "no value" on an empty outer container.
    Otherwise the section it reads is the one GraphSectionAt hands over:
    the floor entry of the pulse, or, when the pulse is before every key and
    floor lookup has no answer, the first section.  With [ry] the 64-bit
    difference [pulse - start] (the difference itself when it fits in a
    [std::int64_t]), it returns "no value" exactly when that section has
    fewer than 2 points, or [ry] is before its first key, or at/after its
    last key, and GraphValueAt of the section's points at [ry] otherwise.
    GraphSectionValueAtWithDefault returns the default exactly in the
    "no value" cases and the same value otherwise. *)
Theorem GraphSectionValueAt_cases {GS : Type} {HGS : SectionLike GS}
    (NDEBUG : bool) (GraphValueAt : Graph -> Pulse -> double)
    (graphSections : ByPulse GS) (pulse : Pulse) (defaultValue : double) :
  keys_sorted graphSections ->
  exists r,
    GraphSectionValueAt NDEBUG GraphValueAt graphSections pulse = Return r /\
    GraphSectionValueAtWithDefault NDEBUG GraphValueAt graphSections pulse
      defaultValue =
      Return (match r with Some x => x | None => defaultValue end) /\
    (graphSections = [] -> r = None) /\
    (forall y gs,
       floor_entry graphSections pulse = Some (y, gs) ->
       r = if section_undefined_at (section_v gs) (int64_sub pulse y)
           then None
           else Some (GraphValueAt (section_v gs) (int64_sub pulse y))) /\
    (forall y0 gs0 rest,
       graphSections = (y0, gs0) :: rest -> pulse < y0 ->
       r = if section_undefined_at (section_v gs0) (int64_sub pulse y0)
           then None
           else Some (GraphValueAt (section_v gs0) (int64_sub pulse y0))) /\
    (forall y,
       - 9223372036854775808 <= pulse - y < 9223372036854775808 ->
       int64_sub pulse y = pulse - y).
Proof.
  intros Hs.
  assert (Hdef : forall r,
    GraphSectionValueAt NDEBUG GraphValueAt graphSections pulse = Return r ->
    GraphSectionValueAtWithDefault NDEBUG GraphValueAt graphSections pulse
      defaultValue =
    Return (match r with Some x => x | None => defaultValue end)).
  { intros r Hr. unfold GraphSectionValueAtWithDefault. rewrite Hr.
    now destruct r. }
  destruct graphSections as [|[y0 gs0] rest].
  - exists None. split; [reflexivity|]. split; [exact (Hdef None eq_refl)|].
    split; [reflexivity|]. split; [discriminate|].
    split; [discriminate | intros y; apply int64_sub_exact].
  - destruct (Z.le_gt_cases y0 pulse) as [Hle|Hlt].
    + destruct (GraphSectionAt_floor_entry NDEBUG _ _ _ _ Hs Hle)
        as (itr & [y gs] & Hat & Hnth & Hfl).
      pose proof (GraphSectionValueAt_governed NDEBUG GraphValueAt
                    _ _ _ _ _ Hat Hnth) as Hv.
      eexists. split; [exact Hv|]. split; [exact (Hdef _ Hv)|].
      split; [discriminate|]. split; [|split].
      * intros y' gs' Hfl'. rewrite Hfl in Hfl'. now inversion Hfl'.
      * intros y1 gs1 rest1 [= -> -> ->] Hlt. lia.
      * intros y'; apply int64_sub_exact.
    + pose proof (GraphSectionAt_before_first NDEBUG _ gs0 rest _ Hlt) as Hat.
      pose proof (GraphSectionValueAt_governed NDEBUG GraphValueAt
                    _ _ _ _ _ Hat eq_refl) as Hv.
      eexists. split; [exact Hv|]. split; [exact (Hdef _ Hv)|].
      split; [discriminate|]. split; [|split].
      * intros y' gs' Hfl'. rewrite floor_entry_cons in Hfl'.
        destruct (Z.leb_spec y0 pulse); [lia | discriminate].
      * now intros y1 gs1 rest1 [= -> -> ->] _.
      * intros y'; apply int64_sub_exact.
Qed.

Lemma GraphSectionValueAt_cases_witness :
  exists r,
    GraphSectionValueAt false GraphValueAt_model sections_10_300 60 =
      Return r /\
    GraphSectionValueAtWithDefault false GraphValueAt_model sections_10_300 60
      7 =
      Return (match r with Some x => x | None => 7%float end) /\
    (sections_10_300 = [] -> r = None) /\
    (forall y gs,
       floor_entry sections_10_300 60 = Some (y, gs) ->
       r = if section_undefined_at (section_v gs) (int64_sub 60 y) then None
           else Some (GraphValueAt_model (section_v gs) (int64_sub 60 y))) /\
    (forall y0 gs0 rest,
       sections_10_300 = (y0, gs0) :: rest -> 60 < y0 ->
       r = if section_undefined_at (section_v gs0) (int64_sub 60 y0)
           then None
           else Some (GraphValueAt_model (section_v gs0) (int64_sub 60 y0))) /\
    (forall y,
       - 9223372036854775808 <= 60 - y < 9223372036854775808 ->
       int64_sub 60 y = 60 - y).
Proof.
  apply (GraphSectionValueAt_cases false GraphValueAt_model sections_10_300
           60 7%float).
  exact sections_10_300_sorted.
Defined.

(** C4 as stated fails: on the container [{10: {-8: P, 100: Q}}] the query
    pulse 2 has no governing section by floor lookup, and
    GraphSectionValueAt returns a value all the same, so that
    GraphSectionValueAtWithDefault does not return the default. *)
Lemma GraphSectionValueAt_without_floor_entry :
  floor_entry sections_10_early 2 = None /\
  GraphSectionValueAt false GraphValueAt_model sections_10_early 2
  = Return (Some 1%float) /\
  GraphSectionValueAtWithDefault false GraphValueAt_model sections_10_early 2
    7
  = Return 1%float.
Proof. repeat split. Qed.

(** C8: GraphPointAt returns "none" on an empty outer container.
    Otherwise the section it reads is the one GraphSectionAt hands over:
    the floor entry of the pulse, or, when the pulse is before every key and
    floor lookup has no answer, the first section.  With [ry] the 64-bit
    difference [pulse - start] (the difference itself when it fits in a
    [std::int64_t]), it returns the point stored at exactly [ry] in that
    section, unchanged and without interpolation, and "none" when the
    section holds no point at exactly that key. *)
Theorem GraphPointAt_exact {GS : Type} {HGS : SectionLike GS}
    (NDEBUG : bool) (graphSections : ByPulse GS) (pulse : Pulse) :
  keys_sorted graphSections ->
  exists r,
    GraphPointAt NDEBUG graphSections pulse = Return r /\
    (graphSections = [] -> r = None) /\
    (forall y gs,
       floor_entry graphSections pulse = Some (y, gs)
       \/ (exists rest, graphSections = (y, gs) :: rest /\ pulse < y) ->
       r = map_find (section_v gs) (int64_sub pulse y) /\
       (forall point, r = Some point ->
                      In (int64_sub pulse y, point) (section_v gs)) /\
       (r = None ->
        forall point, ~ In (int64_sub pulse y, point) (section_v gs)) /\
       (forall point, keys_sorted (section_v gs) ->
                      In (int64_sub pulse y, point) (section_v gs) ->
                      r = Some point)) /\
    (forall y,
       - 9223372036854775808 <= pulse - y < 9223372036854775808 ->
       int64_sub pulse y = pulse - y).
Proof.
  intros Hs.
  assert (Hfind : forall r ry (gs : GS),
    r = map_find (section_v gs) ry ->
    r = map_find (section_v gs) ry /\
    (forall point, r = Some point -> In (ry, point) (section_v gs)) /\
    (r = None -> forall point, ~ In (ry, point) (section_v gs)) /\
    (forall point, keys_sorted (section_v gs) ->
                   In (ry, point) (section_v gs) -> r = Some point)).
  { intros r ry gs ->. split; [reflexivity|]. split; [|split].
    - intros point. apply map_find_In.
    - apply map_find_None.
    - intros point Hsv Hin. now apply In_map_find. }
  destruct graphSections as [|[y0 gs0] rest].
  - exists None. split; [reflexivity|]. split; [reflexivity|].
    split; [|intros y; apply int64_sub_exact].
    intros y gs [Hfl|(rest & E & _)]; discriminate.
  - destruct (Z.le_gt_cases y0 pulse) as [Hle|Hlt].
    + destruct (GraphSectionAt_floor_entry NDEBUG _ _ _ _ Hs Hle)
        as (itr & [y gs] & Hat & Hnth & Hfl).
      pose proof (GraphPointAt_governed NDEBUG _ _ _ _ _ Hat Hnth) as Hv.
      eexists. split; [exact Hv|]. split; [discriminate|].
      split; [|intros y'; apply int64_sub_exact].
      intros y' gs' [Hfl'|(rest' & E & Hlt)].
      * rewrite Hfl in Hfl'. inversion Hfl'; subst. now apply Hfind.
      * inversion E; subst. lia.
    + pose proof (GraphSectionAt_before_first NDEBUG _ gs0 rest _ Hlt) as Hat.
      pose proof (GraphPointAt_governed NDEBUG _ _ _ _ _ Hat eq_refl) as Hv.
      eexists. split; [exact Hv|]. split; [discriminate|].
      split; [|intros y'; apply int64_sub_exact].
      intros y' gs' [Hfl'|(rest' & E & _)].
      * rewrite floor_entry_cons in Hfl'.
        destruct (Z.leb_spec y0 pulse); [lia | discriminate].
      * inversion E; subst. now apply Hfind.
Qed.

Lemma GraphPointAt_exact_witness :
  exists r,
    GraphPointAt false sections_10_300 110 = Return r /\
    (sections_10_300 = [] -> r = None) /\
    (forall y gs,
       floor_entry sections_10_300 110 = Some (y, gs)
       \/ (exists rest, sections_10_300 = (y, gs) :: rest /\ 110 < y) ->
       r = map_find (section_v gs) (int64_sub 110 y) /\
       (forall point, r = Some point ->
                      In (int64_sub 110 y, point) (section_v gs)) /\
       (r = None ->
        forall point, ~ In (int64_sub 110 y, point) (section_v gs)) /\
       (forall point, keys_sorted (section_v gs) ->
                      In (int64_sub 110 y, point) (section_v gs) ->
                      r = Some point)) /\
    (forall y,
       - 9223372036854775808 <= 110 - y < 9223372036854775808 ->
       int64_sub 110 y = 110 - y).
Proof.
  apply (GraphPointAt_exact false sections_10_300 110).
  exact sections_10_300_sorted.
Defined.

(** C8 as stated fails: on the container [{10: {-8: P, 100: Q}}] the query
    pulse 2 has no governing section by floor lookup, and GraphPointAt
    returns the point [P] all the same. *)
Lemma GraphPointAt_without_floor_entry :
  floor_entry sections_10_early 2 = None /\
  GraphPointAt false sections_10_early 2 = Return (Some (point_of 1)).
Proof. split; reflexivity. Qed.

(** The relative pulse is a 64-bit difference: with a section at the
    greatest pulse and the query pulse -10 it wraps around to
    [2^63 - 9], the key of a stored point. *)
Example lookup_with_wrapped_difference :
  int64_sub (-10) 9223372036854775807 = 9223372036854775799 /\
  GraphPointAt true
    [(9223372036854775807,
      GraphSection.mk [(9223372036854775799, point_of 1)])] (-10)
  = Return (Some (point_of 1)).
Proof. split; reflexivity. Qed.

(** ** Appending to an ordered map *)

Section AppendFacts.
Context {T : Type}.
Implicit Types (m : ByPulse T).

Lemma map_insert_last (kv : Pulse * T) m :
  (forall kv', In kv' m -> fst kv' < fst kv) ->
  map_insert kv m = m ++ [kv].
Proof.
  induction m as [|[k' x'] m IH]; intros Hlt; [reflexivity|].
  pose proof (Hlt (k', x') (or_introl eq_refl)) as Hk; simpl in Hk.
  simpl.
  destruct (Z.ltb_spec (fst kv) k'); [lia|].
  destruct (Z.eqb_spec (fst kv) k'); [lia|].
  rewrite IH; [reflexivity|].
  intros kv' Hin; apply Hlt; now right.
Qed.

Lemma map_assign_last k (x : T) m :
  (forall kv', In kv' m -> fst kv' < k) ->
  map_assign k x m = m ++ [(k, x)].
Proof.
  induction m as [|[k' x'] m IH]; intros Hlt; [reflexivity|].
  pose proof (Hlt (k', x') (or_introl eq_refl)) as Hk; simpl in Hk.
  simpl.
  destruct (Z.ltb_spec k k'); [lia|].
  destruct (Z.eqb_spec k k'); [lia|].
  rewrite IH; [reflexivity|].
  intros kv' Hin; apply Hlt; now right.
Qed.

Lemma keys_sorted_app m1 m2 :
  keys_sorted m1 -> keys_sorted m2 ->
  (forall kv1 kv2, In kv1 m1 -> In kv2 m2 -> fst kv1 < fst kv2) ->
  keys_sorted (m1 ++ m2).
Proof.
  induction m1 as [|kv m1 IH]; intros Hs1 Hs2 Hlt; [exact Hs2|].
  simpl. apply keys_sorted_cons.
  - apply IH; [eapply keys_sorted_tail; eassumption | exact Hs2 |].
    intros kv1 kv2 H1 H2; apply Hlt; [now right | exact H2].
  - intros kv' Hin. apply in_app_or in Hin as [Hin|Hin].
    + now apply (keys_sorted_head_lt _ _ Hs1).
    + apply Hlt; [now left | exact Hin].
Qed.

Lemma keys_sorted_app_inv m1 m2 :
  keys_sorted (m1 ++ m2) ->
  keys_sorted m1 /\ keys_sorted m2 /\
  (forall kv1 kv2, In kv1 m1 -> In kv2 m2 -> fst kv1 < fst kv2).
Proof.
  induction m1 as [|kv m1 IH]; intros Hs.
  - split; [constructor|]. split; [exact Hs|]. intros ? ? [].
  - simpl in Hs.
    destruct (IH (keys_sorted_tail _ _ Hs)) as (H1 & H2 & H12).
    pose proof (keys_sorted_head_lt _ _ Hs) as Hhd.
    split; [|split; [exact H2|]].
    + apply keys_sorted_cons; [exact H1|].
      intros kv' Hin. apply Hhd, in_or_app; now left.
    + intros kv1 kv2 [<-|Hin1] Hin2.
      * apply Hhd, in_or_app; now right.
      * now apply H12.
Qed.

End AppendFacts.

(** ** graph_curve.cpp: the expansion loops *)

Section ExpandFacts.
Variable AlmostEquals : double -> double -> bool.
Variable isLinear : GraphCurveValue.t -> bool.
Variable lerp : double -> double -> double -> double.
Variable s : Pulse.
Hypothesis s_positive : 0 < s.

Local Abbreviation sample := (sample_point AlmostEquals lerp).
Local Abbreviation samples_of := (samples AlmostEquals lerp s).
Local Abbreviation expand := (expand_points AlmostEquals isLinear lerp s).
Local Abbreviation subdivide := (subdivide_loop AlmostEquals isLinear lerp s).
Local Abbreviation loop := (expand_loop AlmostEquals isLinear lerp s).

Implicit Types (ry L : Pulse) (n : nat).

Lemma samples_keys y1 p1 p2 L n ry kv :
  In kv (samples_of y1 p1 p2 L n ry) -> y1 + ry <= fst kv < y1 + L.
Proof.
  revert ry; induction n as [|n IH]; intros ry; simpl; [intros []|].
  destruct (Z.ltb_spec ry L) as [Hlt|]; [|intros []].
  intros [<-|Hin]; [simpl; lia|].
  specialize (IH _ Hin). lia.
Qed.

Lemma samples_sorted y1 p1 p2 L n ry :
  keys_sorted (samples_of y1 p1 p2 L n ry).
Proof.
  revert ry; induction n as [|n IH]; intros ry; simpl; [constructor|].
  destruct (ry <? L); [|constructor].
  apply keys_sorted_cons; [apply IH|].
  intros kv Hin. apply samples_keys in Hin. simpl. lia.
Qed.

Lemma samples_default_curve y1 p1 p2 L n ry kv :
  In kv (samples_of y1 p1 p2 L n ry) ->
  GraphPoint.curve (snd kv) = default_curve.
Proof.
  revert ry; induction n as [|n IH]; intros ry; simpl; [intros []|].
  destruct (ry <? L); [|intros []].
  intros [<-|Hin]; [reflexivity | eauto].
Qed.

(** The samples are the points at offsets [ry + j * s] below [L], each
    once. *)
Lemma samples_In y1 p1 p2 L n ry k q :
  In (k, q) (samples_of y1 p1 p2 L n ry) ->
  exists j : nat,
    (j < n)%nat /\ ry + Z.of_nat j * s < L /\
    k = y1 + (ry + Z.of_nat j * s) /\
    q = sample p1 p2 L (ry + Z.of_nat j * s).
Proof.
  revert ry; induction n as [|n IH]; intros ry; simpl; [intros []|].
  destruct (Z.ltb_spec ry L) as [Hlt|]; [|intros []].
  intros [[= <- <-]|Hin].
  - exists 0%nat. repeat split; try lia; f_equal; lia.
  - destruct (IH _ Hin) as (j & Hj & HjL & -> & ->).
    exists (S j). repeat split; try lia; f_equal; lia.
Qed.

Lemma In_samples y1 p1 p2 L n ry (j : nat) :
  (j < n)%nat -> ry + Z.of_nat j * s < L ->
  In (y1 + (ry + Z.of_nat j * s), sample p1 p2 L (ry + Z.of_nat j * s))
     (samples_of y1 p1 p2 L n ry).
Proof.
  revert ry j; induction n as [|n IH]; intros ry j Hj HjL; [lia|].
  simpl.
  destruct (Z.ltb_spec ry L) as [Hlt|Hge]; [|nia].
  destruct j as [|j].
  - left. f_equal; [lia | f_equal; lia].
  - right.
    replace (ry + Z.of_nat (S j) * s) with (ry + s + Z.of_nat j * s) by lia.
    apply IH; lia.
Qed.

(** The [for] loop appends the samples in key order; the fuel it is given
    suffices. *)
Lemma subdivide_loop_appends y1 p1 p2 L :
  isLinear (GraphPoint.curve p1) = false ->
  forall fuel ry (result : Graph),
    L - ry <= Z.of_nat fuel ->
    (forall kv, In kv result -> fst kv < y1 + ry) ->
    subdivide y1 p1 p2 L fuel ry result =
    Return (result ++ samples_of y1 p1 p2 L fuel ry).
Proof.
  intros Hcurved.
  induction fuel as [|fuel IH]; intros ry result Hfuel Hkeys; simpl.
  - destruct (Z.ltb_spec ry L); [lia|]. now rewrite app_nil_r.
  - destruct (Z.ltb_spec ry L) as [Hlt|Hge]; [|now rewrite app_nil_r].
    rewrite map_assign_last by exact Hkeys.
    rewrite IH.
    + rewrite <- app_assoc. simpl.
      unfold sample_point, EvaluateCurve_curve. now rewrite Hcurved.
    + lia.
    + intros kv Hin. apply in_app_or in Hin as [Hin|[<-|[]]].
      * specialize (Hkeys _ Hin). lia.
      * simpl. lia.
Qed.

(** The segment between two consecutive points, as the spec words it. *)
Local Abbreviation segment y1 p1 y2 p2 :=
  (if isLinear (GraphPoint.curve p1) then []
   else samples_of y1 p1 p2 (y2 - y1) (Z.to_nat (y2 - y1)) s).

Lemma expand_cons2 y1 p1 y2 p2 rest :
  expand ((y1, p1) :: (y2, p2) :: rest) =
  (y1, p1) :: segment y1 p1 y2 p2 ++ expand ((y2, p2) :: rest).
Proof. reflexivity. Qed.

Lemma expand_head y1 p1 rest :
  exists tl, expand ((y1, p1) :: rest) = (y1, p1) :: tl.
Proof. destruct rest as [|[y2 p2] rest]; simpl; eauto. Qed.

Lemma segment_keys y1 p1 y2 p2 kv :
  In kv (segment y1 p1 y2 p2) -> y1 < fst kv < y2.
Proof.
  destruct (isLinear (GraphPoint.curve p1)); [intros []|].
  intros Hin. apply samples_keys in Hin. lia.
Qed.

Lemma expand_loop_cons2 y1 p1 y2 p2 rest (result : Graph) :
  loop ((y1, p1) :: (y2, p2) :: rest) result =
  if isLinear (GraphPoint.curve p1) then
    loop ((y2, p2) :: rest) (map_insert (y2, p2) result)
  else
    result' <- subdivide y1 p1 p2 (y2 - y1) (Z.to_nat (y2 - y1)) s result ;;
    loop ((y2, p2) :: rest) (map_insert (y2, p2) result').
Proof. reflexivity. Qed.

(** The [while] loop appends, for every remaining pair of consecutive
    points, the samples of the segment and then its second point. *)
Lemma expand_loop_appends (itr : Graph) :
  forall y1 p1 rest (result : Graph),
    itr = (y1, p1) :: rest ->
    keys_sorted itr ->
    (forall kv, In kv result -> fst kv <= y1) ->
    loop itr result = Return (result ++ tl (expand itr)).
Proof.
  induction itr as [|[y1' p1'] nextItr IH]; intros y1 p1 rest result E Hs Hkeys;
    [discriminate|].
  injection E as -> -> ->.
  destruct rest as [|[y2 p2] rest].
  - simpl. now rewrite app_nil_r.
  - pose proof (keys_sorted_head_lt _ _ Hs (y2, p2) (or_introl eq_refl)) as Hlt.
    simpl in Hlt.
    rewrite expand_cons2. cbn [tl].
    destruct (expand_head y2 p2 rest) as [tl2 Etl].
    rewrite expand_loop_cons2.
    destruct (isLinear (GraphPoint.curve p1)) eqn:Hlin.
    + rewrite map_insert_last
        by (intros kv Hin; specialize (Hkeys _ Hin); simpl; lia).
      rewrite (IH y2 p2 rest _ eq_refl (keys_sorted_tail _ _ Hs)).
      * rewrite Etl. cbn [tl app]. now rewrite <- app_assoc.
      * intros kv Hin. apply in_app_or in Hin as [Hin|[<-|[]]].
        -- specialize (Hkeys _ Hin). lia.
        -- simpl. lia.
    + rewrite subdivide_loop_appends; [cbn [bind] | exact Hlin | lia |].
      2:{ intros kv Hin. specialize (Hkeys _ Hin). lia. }
      assert (Hres : forall kv,
        In kv (result ++ samples_of y1 p1 p2 (y2 - y1) (Z.to_nat (y2 - y1)) s) ->
        fst kv < y2).
      { intros kv Hin. apply in_app_or in Hin as [Hin|Hin].
        - specialize (Hkeys _ Hin). lia.
        - apply samples_keys in Hin. lia. }
      rewrite map_insert_last by exact Hres.
      rewrite (IH y2 p2 rest _ eq_refl (keys_sorted_tail _ _ Hs)).
      * rewrite Etl. cbn [tl]. rewrite <- !app_assoc. reflexivity.
      * intros kv Hin. apply in_app_or in Hin as [Hin|[<-|[]]].
        -- specialize (Hres _ Hin). lia.
        -- simpl. lia.
Qed.

(** ExpandCurveSegments returns, for a positive interval, and its result is
    the expansion of section 4.4 in key order. *)
Lemma ExpandCurveSegments_expand_points (graph : Graph) :
  keys_sorted graph ->
  ExpandCurveSegments AlmostEquals isLinear lerp graph s =
  Return (expand graph).
Proof.
  intros Hs. unfold ExpandCurveSegments.
  destruct (Z.leb_spec s 0); [lia|].
  destruct graph as [|[y1 p1] rest]; [reflexivity|].
  cbn [map_empty map_insert].
  rewrite (expand_loop_appends _ y1 p1 rest _ eq_refl Hs).
  - destruct (expand_head y1 p1 rest) as [tl1 ->]. reflexivity.
  - intros kv [<-|[]]. simpl. lia.
Qed.

End ExpandFacts.

(** ** graph_curve.cpp: what the expansion contains *)

Section ExpansionFacts.
Variable AlmostEquals : double -> double -> bool.
Variable isLinear : GraphCurveValue.t -> bool.
Variable lerp : double -> double -> double -> double.
Variable s : Pulse.
Hypothesis s_positive : 0 < s.

Local Abbreviation sample := (sample_point AlmostEquals lerp).
Local Abbreviation samples_of := (samples AlmostEquals lerp s).
Local Abbreviation expand := (expand_points AlmostEquals isLinear lerp s).
Local Abbreviation segment y1 p1 y2 p2 :=
  (if isLinear (GraphPoint.curve p1) then []
   else samples_of y1 p1 p2 (y2 - y1) (Z.to_nat (y2 - y1)) s).

Implicit Types (graph pre post : Graph).

Lemma In_expand graph kv : In kv graph -> In kv (expand graph).
Proof.
  induction graph as [|[y1 p1] rest IH]; [intros []|].
  destruct rest as [|[y2 p2] rest]; [trivial|].
  rewrite (expand_cons2 AlmostEquals isLinear lerp s).
  intros [<-|Hin]; [now left|].
  right. apply in_or_app. right. now apply IH.
Qed.

(** Every key of the expansion lies between two keys of the input. *)
Lemma expand_keys_convex (P : Pulse -> Prop) graph kv :
  (forall k1 k k2, P k1 -> P k2 -> k1 <= k <= k2 -> P k) ->
  (forall kv', In kv' graph -> P (fst kv')) ->
  In kv (expand graph) -> P (fst kv).
Proof.
  intros Hconvex.
  induction graph as [|[y1 p1] rest IH]; [intros _ []|].
  destruct rest as [|[y2 p2] rest].
  - intros Hb [<-|[]]. apply Hb. now left.
  - rewrite (expand_cons2 AlmostEquals isLinear lerp s).
    intros Hb [<-|Hin]; [apply Hb; now left|].
    apply in_app_or in Hin as [Hin|Hin].
    + apply (segment_keys AlmostEquals isLinear lerp s s_positive) in Hin.
      pose proof (Hb (y1, p1) (or_introl eq_refl)) as H1.
      pose proof (Hb (y2, p2) (or_intror (or_introl eq_refl))) as H2.
      simpl in H1, H2. apply (Hconvex y1 (fst kv) y2); auto. lia.
    + apply IH; [|exact Hin].
      intros kv' Hin'. apply Hb. now right.
Qed.

Lemma expand_lower_bound graph lo kv :
  (forall kv', In kv' graph -> lo <= fst kv') ->
  In kv (expand graph) -> lo <= fst kv.
Proof.
  apply (expand_keys_convex (fun k => lo <= k)). intros; lia.
Qed.

Lemma expand_upper_bound graph hi kv :
  (forall kv', In kv' graph -> fst kv' <= hi) ->
  In kv (expand graph) -> fst kv <= hi.
Proof.
  apply (expand_keys_convex (fun k => k <= hi)). intros; lia.
Qed.

Lemma segment_sorted y1 p1 y2 p2 : keys_sorted (segment y1 p1 y2 p2).
Proof.
  destruct (isLinear (GraphPoint.curve p1)); [constructor|].
  apply samples_sorted, s_positive.
Qed.

Lemma sorted_keys_ge_head y (p : GraphPoint.t) rest kv :
  keys_sorted ((y, p) :: rest) -> In kv ((y, p) :: rest) -> y <= fst kv.
Proof.
  intros Hs [<-|Hin]; [simpl; lia|].
  pose proof (keys_sorted_head_lt _ _ Hs _ Hin) as Hk. simpl in Hk. lia.
Qed.

(** The expansion of a [std::map] is again in strictly ascending key
    order. *)
Lemma expand_sorted graph : keys_sorted graph -> keys_sorted (expand graph).
Proof.
  induction graph as [|[y1 p1] rest IH]; intros Hs; [constructor|].
  destruct rest as [|[y2 p2] rest]; [exact Hs|].
  rewrite (expand_cons2 AlmostEquals isLinear lerp s).
  pose proof (keys_sorted_tail _ _ Hs) as Hs'.
  pose proof (keys_sorted_head_lt _ _ Hs (y2, p2) (or_introl eq_refl)) as Hlt.
  simpl in Hlt.
  assert (Hlo : forall kv, In kv (expand ((y2, p2) :: rest)) -> y2 <= fst kv).
  { intros kv. apply expand_lower_bound.
    intros kv'. now apply sorted_keys_ge_head. }
  apply keys_sorted_cons.
  - apply keys_sorted_app; [apply segment_sorted | now apply IH |].
    intros kv1 kv2 H1 H2.
    apply (segment_keys AlmostEquals isLinear lerp s s_positive) in H1.
    specialize (Hlo _ H2). lia.
  - intros kv Hin. apply in_app_or in Hin as [Hin|Hin].
    + apply (segment_keys AlmostEquals isLinear lerp s s_positive) in Hin.
      simpl. lia.
    + specialize (Hlo _ Hin). simpl. lia.
Qed.

(** The expansion splits at every pair of consecutive points. *)
Lemma expand_split pre y1 p1 y2 p2 post :
  expand (pre ++ (y1, p1) :: (y2, p2) :: post) =
  expand (pre ++ [(y1, p1)]) ++ segment y1 p1 y2 p2
    ++ expand ((y2, p2) :: post).
Proof.
  induction pre as [|[y0 p0] pre IH]; [reflexivity|].
  destruct pre as [|[y0' p0'] pre].
  - simpl app at 1 2.
    rewrite !(expand_cons2 AlmostEquals isLinear lerp s).
    cbn [expand_points]. rewrite <- !app_assoc. reflexivity.
  - change (expand (((y0, p0) :: (y0', p0') :: pre) ++
                    (y1, p1) :: (y2, p2) :: post))
      with ((y0, p0) :: segment y0 p0 y0' p0' ++
            expand (((y0', p0') :: pre) ++ (y1, p1) :: (y2, p2) :: post)).
    rewrite IH.
    change (expand (((y0, p0) :: (y0', p0') :: pre) ++ [(y1, p1)]))
      with ((y0, p0) :: segment y0 p0 y0' p0' ++
            expand (((y0', p0') :: pre) ++ [(y1, p1)])).
    simpl app. rewrite <- !app_assoc. reflexivity.
Qed.

(** A container whose every outgoing curve is linear is its own
    expansion. *)
Lemma expand_all_linear graph :
  (forall kv, In kv graph -> isLinear (GraphPoint.curve (snd kv)) = true) ->
  expand graph = graph.
Proof.
  induction graph as [|[y1 p1] rest IH]; [reflexivity|].
  destruct rest as [|[y2 p2] rest]; [reflexivity|].
  intros Hlin.
  rewrite (expand_cons2 AlmostEquals isLinear lerp s).
  pose proof (Hlin (y1, p1) (or_introl eq_refl)) as H1. simpl in H1.
  rewrite H1, IH; [reflexivity|].
  intros kv Hin. apply Hlin. now right.
Qed.

(** A run of linear points in front of a non-empty container passes through
    the expansion unchanged. *)
Lemma expand_linear_prefix pre y p post :
  (forall kv, In kv pre -> isLinear (GraphPoint.curve (snd kv)) = true) ->
  expand (pre ++ (y, p) :: post) = pre ++ expand ((y, p) :: post).
Proof.
  induction pre as [|[y0 p0] pre IH]; intros Hlin; [reflexivity|].
  pose proof (Hlin (y0, p0) (or_introl eq_refl)) as H0. simpl in H0.
  assert (IH' : expand (pre ++ (y, p) :: post) = pre ++ expand ((y, p) :: post))
    by (apply IH; intros kv Hin; apply Hlin; now right).
  destruct pre as [|[y0' p0'] pre].
  - simpl app. rewrite (expand_cons2 AlmostEquals isLinear lerp s), H0.
    reflexivity.
  - change (expand (((y0, p0) :: (y0', p0') :: pre) ++ (y, p) :: post))
      with ((y0, p0) :: segment y0 p0 y0' p0' ++
            expand (((y0', p0') :: pre) ++ (y, p) :: post)).
    rewrite H0, IH'. reflexivity.
Qed.

(** Expanding an expansion changes nothing, provided the default curve of
    the inserted points is linear. *)
Lemma expand_idempotent graph :
  isLinear default_curve = true ->
  expand (expand graph) = expand graph.
Proof.
  intros Hdefault.
  induction graph as [|[y1 p1] rest IH]; [reflexivity|].
  destruct rest as [|[y2 p2] rest]; [reflexivity|].
  rewrite (expand_cons2 AlmostEquals isLinear lerp s).
  destruct (expand_head AlmostEquals isLinear lerp s y2 p2 rest) as [tl2 Etl].
  destruct (isLinear (GraphPoint.curve p1)) eqn:Hlin.
  - cbn [app]. rewrite Etl.
    rewrite (expand_cons2 AlmostEquals isLinear lerp s), Hlin.
    rewrite <- Etl, IH. reflexivity.
  - destruct (samples_of y1 p1 p2 (y2 - y1) (Z.to_nat (y2 - y1)) s)
      as [|[k q] more] eqn:Hsm.
    + cbn [app]. rewrite Etl.
      rewrite (expand_cons2 AlmostEquals isLinear lerp s), Hlin, Hsm.
      rewrite <- Etl, IH. reflexivity.
    + assert (Hk : k = y1 + s).
      { destruct (Z.to_nat (y2 - y1)); simpl in Hsm; [discriminate|].
        destruct (s <? y2 - y1); [|discriminate].
        now injection Hsm as <- _ _. }
      subst k.
      assert (Hall : forall kv, In kv ((y1 + s, q) :: more) ->
                isLinear (GraphPoint.curve (snd kv)) = true).
      { intros kv Hin. rewrite <- Hsm in Hin.
        apply samples_default_curve in Hin. now rewrite Hin. }
      rewrite Etl.
      change (((y1 + s, q) :: more) ++ (y2, p2) :: tl2)
        with ((y1 + s, q) :: (more ++ (y2, p2) :: tl2)).
      rewrite (expand_cons2 AlmostEquals isLinear lerp s), Hlin.
      replace (samples_of y1 p1 q (y1 + s - y1) (Z.to_nat (y1 + s - y1)) s)
        with (@nil (Pulse * GraphPoint.t)).
      2:{ destruct (Z.to_nat (y1 + s - y1)); [reflexivity|]. simpl.
          destruct (Z.ltb_spec s (y1 + s - y1)); [lia | reflexivity]. }
      cbn [app].
      change ((y1 + s, q) :: (more ++ (y2, p2) :: tl2))
        with (((y1 + s, q) :: more) ++ (y2, p2) :: tl2).
      rewrite (expand_linear_prefix _ _ _ _ Hall).
      rewrite <- Etl, IH. reflexivity.
Qed.

End ExpansionFacts.

(** ** graph_curve.cpp: the three overloads *)

Section Overloads.
Variable AlmostEquals : double -> double -> bool.
Variable isLinear : GraphCurveValue.t -> bool.
Variable lerp : double -> double -> double -> double.

Local Abbreviation expand := (expand_points AlmostEquals isLinear lerp).
Local Abbreviation ECS := (ExpandCurveSegments AlmostEquals isLinear lerp).
Local Abbreviation ECS_GraphSection :=
  (ExpandCurveSegments_GraphSection AlmostEquals isLinear lerp).
Local Abbreviation ECS_LaserSection :=
  (ExpandCurveSegments_LaserSection AlmostEquals isLinear lerp).

(** The section overloads run the loop of the Graph overload on their points
    and rebuild the section around the result (keeping the width flag). *)
Lemma ExpandCurveSegments_GraphSection_points (gs : GraphSection.t) s :
  ECS_GraphSection gs s =
  v <- ECS (GraphSection.v gs) s ;; Return (GraphSection.mk v).
Proof.
  unfold ExpandCurveSegments_GraphSection, ExpandCurveSegments.
  destruct (s <=? 0); [reflexivity|].
  destruct gs as [[|first rest]]; reflexivity.
Qed.

Lemma ExpandCurveSegments_LaserSection_points (ls : LaserSection.t) s :
  ECS_LaserSection ls s =
  v <- ECS (LaserSection.v ls) s ;;
  Return (LaserSection.mk v (LaserSection.w ls)).
Proof.
  unfold ExpandCurveSegments_LaserSection, ExpandCurveSegments.
  destruct (s <=? 0); [reflexivity|].
  destruct ls as [[|first rest] w]; reflexivity.
Qed.

Lemma ExpandCurveSegments_overloads (points : ByPulse GraphPoint.t) w s r :
  ECS points s = Return r ->
  ECS_GraphSection (GraphSection.mk points) s = Return (GraphSection.mk r) /\
  ECS_LaserSection (LaserSection.mk points w) s = Return (LaserSection.mk r w).
Proof.
  intros Hr.
  rewrite ExpandCurveSegments_GraphSection_points,
    ExpandCurveSegments_LaserSection_points.
  cbn [GraphSection.v LaserSection.v LaserSection.w].
  now rewrite Hr.
Qed.

End Overloads.

Lemma curved_graph_sorted : keys_sorted curved_graph.
Proof. unfold keys_sorted, curved_graph; simpl. repeat constructor; lia. Qed.

Lemma linear_graph_sorted : keys_sorted linear_graph.
Proof. unfold keys_sorted, linear_graph; simpl. repeat constructor; lia. Qed.

(** C6: with a subdivision interval less than or equal to 0, each of the
    three ExpandCurveSegments overloads throws [std::invalid_argument] on
    every input, the empty container included, and returns no container. *)
Theorem ExpandCurveSegments_rejects_nonpositive
    (AlmostEquals : double -> double -> bool)
    (isLinear : GraphCurveValue.t -> bool)
    (lerp : double -> double -> double -> double)
    (graph : Graph) (graphSection : GraphSection.t)
    (laserSection : LaserSection.t) (subdivisionInterval : Pulse) :
  subdivisionInterval <= 0 ->
  ExpandCurveSegments AlmostEquals isLinear lerp graph subdivisionInterval =
    Throw (invalid_argument "subdivisionInterval must be positive") /\
  ExpandCurveSegments_GraphSection AlmostEquals isLinear lerp graphSection
    subdivisionInterval =
    Throw (invalid_argument "subdivisionInterval must be positive") /\
  ExpandCurveSegments_LaserSection AlmostEquals isLinear lerp laserSection
    subdivisionInterval =
    Throw (invalid_argument "subdivisionInterval must be positive") /\
  (forall r, ExpandCurveSegments AlmostEquals isLinear lerp graph
               subdivisionInterval <> Return r) /\
  (forall r, ExpandCurveSegments_GraphSection AlmostEquals isLinear lerp
               graphSection subdivisionInterval <> Return r) /\
  (forall r, ExpandCurveSegments_LaserSection AlmostEquals isLinear lerp
               laserSection subdivisionInterval <> Return r).
Proof.
  intros Hle.
  unfold ExpandCurveSegments, ExpandCurveSegments_GraphSection,
    ExpandCurveSegments_LaserSection.
  destruct (Z.leb_spec subdivisionInterval 0) as [_|]; [|lia].
  repeat split; intros r; discriminate.
Qed.

Lemma ExpandCurveSegments_rejects_nonpositive_witness :
  ExpandCurveSegments AlmostEquals_epsilon isLinear_zero lerp_linear [] 0 =
    Throw (invalid_argument "subdivisionInterval must be positive") /\
  ExpandCurveSegments_GraphSection AlmostEquals_epsilon isLinear_zero
    lerp_linear section_0_100 0 =
    Throw (invalid_argument "subdivisionInterval must be positive") /\
  ExpandCurveSegments_LaserSection AlmostEquals_epsilon isLinear_zero
    lerp_linear (LaserSection.mk curved_graph kLaserXScale2x) 0 =
    Throw (invalid_argument "subdivisionInterval must be positive") /\
  (forall r, ExpandCurveSegments AlmostEquals_epsilon isLinear_zero
               lerp_linear [] 0 <> Return r) /\
  (forall r, ExpandCurveSegments_GraphSection AlmostEquals_epsilon
               isLinear_zero lerp_linear section_0_100 0 <> Return r) /\
  (forall r, ExpandCurveSegments_LaserSection AlmostEquals_epsilon
               isLinear_zero lerp_linear
               (LaserSection.mk curved_graph kLaserXScale2x) 0 <> Return r).
Proof.
  apply (ExpandCurveSegments_rejects_nonpositive AlmostEquals_epsilon
           isLinear_zero lerp_linear [] section_0_100
           (LaserSection.mk curved_graph kLaserXScale2x) 0).
  lia.
Defined.

(** C7: when the outgoing curve of every point is linear, ExpandCurveSegments
    with a positive interval returns a container equal to its input, in each
    of the three overloads. *)
Theorem ExpandCurveSegments_linear_identity
    (AlmostEquals : double -> double -> bool)
    (isLinear : GraphCurveValue.t -> bool)
    (lerp : double -> double -> double -> double)
    (points : ByPulse GraphPoint.t) (w : Z) (subdivisionInterval : Pulse) :
  keys_sorted points ->
  0 < subdivisionInterval ->
  (forall kv, In kv points -> isLinear (GraphPoint.curve (snd kv)) = true) ->
  ExpandCurveSegments AlmostEquals isLinear lerp points subdivisionInterval =
    Return points /\
  ExpandCurveSegments_GraphSection AlmostEquals isLinear lerp
    (GraphSection.mk points) subdivisionInterval =
    Return (GraphSection.mk points) /\
  ExpandCurveSegments_LaserSection AlmostEquals isLinear lerp
    (LaserSection.mk points w) subdivisionInterval =
    Return (LaserSection.mk points w).
Proof.
  intros Hs Hpos Hlin.
  assert (Hr : ExpandCurveSegments AlmostEquals isLinear lerp points
                 subdivisionInterval = Return points).
  { rewrite ExpandCurveSegments_expand_points by assumption.
    now rewrite expand_all_linear. }
  split; [exact Hr|].
  now apply ExpandCurveSegments_overloads.
Qed.

Lemma ExpandCurveSegments_linear_identity_witness :
  ExpandCurveSegments AlmostEquals_epsilon isLinear_zero lerp_linear
    linear_graph 25 = Return linear_graph /\
  ExpandCurveSegments_GraphSection AlmostEquals_epsilon isLinear_zero
    lerp_linear (GraphSection.mk linear_graph) 25 =
    Return (GraphSection.mk linear_graph) /\
  ExpandCurveSegments_LaserSection AlmostEquals_epsilon isLinear_zero
    lerp_linear (LaserSection.mk linear_graph kLaserXScale2x) 25 =
    Return (LaserSection.mk linear_graph kLaserXScale2x).
Proof.
  apply (ExpandCurveSegments_linear_identity AlmostEquals_epsilon
           isLinear_zero lerp_linear linear_graph kLaserXScale2x 25).
  - exact linear_graph_sorted.
  - lia.
  - intros kv [<-|[<-|[<-|[]]]]; reflexivity.
Defined.





(** ** graph_curve.cpp: EvaluateCurve in binary64 arithmetic *)

Lemma SF_zero : Prim2SF 0 = S754_zero false.
Proof. reflexivity. Qed.

Lemma SF_one : Prim2SF 1 = S754_finite false 4503599627370496 (-52).
Proof. reflexivity. Qed.

Lemma SF_neg_one : Prim2SF (-1) = S754_finite true 4503599627370496 (-52).
Proof. reflexivity. Qed.

(** Comparison of binary64 values is antisymmetric. *)

Lemma SFcompare_antisym x y :
  SFcompare y x = option_map CompOpp (SFcompare x y).
Proof.
  destruct x as [sx|sx| |sx mx ex], y as [sy|sy| |sy my ey]; simpl;
    try reflexivity;
    try (destruct sx; reflexivity); try (destruct sy; reflexivity);
    try (destruct sx, sy; reflexivity).
  destruct sx, sy; simpl; try reflexivity;
    rewrite (Z.compare_antisym ex ey);
    destruct (ex ?= ey); simpl; try reflexivity;
    rewrite ?CompOpp_involutive, ?Pos.compare_cont_antisym; reflexivity.
Qed.

(** The denominator [-1 + 2a] of the source is the [2a - 1] of the spec. *)
Lemma float_neg1_plus (y : float) : (-1 + y = y - 1)%float.
Proof.
  apply Prim2SF_inj. rewrite add_spec, sub_spec, SF_one, SF_neg_one.
  destruct (Prim2SF y) as [sy|sy| |sy my ey]; try reflexivity.
  unfold SF64add, SF64sub, SFadd, SFsub.
  rewrite (Z.min_comm ey).
  f_equal.
  unfold cond_Zopp. destruct sy; lia.
Qed.

Lemma SFcompare_defined x y :
  x <> S754_nan -> y <> S754_nan -> SFcompare x y <> None.
Proof.
  destruct x, y; simpl; congruence.
Qed.

Lemma is_nan_false v : is_nan v = false -> Prim2SF v <> S754_nan.
Proof.
  unfold is_nan. rewrite eqb_spec. intros H E. rewrite E in H. discriminate.
Qed.

Lemma leb_ltb_false x y : (x <=? y)%float = true -> (y <? x)%float = false.
Proof.
  rewrite leb_spec, ltb_spec. unfold SFleb, SFltb.
  rewrite (SFcompare_antisym (Prim2SF x) (Prim2SF y)).
  destruct (SFcompare (Prim2SF x) (Prim2SF y)) as [[]|]; simpl; congruence.
Qed.

Lemma ltb_false_leb x y :
  is_nan x = false -> is_nan y = false ->
  (x <? y)%float = false -> (y <=? x)%float = true.
Proof.
  intros Hx Hy. apply is_nan_false in Hx, Hy.
  pose proof (SFcompare_defined _ _ Hx Hy) as Hc.
  rewrite leb_spec, ltb_spec. unfold SFleb, SFltb.
  rewrite (SFcompare_antisym (Prim2SF x) (Prim2SF y)).
  destruct (SFcompare (Prim2SF x) (Prim2SF y)) as [[]|]; simpl; congruence.
Qed.

Lemma clamp_in_unit_interval v :
  is_nan v = false -> in_unit_interval (clamp v 0 1).
Proof.
  intros Hv. unfold clamp, in_unit_interval.
  destruct (v <? 0)%float eqn:H0; [split; reflexivity|].
  destruct (1 <? v)%float eqn:H1; [split; reflexivity|].
  split; apply ltb_false_leb; auto.
Qed.

Lemma clamp_unit_interval_id v : in_unit_interval v -> clamp v 0 1 = v.
Proof.
  intros [H0 H1]. unfold clamp.
  now rewrite (leb_ltb_false _ _ H0), (leb_ltb_false _ _ H1).
Qed.

Lemma unit_interval_shape v :
  in_unit_interval v ->
  (exists s, Prim2SF v = S754_zero s) \/
  (exists m e, Prim2SF v = S754_finite false m e).
Proof.
  intros [H0 H1]. rewrite leb_spec in H0, H1.
  rewrite SF_zero in H0. rewrite SF_one in H1.
  destruct (Prim2SF v) as [s|s| |s m e]; try discriminate.
  - left; eauto.
  - destruct s; try discriminate.
  - destruct s; try discriminate. right; eauto.
Qed.

Lemma SFeqb_same x m e :
  SFeqb x (S754_finite false m e) = true -> x = S754_finite false m e.
Proof.
  unfold SFeqb.
  destruct x as [sx|sx| |sx mx ex]; simpl;
    try discriminate; try (destruct sx; discriminate).
  destruct sx; try discriminate.
  destruct (Z.compare_spec ex e) as [->| |]; try discriminate.
  destruct (Pos.compare_cont Eq mx m) eqn:Hcc; try discriminate.
  apply (Pos.compare_eq mx m) in Hcc. now subst.
Qed.

Lemma SFeqb_zero x s :
  SFeqb x (S754_zero s) = true -> exists sx, x = S754_zero sx.
Proof.
  unfold SFeqb.
  destruct x as [sx|sx| |sx mx ex]; simpl;
    try discriminate; try (destruct sx; discriminate).
  eauto.
Qed.

Lemma SFsub_diag_finite s m e :
  SF64sub (S754_finite s m e) (S754_finite s m e) = S754_zero false.
Proof.
  unfold SF64sub, SFsub. now rewrite Z.sub_diag.
Qed.

(** When [x == y] for [y] in the unit interval, [y - x] is a zero. *)
Lemma eqb_sub_zero x y :
  in_unit_interval y -> (x =? y)%float = true ->
  exists s, Prim2SF (y - x) = S754_zero s.
Proof.
  intros Hy. rewrite eqb_spec, sub_spec.
  destruct (unit_interval_shape _ Hy) as [[s ->]|(m & e & ->)]; intros Heq.
  - apply SFeqb_zero in Heq as [sx ->]. destruct s, sx; simpl; eauto.
  - apply SFeqb_same in Heq as ->. rewrite SFsub_diag_finite. eauto.
Qed.

(** A zero divided by a non-zero number is a zero. *)
Lemma zero_div_nonzero n d s :
  Prim2SF n = S754_zero s ->
  ((d <? 0) || (0 <? d))%float = true ->
  exists s', Prim2SF (n / d) = S754_zero s'.
Proof.
  intros Hn Hd. rewrite div_spec, Hn.
  rewrite !ltb_spec, SF_zero in Hd. unfold SFltb in Hd.
  destruct (Prim2SF d) as [sd|sd| |sd md ed]; simpl in *;
    try discriminate; eauto.
Qed.

Lemma SF_zero_cases t s :
  Prim2SF t = S754_zero s -> t = 0%float \/ t = (-0)%float.
Proof.
  intros H. apply (f_equal SF2Prim) in H. rewrite SF2Prim_Prim2SF in H.
  destruct s; [right|left]; exact H.
Qed.

(** The last step of EvaluateCurve on a zero [t]. *)
Lemma result_at_zero t b s :
  Prim2SF t = S754_zero s -> in_unit_interval b ->
  (2 * (1 - t) * t * b + t * t)%float = 0%float.
Proof.
  intros Ht Hb.
  apply Prim2SF_inj. rewrite add_spec, mul_spec.
  destruct (SF_zero_cases _ _ Ht) as [->| ->].
  - change (Prim2SF (2 * (1 - 0) * 0)) with (S754_zero false).
    change (Prim2SF (0 * 0)) with (S754_zero false).
    destruct (unit_interval_shape _ Hb) as [[sb ->]|(m & e & ->)];
      [destruct sb|]; reflexivity.
  - change (Prim2SF (2 * (1 - -0) * -0)) with (S754_zero true).
    change (Prim2SF (-0 * -0)) with (S754_zero false).
    destruct (unit_interval_shape _ Hb) as [[sb ->]|(m & e & ->)];
      [destruct sb|]; reflexivity.
Qed.


(** [std::clamp(v, 0.0, 1.0)] is the clamping to the interval on every
    number, and wherever its result is a number. *)
Lemma clamp_is_clamped_to_unit v :
  ((v <? 0)%float = false -> (1 <? v)%float = false -> is_nan v = false) ->
  clamp v 0 1 = clamped_to_unit v.
Proof.
  intros Hv. unfold clamp, clamped_to_unit.
  destruct (v <? 0)%float eqn:H0.
  - destruct (0 <=? v)%float eqn:H0'; [|reflexivity].
    apply leb_ltb_false in H0'. congruence.
  - destruct (1 <? v)%float eqn:H1.
    + destruct (v <=? 1)%float eqn:H1'.
      * apply leb_ltb_false in H1'. congruence.
      * now rewrite andb_false_r.
    + specialize (Hv eq_refl eq_refl).
      rewrite (ltb_false_leb v 0 Hv eq_refl H0),
        (ltb_false_leb 1 v eq_refl Hv H1).
      reflexivity.
Qed.

Lemma clamp_number v : is_nan v = false -> clamp v 0 1 = clamped_to_unit v.
Proof. intros Hv. now apply clamp_is_clamped_to_unit. Qed.

Lemma clamp_to_number v :
  is_nan (clamp v 0 1) = false -> clamp v 0 1 = clamped_to_unit v.
Proof.
  intros Hr. apply clamp_is_clamped_to_unit. intros H0 H1.
  unfold clamp in Hr. now rewrite H0, H1 in Hr.
Qed.

Lemma clamped_to_unit_range v : in_unit_interval (clamped_to_unit v).
Proof.
  unfold clamped_to_unit, in_unit_interval.
  destruct (0 <=? v)%float eqn:H0; destruct (v <=? 1)%float eqn:H1;
    cbn [andb]; [now split|..];
    destruct (v <? 0)%float; split; reflexivity.
Qed.




(** *** Rounding in [SpecFloat]: doubling is exact and [-1 + 2a] is not zero *)

(** The number of binary digits of a mantissa. *)
Lemma digits2_pos_bounds (p : positive) :
  2 ^ (Z.pos (digits2_pos p) - 1) <= Z.pos p < 2 ^ Z.pos (digits2_pos p).
Proof.
  induction p as [p IH|p IH|]; cbn [digits2_pos].
  - rewrite Pos2Z.inj_succ, Pos2Z.inj_xI.
    replace (Z.succ (Z.pos (digits2_pos p)) - 1) with (Z.pos (digits2_pos p)) by lia.
    rewrite Z.pow_succ_r by lia.
    replace (2 ^ Z.pos (digits2_pos p))
      with (2 * 2 ^ (Z.pos (digits2_pos p) - 1)) in *
      by (rewrite <- Z.pow_succ_r by lia; f_equal; lia).
    lia.
  - rewrite Pos2Z.inj_succ. change (Z.pos p~0) with (2 * Z.pos p).
    replace (Z.succ (Z.pos (digits2_pos p)) - 1) with (Z.pos (digits2_pos p)) by lia.
    rewrite Z.pow_succ_r by lia.
    replace (2 ^ Z.pos (digits2_pos p))
      with (2 * 2 ^ (Z.pos (digits2_pos p) - 1)) in *
      by (rewrite <- Z.pow_succ_r by lia; f_equal; lia).
    lia.
  - simpl. lia.
Qed.

Lemma shr_1_m (mrs : shr_record) :
  0 <= shr_m mrs -> shr_m (shr_1 mrs) = shr_m mrs / 2.
Proof.
  destruct mrs as [m r s].
  destruct m as [|[p|p|]|p]; cbn [shr_1 shr_m]; intros Hm; try lia.
  - reflexivity.
  - change (Z.pos p~1) with (2 * Z.pos p + 1).
    apply (Z.div_unique _ 2 _ 1); lia.
  - change (Z.pos p~0) with (2 * Z.pos p).
    apply (Z.div_unique _ 2 _ 0); lia.
  - reflexivity.
Qed.

Lemma iter_shr_m (n : positive) :
  forall mrs, 0 <= shr_m mrs ->
    shr_m (iter_pos shr_1 n mrs) = shr_m mrs / 2 ^ Z.pos n.
Proof.
  assert (Hnn : forall k mrs, 0 <= shr_m mrs ->
            shr_m (iter_pos shr_1 k mrs) = shr_m mrs / 2 ^ Z.pos k ->
            0 <= shr_m (iter_pos shr_1 k mrs)).
  { intros k mrs Hm ->. apply Z.div_pos; [exact Hm|]. apply Z.pow_pos_nonneg; lia. }
  induction n as [n IH|n IH|]; intros mrs Hm; cbn [iter_pos].
  - assert (H1 : 0 <= shr_m (shr_1 mrs))
      by (rewrite shr_1_m by exact Hm; apply Z.div_pos; lia).
    pose proof (IH _ H1) as E1.
    pose proof (Hnn _ _ H1 E1) as H2.
    rewrite (IH _ H2), E1, shr_1_m by exact Hm.
    rewrite !Z.div_div by (try apply Z.pow_pos_nonneg; lia).
    f_equal. change (Z.pos n~1) with (2 * Z.pos n + 1).
    replace (2 * Z.pos n + 1) with (1 + Z.pos n + Z.pos n) by lia.
    rewrite !Z.pow_add_r by lia. lia.
  - pose proof (IH _ Hm) as E1.
    pose proof (Hnn _ _ Hm E1) as H2.
    rewrite (IH _ H2), E1.
    rewrite !Z.div_div by (try apply Z.pow_pos_nonneg; lia).
    f_equal. change (Z.pos n~0) with (2 * Z.pos n).
    replace (2 * Z.pos n) with (Z.pos n + Z.pos n) by lia.
    rewrite !Z.pow_add_r by lia. lia.
  - rewrite shr_1_m by exact Hm. reflexivity.
Qed.

Lemma shr_record_of_loc_m m l : shr_m (shr_record_of_loc m l) = m.
Proof. destruct l as [|[]]; reflexivity. Qed.

Lemma shr_fexp_pos p e l :
  -1074 - e < Z.pos (digits2_pos p) ->
  exists q,
    shr_m (fst (shr_fexp prec emax (Z.pos p) e l)) = Z.pos q /\
    -1074 <= snd (shr_fexp prec emax (Z.pos p) e l).
Proof.
  intros Hd.
  pose proof (digits2_pos_bounds p) as [Hlo Hhi].
  unfold shr_fexp, shr, fexp. cbn [Zdigits2].
  change (SpecFloat.emin prec emax) with (-1074). change prec with 53.
  remember (Z.max (Z.pos (digits2_pos p) + e - 53) (-1074) - e) as n eqn:En.
  destruct n as [|k|k]; cbn [fst snd].
  - exists p. rewrite shr_record_of_loc_m. split; [reflexivity | lia].
  - rewrite iter_shr_m by (rewrite shr_record_of_loc_m; lia).
    rewrite shr_record_of_loc_m.
    assert (Hk : 2 ^ Z.pos k <= Z.pos p).
    { eapply Z.le_trans; [|exact Hlo]. apply Z.pow_le_mono_r; lia. }
    assert (Hpos : 0 < Z.pos p / 2 ^ Z.pos k).
    { apply Z.div_str_pos. split; [apply Z.pow_pos_nonneg; lia | exact Hk]. }
    destruct (Z.pos p / 2 ^ Z.pos k) as [|q|q]; try lia.
    exists q. split; [reflexivity | lia].
  - exists p. rewrite shr_record_of_loc_m. split; [reflexivity | lia].
Qed.

Lemma round_nearest_even_pos q l :
  exists q', round_nearest_even (Z.pos q) l = Z.pos q'.
Proof.
  destruct l as [|[]]; cbn [round_nearest_even]; eauto.
  - destruct (Z.even (Z.pos q)); eauto.
    exists (q + 1)%positive. reflexivity.
  - exists (q + 1)%positive. reflexivity.
Qed.

(** Rounding a non-zero mantissa that does not underflow gives a non-zero
    number of the same sign. *)
Lemma binary_round_aux_pos s p e l :
  -1074 - e < Z.pos (digits2_pos p) ->
  (exists m' e', binary_round_aux prec emax s (Z.pos p) e l = S754_finite s m' e')
  \/ binary_round_aux prec emax s (Z.pos p) e l = S754_infinity s.
Proof.
  intros Hd. unfold binary_round_aux.
  destruct (shr_fexp_pos p e l Hd) as (q & Hq & He).
  destruct (shr_fexp prec emax (Z.pos p) e l) as [mrs' e'].
  cbn [fst snd] in Hq, He. rewrite Hq.
  destruct (round_nearest_even_pos q (loc_of_shr_record mrs')) as [q' ->].
  assert (Hd' : -1074 - e' < Z.pos (digits2_pos q')) by lia.
  destruct (shr_fexp_pos q' e' loc_Exact Hd') as (q'' & Hq'' & He'').
  destruct (shr_fexp prec emax (Z.pos q') e' loc_Exact) as [mrs'' e''].
  cbn [fst snd] in Hq'', He''. rewrite Hq''.
  destruct (e'' <=? emax - prec); eauto.
Qed.

Lemma binary_normalize_nonzero z e :
  z <> 0 -> -1074 <= e ->
  (exists s m' e', binary_normalize prec emax z e false = S754_finite s m' e')
  \/ (exists s, binary_normalize prec emax z e false = S754_infinity s).
Proof.
  intros Hz He.
  assert (Hround : forall s p,
    (exists m' e', binary_round prec emax s p e = S754_finite s m' e')
    \/ binary_round prec emax s p e = S754_infinity s).
  { intros s p. unfold binary_round, shl_align, fexp.
    change (SpecFloat.emin prec emax) with (-1074). change prec with 53.
    destruct (Z.max (Z.pos (digits2_pos p) + e - 53) (-1074) - e) eqn:En;
      apply binary_round_aux_pos; lia. }
  destruct z as [|p|p]; [congruence| |]; cbn [binary_normalize].
  - destruct (Hround false p) as [(m' & e' & ->)| ->]; eauto.
  - destruct (Hround true p) as [(m' & e' & ->)| ->]; eauto.
Qed.

Lemma SF_two : Prim2SF 2 = S754_finite false 4503599627370496 (-51).
Proof. reflexivity. Qed.

Lemma SF_half : Prim2SF 0.5 = S754_finite false 4503599627370496 (-53).
Proof. reflexivity. Qed.

Lemma shr_fexp_shift M E (k : positive) :
  SpecFloat.fexp prec emax (Zdigits2 M + E) - E = Z.pos k ->
  shr_fexp prec emax M E loc_Exact =
  (iter_pos shr_1 k (Build_shr_record M false false), E + Z.pos k).
Proof. intros H. unfold shr_fexp. rewrite H. reflexivity. Qed.

Lemma shr_fexp_keep M E :
  SpecFloat.fexp prec emax (Zdigits2 M + E) - E = 0 ->
  shr_fexp prec emax M E loc_Exact = (Build_shr_record M false false, E).
Proof. intros H. unfold shr_fexp. rewrite H. reflexivity. Qed.

Lemma digits2_pos_shift52 m :
  Z.pos (digits2_pos (4503599627370496 * m)) = Z.pos (digits2_pos m) + 52.
Proof.
  cbn [Pos.mul digits2_pos]. rewrite !Pos2Z.inj_succ. lia.
Qed.

Lemma valid_finite_inv s m e :
  valid_binary (S754_finite s m e) = true ->
  Z.max (Z.pos (digits2_pos m) + e - 53) (-1074) = e /\ e <= 971.
Proof.
  cbn [SpecFloat.valid_binary]. unfold bounded, canonical_mantissa, SpecFloat.fexp.
  change (SpecFloat.emin prec emax) with (-1074). change prec with 53.
  change (emax - 53) with 971.
  intros H. apply andb_prop in H as [H1 H2].
  apply Z.eqb_eq in H1. apply Z.leb_le in H2. auto.
Qed.

(** Doubling a number of the unit interval is exact: the mantissa is kept
    and the exponent grows by one, or (for a subnormal number) the mantissa
    doubles. *)
Lemma SFmul_two m e :
  valid_binary (S754_finite false m e) = true -> e <= -52 ->
  (Z.pos (digits2_pos m) = 53 /\
   SF64mul (Prim2SF 2) (S754_finite false m e) = S754_finite false m (e + 1))
  \/ (Z.pos (digits2_pos m) <= 52 /\ e = -1074 /\
      SF64mul (Prim2SF 2) (S754_finite false m e) =
      S754_finite false m~0 (-1074)).
Proof.
  intros Hv He. apply valid_finite_inv in Hv as [Hc _].
  rewrite SF_two. unfold SF64mul, SFmul. cbn [xorb].
  unfold binary_round_aux.
  destruct (Z.eq_dec (Z.pos (digits2_pos m)) 53) as [Hd|Hd].
  - left. split; [exact Hd|].
    rewrite (shr_fexp_shift _ _ 52).
    2:{ cbn [Zdigits2]. rewrite digits2_pos_shift52. unfold SpecFloat.fexp.
        change (SpecFloat.emin prec emax) with (-1074). change prec with 53.
        lia. }
    change (iter_pos shr_1 52
              {| shr_m := Z.pos (4503599627370496 * m);
                 shr_r := false; shr_s := false |})
      with {| shr_m := Z.pos m; shr_r := false; shr_s := false |}.
    cbn [shr_m loc_of_shr_record round_nearest_even].
    rewrite shr_fexp_keep.
    2:{ cbn [Zdigits2]. unfold SpecFloat.fexp.
        change (SpecFloat.emin prec emax) with (-1074). change prec with 53.
        lia. }
    cbn [shr_m].
    replace (-51 + e + 52) with (e + 1) by lia.
    destruct (Z.leb_spec (e + 1) (emax - prec)) as [_|Hgt]; [reflexivity|].
    change (emax - prec) with 971 in Hgt. lia.
  - right. assert (Hd' : Z.pos (digits2_pos m) <= 52) by lia.
    assert (e = -1074) as -> by lia.
    split; [exact Hd'|]. split; [reflexivity|].
    rewrite (shr_fexp_shift _ _ 51).
    2:{ cbn [Zdigits2]. rewrite digits2_pos_shift52. unfold SpecFloat.fexp.
        change (SpecFloat.emin prec emax) with (-1074). change prec with 53.
        lia. }
    change (iter_pos shr_1 51
              {| shr_m := Z.pos (4503599627370496 * m);
                 shr_r := false; shr_s := false |})
      with {| shr_m := Z.pos m~0; shr_r := false; shr_s := false |}.
    cbn [shr_m loc_of_shr_record round_nearest_even].
    rewrite shr_fexp_keep.
    2:{ cbn [Zdigits2 digits2_pos]. rewrite Pos2Z.inj_succ.
        unfold SpecFloat.fexp.
        change (SpecFloat.emin prec emax) with (-1074). change prec with 53.
        lia. }
    cbn [shr_m]. reflexivity.
Qed.

Lemma ordered_nonzero d :
  (exists s m e, Prim2SF d = S754_finite s m e)
  \/ (exists s, Prim2SF d = S754_infinity s) ->
  ((d <? 0) || (0 <? d))%float = true.
Proof.
  rewrite !ltb_spec, SF_zero. unfold SFltb.
  intros [(s & m & e & ->)|(s & ->)]; destruct s; reflexivity.
Qed.


Lemma compare_cont_Eq_compare p q :
  Pos.compare_cont Eq p q = (p ?= q)%positive.
Proof. reflexivity. Qed.

Lemma unit_interval_exponent a m e :
  in_unit_interval a -> Prim2SF a = S754_finite false m e ->
  e < -52 \/ (e = -52 /\ Z.pos m <= 4503599627370496).
Proof.
  intros [_ H1] HA. rewrite leb_spec, HA, SF_one in H1.
  unfold SFleb, SFcompare in H1.
  destruct (Z.compare_spec e (-52)) as [Heq|Hlt|Hgt];
    [right | left; exact Hlt | discriminate].
  split; [exact Heq|].
  rewrite compare_cont_Eq_compare in H1.
  destruct (Pos.compare_spec m 4503599627370496) as [Hm|Hl|Hg];
    [ | | discriminate].
  - rewrite Hm. apply Z.le_refl.
  - apply Z.lt_le_incl. exact Hl.
Qed.

Lemma iter_xO_double p k :
  2 * Z.pos p <= Z.pos (Pos.iter xO p k).
Proof.
  induction k as [|k IH] using Pos.peano_ind.
  - cbn [Pos.iter]. apply Z.le_refl.
  - rewrite Pos.iter_succ.
    rewrite (Pos2Z.inj_xO (Pos.iter xO p k)).
    generalize dependent (Z.pos (Pos.iter xO p k)). intros; lia.
Qed.

(** For [a] in the unit interval other than 0.5, the denominator
    [-1 + 2a] is a non-zero number. *)
Lemma denominator_nonzero a :
  in_unit_interval a -> a <> 0.5%float ->
  ((-1 + 2 * a <? 0) || (0 <? -1 + 2 * a))%float = true.
Proof.
  intros Ha Hne.
  destruct (unit_interval_shape _ Ha) as [[s HA]|(m & e & HA)].
  - assert (E : (-1 + 2 * a)%float = (-1)%float).
    { apply Prim2SF_inj. rewrite add_spec, mul_spec, HA, SF_two, SF_neg_one.
      reflexivity. }
    rewrite E. reflexivity.
  - apply ordered_nonzero.
    pose proof (Prim2SF_valid a) as Hv. rewrite HA in Hv.
    pose proof (digits2_pos_bounds m) as [Hlo Hhi].
    pose proof (valid_finite_inv _ _ _ Hv) as [Hc _].
    rewrite add_spec, mul_spec, HA, SF_neg_one.
    destruct (unit_interval_exponent _ _ _ Ha HA) as [He|[He Hm]].
    + destruct (SFmul_two m e Hv ltac:(lia)) as [[Hd ->]|(Hd & -> & ->)].
      * rewrite Hd in Hlo, Hhi.
        change (2 ^ (53 - 1)) with 4503599627370496 in Hlo.
        change (2 ^ 53) with 9007199254740992 in Hhi.
        unfold SF64add, SFadd. cbv zeta.
        replace (Z.min (-52) (e + 1)) with (e + 1) by lia.
        apply binary_normalize_nonzero; [|lia].
        unfold shl_align. rewrite Z.sub_diag.
        cbn [fst cond_Zopp].
        destruct (e + 1 - -52) as [|k|k] eqn:Ek; try lia; cbn [fst].
        -- assert (e = -53) by lia. subst e.
           intros Hz. apply Hne. apply Prim2SF_inj. rewrite HA, SF_half.
           f_equal. lia.
        -- pose proof (iter_xO_double 4503599627370496 k). lia.
      * unfold SF64add, SFadd. cbv zeta.
        change (Z.min (-52) (-1074)) with (-1074).
        apply binary_normalize_nonzero; [|lia].
        unfold shl_align. rewrite Z.sub_diag.
        change (-1074 - -52) with (Z.neg 1022). cbn [fst cond_Zopp].
        pose proof (iter_xO_double 4503599627370496 1022).
        change (Z.pos m~0) with (2 * Z.pos m).
        assert (Z.pos m < 2 ^ 52).
        { eapply Z.lt_le_trans; [exact Hhi|]. apply Z.pow_le_mono_r; lia. }
        change (2 ^ 52) with 4503599627370496 in *. lia.
    + subst e.
      destruct (SFmul_two m (-52) Hv ltac:(lia)) as [[Hd ->]|(Hd & He' & _)];
        [|lia].
      rewrite Hd in Hlo. change (2 ^ (53 - 1)) with 4503599627370496 in Hlo.
      unfold SF64add, SFadd. cbv zeta.
      change (Z.min (-52) (-52 + 1)) with (-52).
      apply binary_normalize_nonzero; [|lia].
      unfold shl_align.
      change (-52 - -52) with 0. change (-52 - (-52 + 1)) with (Z.neg 1).
      cbn [fst cond_Zopp Pos.iter].
      change (Z.pos m~0) with (2 * Z.pos m). lia.
Qed.

Lemma SF64mul_finite_zero s m e s' :
  SF64mul (S754_finite s m e) (S754_zero s') = S754_zero (xorb s s').
Proof. reflexivity. Qed.

Lemma SF64add_finite_zero s m e s' :
  SF64add (S754_finite s m e) (S754_zero s') = S754_finite s m e.
Proof. reflexivity. Qed.

Lemma SF64sub_finite_zero s m e s' :
  SF64sub (S754_finite s m e) (S754_zero s') = S754_finite s m e.
Proof. reflexivity. Qed.

(** At [x = 0] the computed discriminant [a*a + 0 - 2*a*0] has the square
    root of [a*a], whenever that root is [a]. *)
Lemma discriminant_at_zero a :
  in_unit_interval a ->
  (sqrt (a * a) =? a)%float = true ->
  (sqrt (a * a + 0 - 2 * a * 0) =? a)%float = true.
Proof.
  intros Ha.
  rewrite !eqb_spec, !sqrt_spec, sub_spec, add_spec, !mul_spec, SF_zero, SF_two.
  destruct (unit_interval_shape _ Ha) as [[s HA]|(m & e & HA)]; rewrite HA.
  - intros _. destruct s; reflexivity.
  - pose proof (Prim2SF_valid a) as Hv. rewrite HA in Hv.
    assert (He : e <= -52)
      by (destruct (unit_interval_exponent _ _ _ Ha HA) as [|[]]; lia).
    assert (HW : exists mw ew,
              SF64mul (S754_finite false 4503599627370496 (-51))
                (S754_finite false m e) = S754_finite false mw ew).
    { rewrite <- SF_two.
      destruct (SFmul_two m e Hv He) as [[_ ->]|(_ & _ & ->)]; eauto. }
    destruct HW as (mw & ew & ->).
    rewrite SF64mul_finite_zero. cbn [xorb].
    generalize (SF64mul (S754_finite false m e) (S754_finite false m e)).
    intros [sp|sp| |sp mp ep].
    + cbn. discriminate.
    + destruct sp; cbn; discriminate.
    + cbn. discriminate.
    + rewrite SF64add_finite_zero, SF64sub_finite_zero. trivial.
Qed.

(** C9 (as amended): for [a] and [b] in [0, 1] with [a] not numerically
    equal to 0.5, EvaluateCurve(a, b, 0) returns exactly 0 whenever the
    square root of the rounded product [a * a] is [a] itself in double
    arithmetic.  ([AlmostEquals] is a parameter; it is asked to hold of 0.5
    and 0.5.) *)
Theorem EvaluateCurve_at_zero
    (AlmostEquals : double -> double -> bool) (a b : double) :
  in_unit_interval a ->
  in_unit_interval b ->
  AlmostEquals 0.5%float 0.5%float = true ->
  AlmostEquals a 0.5%float = false ->
  (sqrt (a * a) =? a)%float = true ->
  EvaluateCurve AlmostEquals a b 0 = 0%float.
Proof.
  intros Ha Hb Hrefl Hne Hsqrt.
  assert (Hhalf : a <> 0.5%float) by (intros ->; congruence).
  pose proof (discriminant_at_zero a Ha Hsqrt) as Hdisc.
  pose proof (denominator_nonzero a Ha Hhalf) as Hden.
  unfold EvaluateCurve.
  rewrite (clamp_unit_interval_id a Ha), (clamp_unit_interval_id b Hb).
  change (clamp 0 0 1) with 0%float. cbv zeta.
  rewrite Hne.
  destruct (a * a + 0 - 2 * a * 0 <? 0)%float; [reflexivity|].
  destruct (eqb_sub_zero _ _ Ha Hdisc) as [sn Hn].
  destruct (zero_div_nonzero _ _ _ Hn Hden) as [st Ht].
  now rewrite (result_at_zero _ _ _ Ht Hb).
Qed.

Lemma EvaluateCurve_at_zero_witness :
  EvaluateCurve AlmostEquals_epsilon
    0x1.999999999999ap-3 0x1.999999999999ap-1 0 = 0%float.
Proof.
  apply (EvaluateCurve_at_zero AlmostEquals_epsilon
           0x1.999999999999ap-3 0x1.999999999999ap-1);
    try split; reflexivity.
Defined.

(** C9 as stated fails in double arithmetic: for [a = 1.2e-160] the product
    [a * a] is rounded in the subnormal range, its square root exceeds [a],
    [t] is a tiny positive number and EvaluateCurve(a, 1, 0) is
    [1.68e-164], not 0. *)
Lemma EvaluateCurve_at_zero_underflow :
  in_unit_interval tiny_a /\ in_unit_interval 1 /\
  AlmostEquals_epsilon tiny_a 0.5 = false /\
  (sqrt (tiny_a * tiny_a) =? tiny_a)%float = false /\
  (forall AlmostEquals : double -> double -> bool,
     AlmostEquals tiny_a 0.5%float = false ->
     EvaluateCurve AlmostEquals tiny_a 1 0 = 0x1.eeb8426294p-545%float) /\
  EvaluateCurve AlmostEquals_epsilon tiny_a 1 0 <> 0%float.
Proof.
  repeat split.
  - intros AlmostEquals Hne. unfold EvaluateCurve.
    change (clamp tiny_a 0 1) with tiny_a. cbv zeta. rewrite Hne.
    vm_compute. reflexivity.
  - intros E.
    assert (H : (0 <? EvaluateCurve AlmostEquals_epsilon tiny_a 1 0)%float
                = true) by reflexivity.
    rewrite E in H. discriminate.
Qed.

(** ** The scenarios of section 8, evaluated *)

(** Expanding the curved segment over [0, 100) at every 25 pulses inserts
    points at 25, 50 and 75 and keeps the two original points. *)
Example expand_scenario_keys :
  match ExpandCurveSegments AlmostEquals_epsilon isLinear_zero lerp_linear
          curved_graph 25 with
  | Return result => map fst result = [0; 25; 50; 75; 100]
  | _ => False
  end.
Proof. vm_compute. reflexivity. Qed.

Example expand_scenario_value_at_25 :
  match ExpandCurveSegments AlmostEquals_epsilon isLinear_zero lerp_linear
          curved_graph 25 with
  | Return result =>
      map_find result 25 =
      Some (point_of
              (lerp_linear 1 2
                 (EvaluateCurve AlmostEquals_epsilon
                    0x1.999999999999ap-3 0x1.999999999999ap-1 0.25)))
  | _ => False
  end.
Proof. vm_compute. reflexivity. Qed.

Example expand_scenario_interval_zero :
  ExpandCurveSegments AlmostEquals_epsilon isLinear_zero lerp_linear
    curved_graph 0 =
  Throw (invalid_argument "subdivisionInterval must be positive").
Proof. reflexivity. Qed.

(** The section stored at 10 covers relative pulses [0, 100): pulse 60 is
    relative pulse 50, half way from 1 to 2; pulse 110 is the last point's
    key and has no value, but holds a point. *)
Example section_value_at_60 :
  GraphSectionValueAt false GraphValueAt_model sections_10_300 60 =
  Return (Some 1.5%float).
Proof. vm_compute. reflexivity. Qed.

Example section_value_at_110 :
  GraphSectionValueAt false GraphValueAt_model sections_10_300 110 =
  Return None.
Proof. vm_compute. reflexivity. Qed.

Example section_point_at_110 :
  GraphPointAt false sections_10_300 110 = Return (Some (point_of 2)).
Proof. vm_compute. reflexivity. Qed.

Example section_value_before_first_section :
  GraphSectionValueAt false GraphValueAt_model sections_10_300 5 =
  Return None.
Proof. vm_compute. reflexivity. Qed.

(** The easing curve at [a = 0.5] is the identity (denominator
    short-circuit). *)
Example evaluate_half_is_linear (b x : double) :
  AlmostEquals_epsilon 0.5 0.5 = true /\
  EvaluateCurve AlmostEquals_epsilon 0.5 b x = clamp x 0 1.
Proof.
  split; [reflexivity|].
  unfold EvaluateCurve.
  change (clamp 0.5 0 1) with 0.5%float. cbv zeta.
  now change (AlmostEquals_epsilon 0.5 0.5) with true.
Qed.

(* ================================================================== *)
(** * Part III: further properties of the code                         *)
(* ================================================================== *)

(** ** graph_utils.hpp: what the lookups never do *)

Lemma sorted_keys_in_span {T : Type} (m : ByPulse T) k x :
  keys_sorted m -> In (k, x) m ->
  hd 0 (map fst m) <= k <= last (map fst m) 0.
Proof.
  revert k x. induction m as [|[k0 x0] m IH]; intros k x Hs Hin;
    [destruct Hin|].
  pose proof (keys_sorted_tail _ _ Hs) as Hs'.
  pose proof (keys_sorted_head_lt _ _ Hs) as Hhd.
  destruct m as [|[k1 x1] m].
  - destruct Hin as [[= -> ->]|[]]. cbn. lia.
  - pose proof (IH k1 x1 Hs' (or_introl eq_refl)) as Hk1.
    specialize (Hhd (k1, x1) (or_introl eq_refl)).
    destruct Hin as [[= -> ->]|Hin].
    + cbn in *. lia.
    + specialize (IH _ _ Hs' Hin). cbn in *. lia.
Qed.

(** X1: on a non-empty container GraphSectionAt returns, in both builds and
    for every pulse, an iterator that can be dereferenced; it is never
    [end()], so the [itr == end()] tests of its callers never fire. *)
Theorem GraphSectionAt_never_end {GS : Type} (NDEBUG : bool)
    (graphSections : ByPulse GS) (pulse : Pulse) :
  graphSections <> [] ->
  exists itr entry,
    GraphSectionAt NDEBUG graphSections pulse = Return itr /\
    map_deref graphSections itr = Return entry /\
    itr <> map_end graphSections.
Proof.
  intros Hne. destruct graphSections as [|kv rest]; [congruence|].
  destruct (GraphSectionAt_in_range NDEBUG kv rest pulse)
    as (itr & entry & Hat & Hnth).
  exists itr, entry. split; [exact Hat|]. split.
  - unfold map_deref. now rewrite Hnth.
  - unfold map_end. intros ->.
    assert (nth_error (kv :: rest) (length (kv :: rest)) = None)
      by (apply nth_error_None; lia).
    congruence.
Qed.

Lemma GraphSectionAt_never_end_witness :
  exists itr entry,
    GraphSectionAt false sections_10_300 1000 = Return itr /\
    map_deref sections_10_300 itr = Return entry /\
    itr <> map_end sections_10_300.
Proof.
  apply (GraphSectionAt_never_end false sections_10_300 1000).
  discriminate.
Defined.

(** X2: the three lookups return on every input, the empty container
    included: GraphSectionAt's assertion is never reached with an empty
    container, no [end()] iterator is dereferenced, and [at] never throws
    [std::out_of_range]. *)
Theorem section_lookups_always_return {GS : Type} {HGS : SectionLike GS}
    (NDEBUG : bool) (GraphValueAt : Graph -> Pulse -> double)
    (graphSections : ByPulse GS) (pulse : Pulse) (defaultValue : double) :
  (exists r, GraphSectionValueAt NDEBUG GraphValueAt graphSections pulse
             = Return r) /\
  (exists x, GraphSectionValueAtWithDefault NDEBUG GraphValueAt graphSections
               pulse defaultValue = Return x) /\
  (exists r, GraphPointAt NDEBUG graphSections pulse = Return r).
Proof.
  assert (Hv : exists r, GraphSectionValueAt NDEBUG GraphValueAt graphSections
                           pulse = Return r).
  { destruct graphSections as [|kv rest]; [now exists None|].
    destruct (GraphSectionAt_in_range NDEBUG kv rest pulse)
      as (itr & [y gs] & Hat & Hnth).
    eexists. exact (GraphSectionValueAt_governed NDEBUG GraphValueAt
                      _ _ _ _ _ Hat Hnth). }
  split; [exact Hv|]. split.
  - destruct Hv as [r Hr]. unfold GraphSectionValueAtWithDefault.
    rewrite Hr. destruct r; cbn [bind]; eauto.
  - destruct graphSections as [|kv rest]; [now exists None|].
    destruct (GraphSectionAt_in_range NDEBUG kv rest pulse)
      as (itr & [y gs] & Hat & Hnth).
    eexists. exact (GraphPointAt_governed NDEBUG _ _ _ _ _ Hat Hnth).
Qed.

(** X3: where GraphPointAt finds a stored point, that point is in the
    governing section, the one GraphSectionAt returns, at the key [ry], the
    64-bit difference of the pulse and the section's key; and
    GraphSectionValueAt has a value there, except at the last point of the
    section (sections are open on the right): there the point exists and the
    value is "no value". *)
Theorem value_defined_at_stored_points {GS : Type} {HGS : SectionLike GS}
    (NDEBUG : bool) (GraphValueAt : Graph -> Pulse -> double)
    (graphSections : ByPulse GS) (pulse : Pulse) (point : GraphPoint.t) :
  (forall y gs, In (y, gs) graphSections -> keys_sorted (section_v gs)) ->
  GraphPointAt NDEBUG graphSections pulse = Return (Some point) ->
  exists itr y gs,
    GraphSectionAt NDEBUG graphSections pulse = Return itr /\
    map_deref graphSections itr = Return (y, gs) /\
    In (int64_sub pulse y, point) (section_v gs) /\
    GraphSectionValueAt NDEBUG GraphValueAt graphSections pulse =
    Return (if int64_sub pulse y =? last (map fst (section_v gs)) 0
            then None
            else Some (GraphValueAt (section_v gs) (int64_sub pulse y))).
Proof.
  intros Hsorted Hpoint.
  destruct graphSections as [|kv rest]; [discriminate|].
  destruct (GraphSectionAt_in_range NDEBUG kv rest pulse)
    as (itr & [y gs] & Hat & Hnth).
  pose proof (nth_error_In _ _ Hnth) as Hin.
  rewrite (GraphPointAt_governed NDEBUG _ _ _ _ _ Hat Hnth) in Hpoint.
  injection Hpoint as Hfind. apply map_find_In in Hfind.
  exists itr, y, gs. split; [exact Hat|].
  split; [unfold map_deref; now rewrite Hnth|]. split; [exact Hfind|].
  rewrite (GraphSectionValueAt_governed NDEBUG GraphValueAt _ _ _ _ _ Hat Hnth).
  f_equal.
  pose proof (sorted_keys_in_span _ _ _ (Hsorted _ _ Hin) Hfind) as [Hlo Hhi].
  set (ry := int64_sub pulse y) in *.
  unfold section_undefined_at.
  destruct (Z.eqb_spec ry (last (map fst (section_v gs)) 0))
    as [Heq|Hneq].
  - rewrite <- Heq, Z.leb_refl. now rewrite orb_true_r.
  - assert (Hlen : (2 <= length (section_v gs))%nat).
    { destruct (section_v gs) as [|[k1 p1] [|[k2 p2] tl]];
        [destruct Hfind | | simpl; lia].
      destruct Hfind as [[= E _]|[]]. cbn in Hneq. lia. }
    destruct (Nat.ltb_spec (length (section_v gs)) 2) as [|_]; [lia|].
    destruct (Z.ltb_spec ry (hd 0 (map fst (section_v gs))));
      [lia|].
    destruct (Z.leb_spec (last (map fst (section_v gs)) 0) ry);
      [lia|]. reflexivity.
Qed.

Lemma value_defined_at_stored_points_witness :
  exists itr y gs,
    GraphSectionAt false sections_10_300 10 = Return itr /\
    map_deref sections_10_300 itr = Return (y, gs) /\
    In (int64_sub 10 y, point_of 1) (section_v gs) /\
    GraphSectionValueAt false GraphValueAt_model sections_10_300 10 =
    Return (if int64_sub 10 y =? last (map fst (section_v gs)) 0 then None
            else Some (GraphValueAt_model (section_v gs) (int64_sub 10 y))).
Proof.
  apply (value_defined_at_stored_points false GraphValueAt_model
           sections_10_300 10 (point_of 1)).
  - intros y gs [[= <- <-]|[[= <- <-]|[]]];
      unfold keys_sorted; simpl; repeat constructor; lia.
  - reflexivity.
Defined.

(** X4: a query pulse before the first section finds nothing when that
    section's relative keys are not negative and the difference of the pulse
    and the section's key fits in 64 bits: GraphSectionAt hands over the
    first section, and the negative relative pulse is rejected by
    GraphSectionValueAt and matches no key in GraphPointAt.  (A difference
    below [-2^63] wraps around to a positive relative pulse, which can match
    a key.) *)
Theorem lookups_before_first_section {GS : Type} {HGS : SectionLike GS}
    (NDEBUG : bool) (GraphValueAt : Graph -> Pulse -> double)
    (y0 : Pulse) (gs0 : GS) (rest : ByPulse GS) (pulse : Pulse) :
  pulse < y0 ->
  - 9223372036854775808 <= pulse - y0 ->
  (forall ry p, In (ry, p) (section_v gs0) -> 0 <= ry) ->
  GraphSectionValueAt NDEBUG GraphValueAt ((y0, gs0) :: rest) pulse
    = Return None /\
  GraphPointAt NDEBUG ((y0, gs0) :: rest) pulse = Return None.
Proof.
  intros Hlt Hfits Hnonneg.
  pose proof (GraphSectionAt_before_first NDEBUG y0 gs0 rest pulse Hlt) as Hat.
  rewrite (GraphSectionValueAt_governed NDEBUG GraphValueAt _ _ _ _ _ Hat
             eq_refl),
          (GraphPointAt_governed NDEBUG _ _ _ _ _ Hat eq_refl).
  rewrite (int64_sub_exact pulse y0) by lia.
  split; f_equal.
  - unfold section_undefined_at.
    destruct (section_v gs0) as [|[k1 p1] tl]; [reflexivity|].
    specialize (Hnonneg k1 p1 (or_introl eq_refl)).
    cbn [map hd fst].
    destruct (Z.ltb_spec (pulse - y0) k1); [|lia].
    now rewrite orb_true_r.
  - destruct (map_find (section_v gs0) (pulse - y0)) as [p|] eqn:Hf;
      [|reflexivity].
    apply map_find_In in Hf. specialize (Hnonneg _ _ Hf). lia.
Qed.

Lemma lookups_before_first_section_witness :
  GraphSectionValueAt false GraphValueAt_model sections_10_300 5
    = Return None /\
  GraphPointAt false sections_10_300 5 = Return None.
Proof.
  apply (lookups_before_first_section false GraphValueAt_model 10
           section_0_100 [(300, GraphSection.mk [])] 5).
  - lia.
  - lia.
  - intros ry p [[= <- _]|[[= <- _]|[]]]; lia.
Defined.

(** ** graph_curve.cpp: the range of EvaluateCurve *)

Lemma clamp_nan_or_unit v :
  is_nan (clamp v 0 1) = true \/ in_unit_interval (clamp v 0 1).
Proof.
  destruct (is_nan v) eqn:Hnan.
  - unfold clamp.
    destruct (v <? 0)%float; [right; split; reflexivity|].
    destruct (1 <? v)%float; [right; split; reflexivity|].
    now left.
  - right. now apply clamp_in_unit_interval.
Qed.

(** X5: whatever its arguments (NaN, infinities, numbers outside [0, 1]) and
    whatever [AlmostEquals] decides, EvaluateCurve never returns a number
    outside [0, 1]: its result is in the unit interval, or NaN. *)
Theorem EvaluateCurve_range
    (AlmostEquals : double -> double -> bool) (a b x : double) :
  is_nan (EvaluateCurve AlmostEquals a b x) = true \/
  in_unit_interval (EvaluateCurve AlmostEquals a b x).
Proof.
  unfold EvaluateCurve. cbv zeta.
  destruct (AlmostEquals (clamp a 0 1) 0.5%float);
    [apply clamp_nan_or_unit|].
  match goal with
  | |- context [if ?c then _ else _] => destruct c
  end; apply clamp_nan_or_unit.
Qed.

(** ** graph_curve.cpp: what the expansion changes and what it keeps *)

Lemma last_app_cons {A} (l : list A) x l' d :
  last (l ++ x :: l') d = last (x :: l') d.
Proof.
  induction l as [|a l IH]; [reflexivity|].
  cbn [app]. rewrite <- IH. destruct l; reflexivity.
Qed.

Section ExpansionShape.
Variable AlmostEquals : double -> double -> bool.
Variable isLinear : GraphCurveValue.t -> bool.
Variable lerp : double -> double -> double -> double.
Variable s : Pulse.
Hypothesis s_positive : 0 < s.

Local Abbreviation expand := (expand_points AlmostEquals isLinear lerp s).
Local Abbreviation samples_of := (samples AlmostEquals lerp s).
Local Abbreviation segment y1 p1 y2 p2 :=
  (if isLinear (GraphPoint.curve p1) then []
   else samples_of y1 p1 p2 (y2 - y1) (Z.to_nat (y2 - y1)) s).

(** Every pair of consecutive points is linear or at most [s] apart. *)
Local Abbreviation fine graph :=
  (forall pre y1 p1 y2 p2 post,
     graph = pre ++ (y1, p1) :: (y2, p2) :: post ->
     isLinear (GraphPoint.curve p1) = true \/ y2 - y1 <= s).

Lemma expand_length_ge (graph : Graph) :
  (length graph <= length (expand graph))%nat.
Proof.
  induction graph as [|[y1 p1] rest IH]; [apply Nat.le_refl|].
  destruct rest as [|[y2 p2] rest]; [apply Nat.le_refl|].
  rewrite (expand_cons2 AlmostEquals isLinear lerp s).
  cbn [length] in *. rewrite length_app. lia.
Qed.

Lemma segment_short y1 p1 y2 p2 :
  isLinear (GraphPoint.curve p1) = true \/ y2 - y1 <= s ->
  segment y1 p1 y2 p2 = [].
Proof.
  intros [->|Hle]; [reflexivity|].
  destruct (isLinear (GraphPoint.curve p1)); [reflexivity|].
  destruct (Z.to_nat (y2 - y1)); [reflexivity|]. cbn [samples].
  destruct (Z.ltb_spec s (y2 - y1)); [lia | reflexivity].
Qed.

Lemma segment_long y1 p1 y2 p2 :
  isLinear (GraphPoint.curve p1) = false -> s < y2 - y1 ->
  (1 <= length (segment y1 p1 y2 p2))%nat.
Proof.
  intros -> Hlt.
  destruct (Z.to_nat (y2 - y1)) eqn:En; [lia|]. cbn [samples].
  destruct (Z.ltb_spec s (y2 - y1)); [cbn [length]; lia | lia].
Qed.

Lemma expand_fine_fixed (graph : Graph) : fine graph -> expand graph = graph.
Proof.
  induction graph as [|[y1 p1] rest IH]; [reflexivity|].
  destruct rest as [|[y2 p2] rest]; [reflexivity|].
  intros Hfine.
  rewrite (expand_cons2 AlmostEquals isLinear lerp s).
  rewrite (segment_short _ _ _ _ (Hfine [] y1 p1 y2 p2 rest eq_refl)).
  cbn [app]. f_equal. apply IH.
  intros pre k1 q1 k2 q2 post E.
  apply (Hfine ((y1, p1) :: pre) k1 q1 k2 q2 post).
  cbn [app]. now rewrite E.
Qed.

Lemma expand_fixed_fine (graph : Graph) : expand graph = graph -> fine graph.
Proof.
  intros Hfix pre y1 p1 y2 p2 post E.
  destruct (isLinear (GraphPoint.curve p1)) eqn:Hlin; [now left|right].
  destruct (Z.le_gt_cases (y2 - y1) s) as [|Hgt]; [assumption|exfalso].
  pose proof (expand_split AlmostEquals isLinear lerp s pre y1 p1 y2 p2 post)
    as Hsplit.
  rewrite <- E, Hfix in Hsplit.
  apply (f_equal (@length _)) in Hsplit.
  rewrite E, !length_app in Hsplit. cbn [length] in Hsplit.
  pose proof (expand_length_ge (pre ++ [(y1, p1)])) as H1.
  pose proof (expand_length_ge ((y2, p2) :: post)) as H2.
  pose proof (segment_long y1 p1 y2 p2 Hlin ltac:(lia)) as H3.
  rewrite Hlin in Hsplit, H3.
  rewrite length_app in H1. cbn [length] in H1, H2.
  rewrite Nat.add_1_r in H1. lia.
Qed.

Lemma expand_In_inv (graph : Graph) kv :
  In kv (expand graph) ->
  In kv graph \/
  (GraphPoint.curve (snd kv) = default_curve /\
   GraphValue.v (GraphPoint.v (snd kv)) =
   GraphValue.vf (GraphPoint.v (snd kv))).
Proof.
  induction graph as [|[y1 p1] rest IH]; [intros []|].
  destruct rest as [|[y2 p2] rest]; [now left|].
  rewrite (expand_cons2 AlmostEquals isLinear lerp s).
  intros [<-|Hin]; [left; now left|].
  apply in_app_or in Hin as [Hin|Hin].
  - right. destruct (isLinear (GraphPoint.curve p1)); [destruct Hin|].
    destruct kv as [k q]. apply samples_In in Hin as (j & _ & _ & _ & ->).
    split; reflexivity.
  - destruct (IH Hin) as [H|H]; [left; now right | now right].
Qed.

Lemma expand_last (graph : Graph) d : last (expand graph) d = last graph d.
Proof.
  induction graph as [|[y1 p1] rest IH]; [reflexivity|].
  destruct rest as [|[y2 p2] rest]; [reflexivity|].
  rewrite (expand_cons2 AlmostEquals isLinear lerp s).
  destruct (expand_head AlmostEquals isLinear lerp s y2 p2 rest) as [tl2 Etl].
  change (last ((y1, p1) :: (y2, p2) :: rest) d)
    with (last ((y2, p2) :: rest) d).
  rewrite <- IH, Etl.
  set (seg := segment y1 p1 y2 p2).
  change ((y1, p1) :: seg ++ (y2, p2) :: tl2)
    with (((y1, p1) :: seg) ++ (y2, p2) :: tl2).
  apply last_app_cons.
Qed.

End ExpansionShape.

Lemma ExpandCurveSegments_returns_positive
    (AlmostEquals : double -> double -> bool)
    (isLinear : GraphCurveValue.t -> bool)
    (lerp : double -> double -> double -> double)
    (graph r : Graph) (s : Pulse) :
  ExpandCurveSegments AlmostEquals isLinear lerp graph s = Return r -> 0 < s.
Proof.
  unfold ExpandCurveSegments.
  destruct (Z.leb_spec s 0); [discriminate | lia].
Qed.

Lemma ExpandCurveSegments_returns_expansion
    (AlmostEquals : double -> double -> bool)
    (isLinear : GraphCurveValue.t -> bool)
    (lerp : double -> double -> double -> double)
    (graph r : Graph) (s : Pulse) :
  keys_sorted graph ->
  ExpandCurveSegments AlmostEquals isLinear lerp graph s = Return r ->
  0 < s /\ r = expand_points AlmostEquals isLinear lerp s graph.
Proof.
  intros Hs Hr.
  pose proof (ExpandCurveSegments_returns_positive _ _ _ _ _ _ Hr) as Hpos.
  rewrite (ExpandCurveSegments_expand_points _ _ _ _ Hpos _ Hs) in Hr.
  injection Hr as <-. now split.
Qed.







(** ** graph_utils.hpp after graph_curve.cpp: lookups in an expanded lane *)

Section LaneExpansion.
Variable NDEBUG : bool.
Variable AlmostEquals : double -> double -> bool.
Variable isLinear : GraphCurveValue.t -> bool.
Variable lerp : double -> double -> double -> double.
Variable s : RelPulse.

Local Abbreviation expanded_lane :=
  (expanded_lane AlmostEquals isLinear lerp s).

Lemma expanded_lane_upper_bound lane lane' pulse :
  expanded_lane lane lane' ->
  map_upper_bound lane' pulse = map_upper_bound lane pulse.
Proof.
  induction 1 as [|[y ls] [y' ls'] lane lane' [Hk _] _ IH]; [reflexivity|].
  cbn [fst] in Hk. subst y'. cbn [map_upper_bound]. now rewrite IH.
Qed.

Lemma expanded_lane_nth lane lane' itr y ls :
  expanded_lane lane lane' ->
  nth_error lane itr = Some (y, ls) ->
  exists ls',
    nth_error lane' itr = Some (y, ls') /\
    ExpandCurveSegments_LaserSection AlmostEquals isLinear lerp ls s
    = Return ls'.
Proof.
  intros HF. revert itr.
  induction HF as [|e [y' ls'] lane lane' [Hk He] _ IH]; intros itr.
  - destruct itr; discriminate.
  - destruct itr as [|itr]; [|apply IH].
    cbn [nth_error]. intros [= ->]. cbn [fst snd] in Hk, He. subst y'.
    now exists ls'.
Qed.

Lemma expanded_section_points (ls ls' : LaserSection.t) :
  keys_sorted (LaserSection.v ls) ->
  ExpandCurveSegments_LaserSection AlmostEquals isLinear lerp ls s
  = Return ls' ->
  0 < s /\
  LaserSection.v ls' =
  expand_points AlmostEquals isLinear lerp s (LaserSection.v ls).
Proof.
  intros Hs. rewrite ExpandCurveSegments_LaserSection_points.
  destruct (ExpandCurveSegments _ _ _ _ _) as [r| | | |] eqn:Hr;
    try discriminate.
  intros [= <-]. cbn [LaserSection.v].
  exact (ExpandCurveSegments_returns_expansion _ _ _ _ _ _ Hs Hr).
Qed.

Lemma expanded_lane_lookup lane lane' pulse :
  (forall y ls, In (y, ls) lane -> keys_sorted (LaserSection.v ls)) ->
  expanded_lane lane lane' ->
  lane = [] /\ lane' = [] \/
  exists y ls,
    0 < s /\ keys_sorted (LaserSection.v ls) /\
    GraphPointAt NDEBUG lane pulse
    = Return (map_find (LaserSection.v ls) (int64_sub pulse y)) /\
    GraphPointAt NDEBUG lane' pulse
    = Return (map_find
                (expand_points AlmostEquals isLinear lerp s
                   (LaserSection.v ls)) (int64_sub pulse y)).
Proof.
  intros Hsorted HF.
  destruct lane as [|kv rest]; [left; inversion HF; now split | right].
  destruct (GraphSectionAt_in_range NDEBUG kv rest pulse)
    as (itr & [y ls] & Hat & Hnth).
  destruct (expanded_lane_nth _ _ _ _ _ HF Hnth) as (ls' & Hnth' & Hls').
  pose proof (Hsorted y ls (nth_error_In _ _ Hnth)) as Hs.
  destruct (expanded_section_points _ _ Hs Hls') as [Hpos Hv].
  assert (Hat' : GraphSectionAt NDEBUG lane' pulse = Return itr).
  { inversion HF as [|? kv' ? rest' Hhd Htl]; subst.
    rewrite GraphSectionAt_cons in Hat |- *.
    now rewrite (expanded_lane_upper_bound _ _ pulse HF). }
  exists y, ls. split; [exact Hpos|]. split; [exact Hs|]. split.
  - exact (GraphPointAt_governed NDEBUG _ _ _ _ _ Hat Hnth).
  - rewrite (GraphPointAt_governed NDEBUG _ _ _ _ _ Hat' Hnth').
    change (section_v ls') with (LaserSection.v ls'). now rewrite Hv.
Qed.

End LaneExpansion.



(** ** KsonIOIn.cpp: the names of the audio effect types *)

Lemma ParseAudioEffectType_In typeStr type :
  ParseAudioEffectType typeStr = type -> type <> Unspecified ->
  In (typeStr, type) typeMap.
Proof.
  unfold ParseAudioEffectType.
  assert (Hfind : forall m : list (string * AudioEffectType),
            forall t, unordered_map_find m typeStr = Some t ->
                      In (typeStr, t) m).
  { induction m as [|[k x] m IH]; intros t; cbn [unordered_map_find];
      [discriminate|].
    destruct (String.eqb_spec typeStr k) as [->|_].
    - intros [= ->]. now left.
    - intros Hf. right. now apply IH. }
  destruct (unordered_map_find typeMap typeStr) as [t|] eqn:Hf.
  - intros <- _. now apply Hfind.
  - intros <- Hne. now elim Hne.
Qed.

(** X11: ParseAudioEffectType pairs the fourteen lower-case names with the
    fourteen effect types other than [Unspecified], one to one: two strings
    with the same result other than [Unspecified] are the same string, every
    type other than [Unspecified] has a name, and a string that is none of
    the names, such as the empty string, a name in upper case or
    [unspecified] itself, gives [Unspecified]. *)
Theorem ParseAudioEffectType_one_to_one :
  (forall str1 str2,
     ParseAudioEffectType str1 = ParseAudioEffectType str2 ->
     ParseAudioEffectType str1 <> Unspecified -> str1 = str2) /\
  (forall type, type <> Unspecified ->
     exists typeStr, ParseAudioEffectType typeStr = type) /\
  (forall typeStr,
     ParseAudioEffectType typeStr = Unspecified <->
     ~ In typeStr (map fst typeMap)) /\
  ParseAudioEffectType "unspecified" = Unspecified /\
  ParseAudioEffectType "Retrigger" = Unspecified.
Proof.
  split; [|split; [|split; [|split; reflexivity]]].
  - intros str1 str2 Heq Hne.
    pose proof (ParseAudioEffectType_In str1 _ eq_refl Hne) as H1.
    rewrite Heq in Hne.
    pose proof (ParseAudioEffectType_In str2 _ eq_refl Hne) as H2.
    rewrite <- Heq in H2.
    set (type := ParseAudioEffectType str1) in *. clearbody type.
    clear Heq Hne.
    cbv [typeMap In] in H1, H2.
    repeat (destruct H1 as [H1|H1]; [injection H1 as <- <-|]);
      try (exfalso; exact H1);
      repeat (destruct H2 as [H2|H2];
              [try discriminate H2; injection H2 as <-; reflexivity|]);
      exfalso; exact H2.
  - intros [] Hne; [now elim Hne|..].
    + now exists "retrigger"%string.
    + now exists "gate"%string.
    + now exists "flanger"%string.
    + now exists "pitch_shift"%string.
    + now exists "bitcrusher"%string.
    + now exists "phaser"%string.
    + now exists "wobble"%string.
    + now exists "tapestop"%string.
    + now exists "echo"%string.
    + now exists "sidechain"%string.
    + now exists "switch_audio"%string.
    + now exists "high_pass_filter"%string.
    + now exists "low_pass_filter"%string.
    + now exists "peaking_filter"%string.
  - intros typeStr. split.
    + intros Hu Hin. revert Hu.
      cbv [typeMap map fst In] in Hin.
      repeat (destruct Hin as [<-|Hin]; [discriminate|]). destruct Hin.
    + intros Hnot. unfold ParseAudioEffectType.
      destruct (unordered_map_find typeMap typeStr) as [t|] eqn:Hf;
        [|reflexivity].
      exfalso. apply Hnot. revert Hf. clear Hnot.
      generalize typeMap. intros m.
      induction m as [|[k x] m IH]; cbn [unordered_map_find map fst In];
        [discriminate|].
      destruct (String.eqb_spec typeStr k) as [->|_]; [now left|].
      intros Hf. right. now apply IH.
Qed.

(** ** graph_curve.cpp: arguments outside the unit interval *)

Lemma clamp_idempotent v : clamp (clamp v 0 1) 0 1 = clamp v 0 1.
Proof.
  unfold clamp.
  destruct (v <? 0)%float eqn:H0; [reflexivity|].
  destruct (1 <? v)%float eqn:H1; [reflexivity|].
  now rewrite H0, H1.
Qed.

(** X12: EvaluateCurve sees its three arguments only through
    [std::clamp(., 0.0, 1.0)]: a call with arguments outside [0, 1] returns
    what the call with the nearest bounds returns, so that, for instance,
    [EvaluateCurve(5, -3, 7)] is [EvaluateCurve(1, 0, 1)]. *)
Theorem EvaluateCurve_clamps_arguments
    (AlmostEquals : double -> double -> bool) (a b x : double) :
  EvaluateCurve AlmostEquals a b x =
  EvaluateCurve AlmostEquals (clamp a 0 1) (clamp b 0 1) (clamp x 0 1).
Proof.
  unfold EvaluateCurve. cbv zeta. now rewrite !clamp_idempotent.
Qed.

(** ** graph_utils.hpp: which sections a lookup depends on *)

Section LookupLocality.
Context {GS : Type} {HGS : SectionLike GS}.
Variable NDEBUG : bool.
Variable GraphValueAt : Graph -> Pulse -> double.

Local Abbreviation shifted d :=
  (map (fun e : Pulse * GS => (fst e + d, snd e))).

Lemma map_upper_bound_shift (graphSections : ByPulse GS) pulse d :
  map_upper_bound (shifted d graphSections) (pulse + d) =
  map_upper_bound graphSections pulse.
Proof.
  induction graphSections as [|[y gs] rest IH]; [reflexivity|].
  cbn [map map_upper_bound fst snd]. rewrite IH.
  destruct (Z.ltb_spec pulse y), (Z.ltb_spec (pulse + d) (y + d));
    reflexivity || lia.
Qed.

Lemma map_upper_bound_app (graphSections later : ByPulse GS) pulse :
  (forall e, In e later -> pulse < fst e) ->
  map_upper_bound (graphSections ++ later) pulse =
  map_upper_bound graphSections pulse.
Proof.
  intros Hlater.
  induction graphSections as [|[y gs] rest IH].
  - destruct later as [|[y gs] later]; [reflexivity|].
    cbn [app map_upper_bound].
    pose proof (Hlater (y, gs) (or_introl eq_refl)) as Hlt. cbn [fst] in Hlt.
    destruct (Z.ltb_spec pulse y); [reflexivity | lia].
  - cbn [app map_upper_bound]. now rewrite IH.
Qed.

Lemma map_upper_bound_monotone (graphSections : ByPulse GS) p q :
  p <= q ->
  (map_upper_bound graphSections p <= map_upper_bound graphSections q)%nat.
Proof.
  intros Hle.
  induction graphSections as [|[y gs] rest IH]; [apply Nat.le_refl|].
  cbn [map_upper_bound].
  destruct (Z.ltb_spec p y), (Z.ltb_spec q y); lia.
Qed.

Lemma map_upper_bound_after (graphSections : ByPulse GS) itr y gs q :
  keys_sorted graphSections ->
  nth_error graphSections itr = Some (y, gs) -> y <= q ->
  (itr < map_upper_bound graphSections q)%nat.
Proof.
  revert itr.
  induction graphSections as [|[k x] rest IH]; intros itr Hs Hnth Hle;
    [destruct itr; discriminate|].
  cbn [map_upper_bound].
  destruct itr as [|itr]; cbn [nth_error] in Hnth.
  - injection Hnth as -> ->.
    destruct (Z.ltb_spec q y); lia.
  - pose proof (keys_sorted_head_lt _ _ Hs _ (nth_error_In _ _ Hnth)) as Hlt.
    cbn [fst] in Hlt.
    pose proof (IH itr (keys_sorted_tail _ _ Hs) Hnth Hle).
    destruct (Z.ltb_spec q k); lia.
Qed.

Lemma lookups_of_governing (graphSections lane : ByPulse GS) pulse pulse'
    itr y y' gs :
  GraphSectionAt NDEBUG graphSections pulse = Return itr ->
  nth_error graphSections itr = Some (y, gs) ->
  GraphSectionAt NDEBUG lane pulse' = Return itr ->
  nth_error lane itr = Some (y', gs) ->
  int64_sub pulse' y' = int64_sub pulse y ->
  GraphSectionValueAt NDEBUG GraphValueAt lane pulse' =
  GraphSectionValueAt NDEBUG GraphValueAt graphSections pulse /\
  GraphPointAt NDEBUG lane pulse' = GraphPointAt NDEBUG graphSections pulse.
Proof.
  intros Hat Hnth Hat' Hnth' Hry.
  rewrite (GraphSectionValueAt_governed NDEBUG GraphValueAt _ _ _ _ _
             Hat Hnth),
    (GraphSectionValueAt_governed NDEBUG GraphValueAt _ _ _ _ _ Hat' Hnth'),
    (GraphPointAt_governed NDEBUG _ _ _ _ _ Hat Hnth),
    (GraphPointAt_governed NDEBUG _ _ _ _ _ Hat' Hnth'), Hry.
  split; reflexivity.
Qed.

End LookupLocality.

(** X13: sections are addressed relative to their keys.  When every
    section key of a container is moved by the same distance [d], the
    lookups at a pulse moved by [d] return what they returned before:
    the same position from GraphSectionAt, the same value and the same
    point. *)
Theorem lookups_shift_invariant {GS : Type} {HGS : SectionLike GS}
    (NDEBUG : bool) (GraphValueAt : Graph -> Pulse -> double)
    (graphSections : ByPulse GS) (pulse d : Pulse) :
  GraphSectionAt NDEBUG
    (map (fun e => (fst e + d, snd e)) graphSections) (pulse + d)
  = GraphSectionAt NDEBUG graphSections pulse /\
  GraphSectionValueAt NDEBUG GraphValueAt
    (map (fun e => (fst e + d, snd e)) graphSections) (pulse + d)
  = GraphSectionValueAt NDEBUG GraphValueAt graphSections pulse /\
  GraphPointAt NDEBUG
    (map (fun e => (fst e + d, snd e)) graphSections) (pulse + d)
  = GraphPointAt NDEBUG graphSections pulse.
Proof.
  destruct graphSections as [|kv rest]; [repeat split|].
  assert (Hat : GraphSectionAt NDEBUG
                  (map (fun e => (fst e + d, snd e)) (kv :: rest)) (pulse + d)
                = GraphSectionAt NDEBUG (kv :: rest) pulse).
  { cbn [map]. rewrite !GraphSectionAt_cons.
    change ((fst kv + d, snd kv) :: map (fun e => (fst e + d, snd e)) rest)
      with (map (fun e : Pulse * GS => (fst e + d, snd e)) (kv :: rest)).
    now rewrite map_upper_bound_shift. }
  split; [exact Hat|].
  destruct (GraphSectionAt_in_range NDEBUG kv rest pulse)
    as (itr & [y gs] & Hitr & Hnth).
  apply (lookups_of_governing NDEBUG GraphValueAt _ _ _ _ itr y (y + d) gs);
    [exact Hitr | exact Hnth | now rewrite Hat | |].
  2: { unfold int64_sub.
       now replace (pulse + d - (y + d)) with (pulse - y) by lia. }
  rewrite nth_error_map, Hnth. reflexivity.
Qed.

(** X14: a lookup never reads the sections after the pulse.  Appending
    sections whose keys are all greater than the pulse to a non-empty
    container changes neither the position GraphSectionAt returns, nor the
    value, nor the point. *)
Theorem lookups_ignore_later_sections {GS : Type} {HGS : SectionLike GS}
    (NDEBUG : bool) (GraphValueAt : Graph -> Pulse -> double)
    (graphSections later : ByPulse GS) (pulse : Pulse) :
  graphSections <> [] ->
  (forall e, In e later -> pulse < fst e) ->
  GraphSectionAt NDEBUG (graphSections ++ later) pulse
  = GraphSectionAt NDEBUG graphSections pulse /\
  GraphSectionValueAt NDEBUG GraphValueAt (graphSections ++ later) pulse
  = GraphSectionValueAt NDEBUG GraphValueAt graphSections pulse /\
  GraphPointAt NDEBUG (graphSections ++ later) pulse
  = GraphPointAt NDEBUG graphSections pulse.
Proof.
  intros Hne Hlater.
  destruct graphSections as [|kv rest]; [now elim Hne|].
  assert (Hat : GraphSectionAt NDEBUG ((kv :: rest) ++ later) pulse
                = GraphSectionAt NDEBUG (kv :: rest) pulse).
  { cbn [app]. rewrite !GraphSectionAt_cons.
    change (kv :: rest ++ later) with ((kv :: rest) ++ later).
    now rewrite map_upper_bound_app. }
  split; [exact Hat|].
  destruct (GraphSectionAt_in_range NDEBUG kv rest pulse)
    as (itr & [y gs] & Hitr & Hnth).
  apply (lookups_of_governing NDEBUG GraphValueAt _ _ _ _ itr y y gs);
    [exact Hitr | exact Hnth | now rewrite Hat | | reflexivity].
  rewrite nth_error_app1; [exact Hnth|].
  apply nth_error_Some. congruence.
Qed.

Lemma lookups_ignore_later_sections_witness :
  [(10, section_0_100)] <> [] /\
  (forall e, In e [(300, GraphSection.mk [])] -> 60 < fst e) /\
  GraphSectionAt false ([(10, section_0_100)] ++ [(300, GraphSection.mk [])])
    60
  = GraphSectionAt false [(10, section_0_100)] 60 /\
  GraphSectionValueAt false GraphValueAt_model
    ([(10, section_0_100)] ++ [(300, GraphSection.mk [])]) 60
  = GraphSectionValueAt false GraphValueAt_model [(10, section_0_100)] 60 /\
  GraphPointAt false ([(10, section_0_100)] ++ [(300, GraphSection.mk [])]) 60
  = GraphPointAt false [(10, section_0_100)] 60.
Proof.
  assert (Hne : [(10, section_0_100)] <> []) by discriminate.
  assert (Hlater : forall e, In e [(300, GraphSection.mk [])] -> 60 < fst e).
  { intros e [<-|[]]. cbn [fst]. lia. }
  split; [exact Hne|]. split; [exact Hlater|].
  exact (lookups_ignore_later_sections false GraphValueAt_model _ _ 60
           Hne Hlater).
Defined.

(** X15: a section governs a whole interval of pulses.  In a container in
    key order, when GraphSectionAt returns the section of key [y] for a
    pulse, it returns the same position for every pulse between [y] and
    that pulse; and it never moves backwards as the pulse grows. *)
Theorem GraphSectionAt_stable_within_section {GS : Type}
    (NDEBUG : bool) (graphSections : ByPulse GS)
    (pulse q : Pulse) (itr : iterator) (y : Pulse) (gs : GS) :
  keys_sorted graphSections ->
  GraphSectionAt NDEBUG graphSections pulse = Return itr ->
  nth_error graphSections itr = Some (y, gs) ->
  (y <= q <= pulse ->
   GraphSectionAt NDEBUG graphSections q = Return itr) /\
  (pulse <= q ->
   exists itr', GraphSectionAt NDEBUG graphSections q = Return itr' /\
                (itr <= itr')%nat).
Proof.
  intros Hs Hat Hnth.
  destruct graphSections as [|kv rest]; [destruct itr; discriminate|].
  rewrite GraphSectionAt_cons in Hat.
  remember (map_upper_bound (kv :: rest) pulse) as ub eqn:Hub.
  injection Hat as Hitr.
  split.
  - intros [Hyq Hqp]. rewrite GraphSectionAt_cons.
    pose proof (map_upper_bound_monotone (kv :: rest) q pulse Hqp) as Hmono.
    pose proof (map_upper_bound_after _ _ _ _ q Hs Hnth Hyq) as Hafter.
    rewrite <- Hub in Hmono.
    replace (pred (map_upper_bound (kv :: rest) q)) with itr by lia.
    reflexivity.
  - intros Hpq. rewrite GraphSectionAt_cons. eexists. split; [reflexivity|].
    pose proof (map_upper_bound_monotone (kv :: rest) pulse q Hpq) as Hmono.
    rewrite <- Hub in Hmono. lia.
Qed.

Lemma GraphSectionAt_stable_within_section_witness :
  keys_sorted sections_10_300 /\
  GraphSectionAt false sections_10_300 200 = Return 0%nat /\
  nth_error sections_10_300 0 = Some (10, section_0_100) /\
  (10 <= 10 <= 200 ->
   GraphSectionAt false sections_10_300 10 = Return 0%nat) /\
  (200 <= 300 ->
   exists itr', GraphSectionAt false sections_10_300 300 = Return itr' /\
                (0 <= itr')%nat).
Proof.
  split; [exact sections_10_300_sorted|].
  split; [reflexivity|]. split; [reflexivity|].
  split.
  - exact (proj1 (GraphSectionAt_stable_within_section false sections_10_300
                    200 10 0%nat 10 section_0_100 sections_10_300_sorted
                    eq_refl eq_refl)).
  - exact (proj2 (GraphSectionAt_stable_within_section false sections_10_300
                    200 300 0%nat 10 section_0_100 sections_10_300_sorted
                    eq_refl eq_refl)).
Defined.

(** ** KsonIOIn.cpp: graphs and laser lanes read from JSON *)

Section MapAssignFacts.
Context {T : Type}.
Implicit Types (m : ByPulse T).

Lemma In_map_assign k (x : T) m e :
  In e (map_assign k x m) -> e = (k, x) \/ In e m.
Proof.
  induction m as [|[k' x'] m IH]; cbn [map_assign].
  - intros [<-|[]]. now left.
  - destruct (k <? k'); [intros [<-|H]; auto|].
    destruct (k =? k').
    + intros [<-|H]; [now left | right; now right].
    + intros [<-|H]; [right; now left|].
      destruct (IH H) as [->|H']; [now left | right; now right].
Qed.

Lemma map_assign_sorted k (x : T) m :
  keys_sorted m -> keys_sorted (map_assign k x m).
Proof.
  induction m as [|[k' x'] m IH]; intros Hs; cbn [map_assign].
  - apply keys_sorted_cons; [constructor | intros ? []].
  - pose proof (keys_sorted_head_lt _ _ Hs) as Hhd. cbn [fst] in Hhd.
    pose proof (keys_sorted_tail _ _ Hs) as Hs'.
    destruct (Z.ltb_spec k k') as [Hlt|Hge].
    + apply keys_sorted_cons; [exact Hs|].
      intros kv [<-|Hin]; cbn [fst]; [exact Hlt|].
      specialize (Hhd _ Hin). lia.
    + destruct (Z.eqb_spec k k') as [->|Hne].
      * apply keys_sorted_cons; [exact Hs'|]. exact Hhd.
      * apply keys_sorted_cons; [now apply IH|].
        intros kv Hin. apply In_map_assign in Hin as [->|Hin];
          cbn [fst]; [lia | now apply Hhd].
Qed.

Lemma map_assign_length k (x : T) m :
  (length (map_assign k x m) <= S (length m))%nat.
Proof.
  induction m as [|[k' x'] m IH]; cbn [map_assign length]; [lia|].
  destruct (k <? k'); [cbn [length]; lia|].
  destruct (k =? k'); cbn [length]; lia.
Qed.

Lemma map_find_map_assign k (x : T) m p :
  map_find (map_assign k x m) p = if p =? k then Some x else map_find m p.
Proof.
  induction m as [|[k' x'] m IH]; cbn [map_assign map_find]; [reflexivity|].
  destruct (Z.ltb_spec k k') as [Hlt|Hge]; [reflexivity|].
  destruct (Z.eqb_spec k k') as [->|Hne]; cbn [map_find].
  - destruct (Z.eqb_spec p k'); reflexivity.
  - rewrite IH.
    destruct (Z.eqb_spec p k'), (Z.eqb_spec p k); reflexivity || lia.
Qed.

Lemma map_find_app m1 m2 p :
  map_find (m1 ++ m2) p =
  match map_find m1 p with Some x => Some x | None => map_find m2 p end.
Proof.
  induction m1 as [|[k x] m1 IH]; [reflexivity|].
  cbn [app map_find]. destruct (p =? k); [reflexivity | exact IH].
Qed.

(** [result[k] = x] for each entry in turn. *)
Lemma assign_all_find (entries : list (Pulse * T)) m p :
  map_find
    (fold_left (fun r e => map_assign (fst e) (snd e) r) entries m) p =
  match map_find (rev entries) p with
  | Some x => Some x
  | None => map_find m p
  end.
Proof.
  revert m. induction entries as [|[k x] entries IH]; intros m;
    [reflexivity|].
  cbn [fold_left fst snd rev]. rewrite IH, map_find_app, map_find_map_assign.
  cbn [map_find]. destruct (map_find (rev entries) p); [reflexivity|].
  destruct (p =? k); reflexivity.
Qed.

Lemma assign_all_sorted (entries : list (Pulse * T)) m :
  keys_sorted m ->
  keys_sorted (fold_left (fun r e => map_assign (fst e) (snd e) r) entries m).
Proof.
  revert m. induction entries as [|[k x] entries IH]; intros m Hs;
    [exact Hs|].
  cbn [fold_left]. apply IH. now apply map_assign_sorted.
Qed.

Lemma assign_all_ascending (entries : list (Pulse * T)) m :
  keys_sorted (m ++ entries) ->
  fold_left (fun r e => map_assign (fst e) (snd e) r) entries m
  = m ++ entries.
Proof.
  revert m. induction entries as [|[k x] entries IH]; intros m Hs.
  - now rewrite app_nil_r.
  - cbn [fold_left fst snd].
    rewrite map_assign_last.
    + rewrite IH; rewrite <- app_assoc; [reflexivity | exact Hs].
    + destruct (keys_sorted_app_inv _ _ Hs) as (_ & _ & Hlt).
      intros kv Hin. apply (Hlt kv (k, x) Hin). now left.
Qed.

End MapAssignFacts.

Section ParserFacts.
Context {fault : Type}.

Lemma and_then_returns {A B} (c : parser fault A) (k : A -> parser fault B)
    warnings b warnings' :
  and_then c k warnings = (inl b, warnings') ->
  exists a warnings1,
    c warnings = (inl a, warnings1) /\ k a warnings1 = (inl b, warnings').
Proof.
  unfold and_then. destruct (c warnings) as [[a|e] warnings1];
    [eauto | discriminate].
Qed.

Lemma call_returns {A} (r : A + fault) warnings a warnings' :
  call r warnings = (inl a, warnings') -> r = inl a /\ warnings' = warnings.
Proof. unfold call. now intros [= -> ->]. Qed.

Lemma only_pushes_pure {A} allowed n (a : A) :
  only_pushes (fault := fault) allowed n (pure a).
Proof.
  intros warnings. exists []. cbn. rewrite app_nil_r.
  repeat split; [lia | intros ? []].
Qed.

Lemma only_pushes_call {A} allowed n (r : A + fault) :
  only_pushes allowed n (call r).
Proof.
  intros warnings. exists []. cbn. rewrite app_nil_r.
  repeat split; [lia | intros ? []].
Qed.

Lemma only_pushes_push_warning allowed n msg :
  In msg allowed -> (1 <= n)%nat ->
  only_pushes (fault := fault) allowed n (push_warning msg).
Proof.
  intros Hin Hn warnings. exists [msg]. cbn.
  repeat split; [exact Hn | intros ? [<-|[]]; exact Hin].
Qed.

Lemma only_pushes_and_then {A B} allowed n m p
    (c : parser fault A) (k : A -> parser fault B) :
  only_pushes allowed n c -> (forall a, only_pushes allowed m (k a)) ->
  (n + m <= p)%nat ->
  only_pushes allowed p (and_then c k).
Proof.
  intros Hc Hk Hp warnings.
  destruct (Hc warnings) as (added1 & E1 & L1 & I1).
  unfold and_then. destruct (c warnings) as [[a|e] warnings1]; cbn in E1.
  - destruct (Hk a warnings1) as (added2 & E2 & L2 & I2).
    exists (added1 ++ added2). rewrite E2, E1, app_assoc, length_app.
    repeat split; [lia | now apply incl_app].
  - exists added1. cbn. repeat split; [exact E1 | lia | exact I1].
Qed.

Lemma only_pushes_weaken {A} allowed allowed' n n' (c : parser fault A) :
  only_pushes allowed n c -> incl allowed allowed' -> (n <= n')%nat ->
  only_pushes allowed' n' c.
Proof.
  intros Hc Hincl Hn warnings.
  destruct (Hc warnings) as (added & E & L & I).
  exists added. repeat split; [exact E | lia |].
  intros msg Hin. apply Hincl, I, Hin.
Qed.

Lemma warns_only_of_pushes {A} allowed n (c : parser fault A) :
  only_pushes allowed n c -> warns_only allowed c.
Proof.
  intros Hc warnings. destruct (Hc warnings) as (added & E & _ & I).
  now exists added.
Qed.

Lemma warns_only_and_then {A B} allowed
    (c : parser fault A) (k : A -> parser fault B) :
  warns_only allowed c -> (forall a, warns_only allowed (k a)) ->
  warns_only allowed (and_then c k).
Proof.
  intros Hc Hk warnings.
  destruct (Hc warnings) as (added1 & E1 & I1).
  unfold and_then. destruct (c warnings) as [[a|e] warnings1]; cbn in E1.
  - destruct (Hk a warnings1) as (added2 & E2 & I2).
    exists (added1 ++ added2). rewrite E2, E1, app_assoc.
    split; [reflexivity | now apply incl_app].
  - exists added1. cbn. split; [exact E1 | exact I1].
Qed.

Lemma warns_only_weaken {A} allowed allowed' (c : parser fault A) :
  warns_only allowed c -> incl allowed allowed' -> warns_only allowed' c.
Proof.
  intros Hc Hincl warnings. destruct (Hc warnings) as (added & E & I).
  exists added. split; [exact E|]. intros msg Hin. apply Hincl, I, Hin.
Qed.

End ParserFacts.

Section KsonIOInFacts.
Context {json fault : Type} {J : Json json fault}.

(** A library call, or a return, pushes nothing. *)
Ltac silent :=
  first [ apply (warns_only_of_pushes _ 0%nat), only_pushes_pure
        | apply (warns_only_of_pushes _ 0%nat), only_pushes_call ].

(** A run of library calls pushes nothing. *)
Ltac library_calls :=
  repeat first
    [ apply only_pushes_pure
    | apply only_pushes_call
    | eapply only_pushes_and_then with (n := 0%nat);
      [apply only_pushes_call | intros ? | apply Nat.le_refl] ].

Lemma ParseGraphValue_pushes (j : json) :
  only_pushes ["Invalid graph value format"%string] 1 (ParseGraphValue j).
Proof.
  unfold ParseGraphValue.
  destruct (is_number j); [library_calls|].
  destruct (is_array j && (2 <=? json_size j)%nat); [library_calls|].
  eapply only_pushes_and_then with (n := 1%nat) (m := 0%nat);
    [|intros ?; apply only_pushes_pure | lia].
  apply only_pushes_push_warning; [now left | lia].
Qed.

Lemma ParseCurveElement_pushes allowed n (x : json) :
  only_pushes allowed n (ParseCurveElement x).
Proof.
  unfold ParseCurveElement.
  destruct (is_array x && (2 <=? json_size x)%nat); library_calls.
Qed.

Lemma ParseGraphPointFromArrayItem_pushes (item : json) valueIdx curveIdx :
  only_pushes ["Invalid graph value format"%string] 1
    (ParseGraphPointFromArrayItem item valueIdx curveIdx).
Proof.
  unfold ParseGraphPointFromArrayItem.
  eapply only_pushes_and_then with (n := 1%nat) (m := 0%nat); [| |lia].
  - destruct (valueIdx <? json_size item)%nat; [|apply only_pushes_pure].
    eapply only_pushes_and_then with (n := 0%nat);
      [apply only_pushes_call | intros ?; apply ParseGraphValue_pushes | lia].
  - intros v.
    eapply only_pushes_and_then with (n := 0%nat) (m := 0%nat);
      [|intros ?; apply only_pushes_pure | lia].
    destruct (curveIdx <? json_size item)%nat; [|apply only_pushes_pure].
    eapply only_pushes_and_then with (n := 0%nat) (m := 0%nat);
      [apply only_pushes_call | intros ?; apply ParseCurveElement_pushes
      | lia].
Qed.

Lemma ParseCurveElement_silent (x : json) warnings r warnings' :
  ParseCurveElement x warnings = (r, warnings') -> warnings' = warnings.
Proof.
  intros Hr.
  destruct (ParseCurveElement_pushes [] 0 x warnings) as (added & E & L & _).
  rewrite Hr in E. cbn in E. destruct added; [|cbn in L; lia].
  now rewrite app_nil_r in E.
Qed.

(** Without a curve element the point has the curve [(0, 0)]. *)
Lemma ParseGraphPointFromArrayItem_no_curve (item : json) valueIdx curveIdx
    warnings point warnings' :
  (json_size item <= curveIdx)%nat ->
  ParseGraphPointFromArrayItem item valueIdx curveIdx warnings
  = (inl point, warnings') ->
  GraphPoint.curve point = GraphCurveValue.mk 0 0.
Proof.
  intros Hsize. unfold ParseGraphPointFromArrayItem.
  destruct (Nat.ltb_spec curveIdx (json_size item)); [lia|].
  intros Hr.
  apply and_then_returns in Hr as (v & w1 & _ & Hr).
  apply and_then_returns in Hr as (curve & w2 & Hc & Hr).
  injection Hc as <- _. now injection Hr as <- _.
Qed.

Lemma ParseGraph_loop_pushes (items : list json) result :
  only_pushes
    ["Invalid graph entry format"; "Invalid graph value format"]%string
    (length items) (ParseGraph_loop items result).
Proof.
  revert result. induction items as [|item rest IH]; intros result;
    cbn [ParseGraph_loop length]; [apply only_pushes_pure|].
  destruct (is_array item && (2 <=? json_size item)%nat).
  - eapply only_pushes_and_then with (n := 0%nat);
      [apply only_pushes_call | intros item0 | apply Nat.le_refl].
    eapply only_pushes_and_then with (n := 0%nat);
      [apply only_pushes_call | intros pulse | apply Nat.le_refl].
    eapply only_pushes_and_then with (n := 1%nat);
      [|intros point; apply IH | apply Nat.le_refl].
    eapply only_pushes_weaken;
      [apply ParseGraphPointFromArrayItem_pushes | | apply Nat.le_refl].
    intros msg [<-|[]]. right. now left.
  - eapply only_pushes_and_then with (n := 1%nat);
      [|intros ?; apply IH | apply Nat.le_refl].
    apply only_pushes_push_warning; [now left | lia].
Qed.

(** What one turn of the loop of ParseGraph does to the result. *)
Lemma ParseGraph_loop_step (item : json) rest result warnings graph warnings' :
  ParseGraph_loop (item :: rest) result warnings = (inl graph, warnings') ->
  exists result1 warnings1,
    ParseGraph_loop rest result1 warnings1 = (inl graph, warnings') /\
    (result1 = result \/
     exists pulse point warnings0,
       result1 = map_assign pulse point result /\
       ParseGraphPointFromArrayItem item 1 2 warnings0
       = (inl point, warnings1)).
Proof.
  cbn [ParseGraph_loop].
  destruct (is_array item && (2 <=? json_size item)%nat); intros Hr.
  - apply and_then_returns in Hr as (item0 & w1 & _ & Hr).
    apply and_then_returns in Hr as (pulse & w2 & _ & Hr).
    apply and_then_returns in Hr as (point & w3 & Hpoint & Hr).
    exists (map_assign pulse point result), w3. split; [exact Hr|].
    right. now exists pulse, point, w2.
  - apply and_then_returns in Hr as (u & w1 & _ & Hr).
    exists result, w1. split; [exact Hr | now left].
Qed.

(** An invariant of the result that every assignment of a parsed point
    keeps holds of the graph that ParseGraph's loop returns. *)
Lemma ParseGraph_loop_invariant (I : Graph -> Prop) (items : list json) :
  (forall item result pulse point warnings0 warnings1,
     In item items -> I result ->
     ParseGraphPointFromArrayItem item 1 2 warnings0
     = (inl point, warnings1) ->
     I (map_assign pulse point result)) ->
  forall result warnings graph warnings',
    I result ->
    ParseGraph_loop items result warnings = (inl graph, warnings') ->
    I graph.
Proof.
  induction items as [|item rest IH]; intros Hstep result warnings graph
    warnings' Hres Hr.
  - now injection Hr as <- _.
  - apply ParseGraph_loop_step in Hr
      as (result1 & w1 & Hr & [->|(pulse & point & w0 & -> & Hp)]).
    + eapply IH; [|exact Hres | exact Hr].
      intros; eapply Hstep; eauto. now right.
    + eapply IH; [| |exact Hr].
      * intros; eapply Hstep; eauto. now right.
      * eapply Hstep; eauto. now left.
Qed.

Lemma ParseGraph_loop_length (items : list json) :
  forall result warnings graph warnings',
    ParseGraph_loop items result warnings = (inl graph, warnings') ->
    (length graph <= length result + length items)%nat.
Proof.
  induction items as [|item rest IH]; intros result warnings graph warnings'
    Hr.
  - injection Hr as <- _. cbn. lia.
  - apply ParseGraph_loop_step in Hr
      as (result1 & w1 & Hr & [->|(pulse & point & w0 & -> & Hp)]);
      apply IH in Hr; cbn [length].
    + lia.
    + pose proof (map_assign_length pulse point result). lia.
Qed.

Lemma ParseGraph_loop_entries (items : list json) entries :
  Forall2 graph_entry items entries ->
  forall result warnings,
    ParseGraph_loop items result warnings =
    (inl (fold_left (fun r e => map_assign (fst e) (snd e) r) entries result),
     warnings).
Proof.
  induction 1 as [|item [y p] items entries
                    (Harr & Hsize & (item0 & Hidx & Hget) & Hpoint) _ IH];
    intros result warnings; [reflexivity|].
  cbn [ParseGraph_loop fold_left fst snd] in *.
  rewrite Harr. destruct (Nat.leb_spec 2 (json_size item)); [|lia].
  cbn [andb]. unfold and_then at 1, call at 1. rewrite Hidx.
  unfold and_then at 1, call at 1. rewrite Hget.
  unfold and_then at 1. rewrite Hpoint. apply IH.
Qed.

Lemma ParseGraph_returns (j : json) warnings graph :
  fst (ParseGraph j warnings) = inl graph ->
  graph = [] \/
  exists warnings',
    ParseGraph_loop (json_elements j) [] warnings = (inl graph, warnings').
Proof.
  unfold ParseGraph. destruct (is_array j); cbn [negb].
  - destruct (ParseGraph_loop _ _ _) as [r warnings']. cbn [fst].
    intros ->. right. now exists warnings'.
  - cbn. intros [= <-]. now left.
Qed.

Lemma ParseLaserSection_points_pushes (points : list json) v :
  only_pushes ["Invalid graph value format"%string] (length points)
    (ParseLaserSection_points points v).
Proof.
  revert v. induction points as [|point rest IH]; intros v;
    cbn [ParseLaserSection_points length]; [apply only_pushes_pure|].
  destruct (is_array point && (2 <=? json_size point)%nat).
  - eapply only_pushes_and_then with (n := 0%nat);
      [apply only_pushes_call | intros point0 | apply Nat.le_refl].
    eapply only_pushes_and_then with (n := 0%nat);
      [apply only_pushes_call | intros ry | apply Nat.le_refl].
    eapply only_pushes_and_then with (n := 1%nat);
      [apply ParseGraphPointFromArrayItem_pushes
      | intros graphPoint; apply IH | apply Nat.le_refl].
  - eapply only_pushes_weaken;
      [apply IH | apply incl_refl | lia].
Qed.

Lemma ParseLaserSection_points_sorted (points : list json) :
  forall v warnings v' warnings',
    keys_sorted v ->
    ParseLaserSection_points points v warnings = (inl v', warnings') ->
    keys_sorted v'.
Proof.
  induction points as [|point rest IH]; intros v warnings v' warnings' Hs;
    cbn [ParseLaserSection_points].
  - now intros [= <- _].
  - destruct (is_array point && (2 <=? json_size point)%nat); intros Hr.
    + apply and_then_returns in Hr as (point0 & w1 & _ & Hr).
      apply and_then_returns in Hr as (ry & w2 & _ & Hr).
      apply and_then_returns in Hr as (graphPoint & w3 & _ & Hr).
      eapply IH; [|exact Hr]. now apply map_assign_sorted.
    + eapply IH; eauto.
Qed.

(** The warnings of a whole lane: those of its sections, and one for each
    malformed section. *)
Lemma ParseLaserSection_loop_warns (items : list json) lane :
  warns_only
    ["Invalid laser section format"; "Invalid graph value format"]%string
    (ParseLaserSection_loop items lane).
Proof.
  revert lane. induction items as [|item rest IH]; intros lane;
    cbn [ParseLaserSection_loop]; [silent|].
  destruct (is_array item && (2 <=? json_size item)%nat).
  - apply warns_only_and_then; [silent | intros item0].
    apply warns_only_and_then; [silent | intros pulse].
    apply warns_only_and_then; [silent | intros points].
    apply warns_only_and_then; [|intros v].
    { destruct (is_array points); [|silent].
      eapply warns_only_weaken;
        [apply (warns_only_of_pushes _ (length (json_elements points))),
           ParseLaserSection_points_pushes|].
      intros msg [<-|[]]. right. now left. }
    apply warns_only_and_then; [|intros w; apply IH].
    destruct (3 <=? json_size item)%nat; [|silent].
    apply warns_only_and_then; [silent | intros item2; silent].
  - apply warns_only_and_then; [|intros ?; apply IH].
    apply (warns_only_of_pushes _ 1%nat), only_pushes_push_warning;
      [now left | lia].
Qed.

(** What one turn of the outer loop of ParseLaserSection does to the
    lane. *)
Lemma ParseLaserSection_loop_step (item : json) rest lane warnings lane'
    warnings' :
  ParseLaserSection_loop (item :: rest) lane warnings = (inl lane', warnings')
  ->
  exists lane1 warnings1,
    ParseLaserSection_loop rest lane1 warnings1 = (inl lane', warnings') /\
    (lane1 = lane \/
     exists pulse v w,
       lane1 = map_assign pulse (LaserSection.mk v w) lane /\
       keys_sorted v /\
       ((json_size item <= 2)%nat -> w = kLaserXScale1x)).
Proof.
  cbn [ParseLaserSection_loop].
  destruct (is_array item && (2 <=? json_size item)%nat); intros Hr.
  - apply and_then_returns in Hr as (item0 & w1 & _ & Hr).
    apply and_then_returns in Hr as (pulse & w2 & _ & Hr).
    apply and_then_returns in Hr as (points & w3 & _ & Hr).
    apply and_then_returns in Hr as (v & w4 & Hv & Hr).
    apply and_then_returns in Hr as (w & w5 & Hw & Hr).
    exists (map_assign pulse (LaserSection.mk v w) lane), w5.
    split; [exact Hr|]. right. exists pulse, v, w. split; [reflexivity|].
    split.
    + destruct (is_array points).
      * eapply ParseLaserSection_points_sorted; [|exact Hv]. constructor.
      * injection Hv as <- _. constructor.
    + intros Hsize.
      destruct (Nat.leb_spec 3 (json_size item)); [lia|].
      now injection Hw as <- _.
  - apply and_then_returns in Hr as (u & w1 & _ & Hr).
    exists lane, w1. split; [exact Hr | now left].
Qed.

Lemma ParseLaserSection_loop_result (items : list json) :
  forall lane warnings lane' warnings',
    ParseLaserSection_loop items lane warnings = (inl lane', warnings') ->
    (keys_sorted lane -> keys_sorted lane') /\
    (forall y, map_contains lane y = true -> map_contains lane' y = true) /\
    (forall y ls, In (y, ls) lane' ->
       In (y, ls) lane \/
       (keys_sorted (LaserSection.v ls) /\
        ((forall item, In item items -> (json_size item <= 2)%nat) ->
         LaserSection.w ls = kLaserXScale1x))).
Proof.
  induction items as [|item rest IH]; intros lane warnings lane' warnings' Hr.
  - injection Hr as <- _. repeat split; auto.
  - apply ParseLaserSection_loop_step in Hr
      as (lane1 & w1 & Hr & [->|(pulse & v & w & -> & Hv & Hw)]);
      destruct (IH _ _ _ _ Hr) as (Hsorted & Hcontains & Hin).
    + split; [exact Hsorted|]. split; [exact Hcontains|].
      intros y ls Hyls. destruct (Hin y ls Hyls) as [H|[H1 H2]];
        [now left | right].
      split; [exact H1|]. intros Hall. apply H2.
      intros item' Hitem'. apply Hall. now right.
    + split; [|split].
      * intros Hs. apply Hsorted. now apply map_assign_sorted.
      * intros y Hy. apply Hcontains. revert Hy. unfold map_contains.
        rewrite map_find_map_assign. destruct (y =? pulse); auto.
      * intros y ls Hyls. destruct (Hin y ls Hyls) as [H|[H1 H2]].
        -- apply In_map_assign in H as [[= -> ->]|H]; [right | now left].
           split; [exact Hv|]. intros Hall. apply Hw, Hall. now left.
        -- right. split; [exact H1|]. intros Hall. apply H2.
           intros item' Hitem'. apply Hall. now right.
Qed.

Lemma ParseByPulse_loop_entries {T : Type} (get : json -> T + fault)
    (items : list json) entries :
  Forall2 (by_pulse_entry get) items entries ->
  forall result warnings,
    ParseByPulse_loop get items result warnings =
    (inl (fold_left (fun r e => map_assign (fst e) (snd e) r) entries result),
     warnings).
Proof.
  induction 1 as [|item [y x] items entries
                    (Harr & Hsize & (item0 & Hidx0 & Hget0)
                     & (item1 & Hidx1 & Hget1)) _ IH];
    intros result warnings; [reflexivity|].
  cbn [ParseByPulse_loop fold_left fst snd] in *.
  rewrite Harr. destruct (Nat.leb_spec 2 (json_size item)); [|lia].
  cbn [andb]. unfold and_then at 1, call at 1. rewrite Hidx0.
  unfold and_then at 1, call at 1. rewrite Hget0.
  unfold and_then at 1, call at 1. rewrite Hidx1.
  unfold and_then at 1, call at 1. rewrite Hget1. apply IH.
Qed.

End KsonIOInFacts.

Lemma find_rev_or_none {T : Type} (entries : list (Pulse * T)) pulse :
  match map_find (rev entries) pulse with
  | Some x => Some x
  | None => map_find [] pulse
  end = map_find (rev entries) pulse.
Proof. now destruct (map_find (rev entries) pulse). Qed.

(** X16: whatever JSON value it is given, ParseGraph leaves the warnings
    that were there in place and pushes at most one more for each element
    of the value, each of them [Invalid graph entry format] or
    [Invalid graph value format], also when a conversion throws; a value
    that is not an array gives the empty graph and no warning; and a graph
    that is returned is in ascending key order, with at most one point for
    each element. *)
Theorem ParseGraph_any_json {json fault : Type} {J : Json json fault}
    (j : json) (warnings : list string) :
  (exists added,
     snd (ParseGraph j warnings) = warnings ++ added /\
     (length added <= length (json_elements j))%nat /\
     (forall msg, In msg added ->
        msg = "Invalid graph entry format"%string \/
        msg = "Invalid graph value format"%string)) /\
  (is_array j = false -> ParseGraph j warnings = (inl [], warnings)) /\
  (forall graph,
     fst (ParseGraph j warnings) = inl graph ->
     keys_sorted graph /\ (length graph <= length (json_elements j))%nat).
Proof.
  split; [|split].
  - unfold ParseGraph. destruct (is_array j); cbn [negb].
    + destruct (ParseGraph_loop_pushes (json_elements j) [] warnings)
        as (added & E & L & I).
      exists added. split; [exact E|]. split; [exact L|].
      intros msg Hin. destruct (I msg Hin) as [<-|[<-|[]]]; auto.
    + exists []. cbn. rewrite app_nil_r.
      split; [reflexivity|]. split; [lia | intros ? []].
  - intros Harr. unfold ParseGraph. now rewrite Harr.
  - intros graph Hr.
    destruct (ParseGraph_returns j warnings graph Hr) as [->|[warnings' Hl]].
    + split; [constructor | cbn; lia].
    + split.
      * apply (ParseGraph_loop_invariant keys_sorted (json_elements j))
          with (result := []) (warnings := warnings) (warnings' := warnings');
          [|constructor | exact Hl].
        intros; now apply map_assign_sorted.
      * apply ParseGraph_loop_length in Hl. cbn in Hl. lia.
Qed.

(** X17: ParseGraph on an array of well-formed entries, each an array
    [[pulse, value, ...]] whose pulse converts and whose point is read
    without a warning, returns a graph and pushes no warning.  The graph is
    in ascending key order; at each pulse it holds the point of the last
    entry given for that pulse, so that a later entry replaces an earlier
    one; and when the entries are in ascending order of pulse the graph is
    the list of the entries. *)
Theorem ParseGraph_reads_entries {json fault : Type} {J : Json json fault}
    (j : json) (entries : list (Pulse * GraphPoint.t))
    (warnings : list string) :
  is_array j = true ->
  Forall2 graph_entry (json_elements j) entries ->
  exists graph,
    ParseGraph j warnings = (inl graph, warnings) /\
    keys_sorted graph /\
    (forall pulse, map_find graph pulse = map_find (rev entries) pulse) /\
    (keys_sorted entries -> graph = entries).
Proof.
  intros Harr Hentries. unfold ParseGraph. rewrite Harr. cbn [negb].
  rewrite (ParseGraph_loop_entries _ _ Hentries).
  eexists. split; [reflexivity|]. split; [|split].
  - apply assign_all_sorted. constructor.
  - intros pulse. rewrite assign_all_find. apply find_rev_or_none.
  - intros Hs. now apply (assign_all_ascending entries []).
Qed.

Lemma ParseGraph_reads_entries_witness :
  is_array json_linear_graph = true /\
  Forall2 graph_entry (json_elements json_linear_graph) linear_graph /\
  exists graph,
    ParseGraph json_linear_graph [] = (inl graph, []) /\
    keys_sorted graph /\
    (forall pulse, map_find graph pulse = map_find (rev linear_graph) pulse) /\
    (keys_sorted linear_graph -> graph = linear_graph).
Proof.
  assert (Hentries : Forall2 graph_entry (json_elements json_linear_graph)
                       linear_graph).
  { repeat constructor; cbn; try lia; eexists; split; reflexivity. }
  split; [reflexivity|]. split; [exact Hentries|].
  exact (ParseGraph_reads_entries json_linear_graph linear_graph []
           eq_refl Hentries).
Defined.

(** X18: a graph read by ParseGraph from entries without a curve element
    (no entry has more than two elements) has, at every pulse, a point with
    the curve [(0, 0)]; and when [isLinear] accepts that curve,
    ExpandCurveSegments, for every positive interval, returns the graph
    unchanged. *)
Theorem ParseGraph_without_curves_is_expanded
    {json fault : Type} {J : Json json fault}
    (AlmostEquals : double -> double -> bool)
    (isLinear : GraphCurveValue.t -> bool)
    (lerp : double -> double -> double -> double)
    (j : json) (warnings : list string) (graph : Graph) :
  (forall item, In item (json_elements j) -> (json_size item <= 2)%nat) ->
  fst (ParseGraph j warnings) = inl graph ->
  (forall pulse point,
     In (pulse, point) graph ->
     GraphPoint.curve point = GraphCurveValue.mk 0 0) /\
  (isLinear (GraphCurveValue.mk 0 0) = true ->
   forall subdivisionInterval,
     0 < subdivisionInterval ->
     ExpandCurveSegments AlmostEquals isLinear lerp graph subdivisionInterval
     = Return graph).
Proof.
  intros Hsize Hr.
  assert (Hgraph : keys_sorted graph /\
                   forall e, In e graph ->
                     GraphPoint.curve (snd e) = GraphCurveValue.mk 0 0).
  { destruct (ParseGraph_returns j warnings graph Hr) as [->|[warnings' Hl]].
    - split; [constructor | intros ? []].
    - apply (ParseGraph_loop_invariant
               (fun g => keys_sorted g /\
                         forall e, In e g ->
                           GraphPoint.curve (snd e) = GraphCurveValue.mk 0 0)
               (json_elements j))
        with (result := []) (warnings := warnings) (warnings' := warnings');
        [|split; [constructor | intros ? []] | exact Hl].
      intros item result pulse point w0 w1 Hitem [Hs Hall] Hpoint.
      split; [now apply map_assign_sorted|].
      intros e He. apply In_map_assign in He as [->|He]; [|now apply Hall].
      cbn [snd].
      exact (ParseGraphPointFromArrayItem_no_curve item 1 2 w0 point w1
               (Hsize item Hitem) Hpoint). }
  destruct Hgraph as [Hs Hall].
  split.
  - intros pulse point Hin. exact (Hall (pulse, point) Hin).
  - intros Hlinear subdivisionInterval Hpos.
    rewrite (ExpandCurveSegments_expand_points _ _ _ _ Hpos _ Hs).
    rewrite expand_all_linear; [reflexivity|].
    intros kv Hin. now rewrite (Hall kv Hin).
Qed.

Lemma ParseGraph_without_curves_is_expanded_witness :
  (forall item, In item (json_elements json_linear_graph) ->
                (json_size item <= 2)%nat) /\
  fst (ParseGraph json_linear_graph []) = inl linear_graph /\
  (forall pulse point,
     In (pulse, point) linear_graph ->
     GraphPoint.curve point = GraphCurveValue.mk 0 0) /\
  (isLinear_zero (GraphCurveValue.mk 0 0) = true ->
   forall subdivisionInterval,
     0 < subdivisionInterval ->
     ExpandCurveSegments AlmostEquals_epsilon isLinear_zero lerp_linear
       linear_graph subdivisionInterval
     = Return linear_graph).
Proof.
  assert (Hsize : forall item, In item (json_elements json_linear_graph) ->
                               (json_size item <= 2)%nat).
  { intros item [<-|[<-|[<-|[]]]]; cbn; lia. }
  split; [exact Hsize|]. split; [reflexivity|].
  exact (ParseGraph_without_curves_is_expanded AlmostEquals_epsilon
           isLinear_zero lerp_linear json_linear_graph [] linear_graph
           Hsize eq_refl).
Defined.

(** X19: whatever JSON value it is given, ParseLaserSection leaves the
    warnings that were there in place and pushes only
    [Invalid laser section format] and [Invalid graph value format]; a
    value that is not an array leaves the lane as it is.  When it returns,
    a lane in ascending key order is still so, no pulse of the lane has
    lost its section, and every section that was not in the lane before
    has its points in ascending key order and, when no element of the
    value has more than two elements, the width [kLaserXScale1x]: it is
    not wide. *)
Theorem ParseLaserSection_any_json {json fault : Type} {J : Json json fault}
    (j : json) (lane : ByPulse LaserSection.t) (warnings : list string) :
  (exists added,
     snd (ParseLaserSection j lane warnings) = warnings ++ added /\
     (forall msg, In msg added ->
        msg = "Invalid laser section format"%string \/
        msg = "Invalid graph value format"%string)) /\
  (is_array j = false ->
   ParseLaserSection j lane warnings = (inl lane, warnings)) /\
  (forall lane',
     fst (ParseLaserSection j lane warnings) = inl lane' ->
     (keys_sorted lane -> keys_sorted lane') /\
     (forall y, map_contains lane y = true -> map_contains lane' y = true) /\
     (forall y ls, In (y, ls) lane' ->
        In (y, ls) lane \/
        (keys_sorted (LaserSection.v ls) /\
         ((forall item, In item (json_elements j) ->
                        (json_size item <= 2)%nat) ->
          LaserSection.w ls = kLaserXScale1x /\
          LaserSection_wide ls = false)))).
Proof.
  split; [|split].
  - unfold ParseLaserSection. destruct (is_array j); cbn [negb].
    + destruct (ParseLaserSection_loop_warns (json_elements j) lane warnings)
        as (added & E & I).
      exists added. split; [exact E|].
      intros msg Hin. destruct (I msg Hin) as [<-|[<-|[]]]; auto.
    + exists []. cbn. rewrite app_nil_r. split; [reflexivity | intros ? []].
  - intros Harr. unfold ParseLaserSection. now rewrite Harr.
  - intros lane'. unfold ParseLaserSection.
    destruct (is_array j); cbn [negb].
    + destruct (ParseLaserSection_loop (json_elements j) lane warnings)
        as [r warnings'] eqn:Hl.
      cbn [fst]. intros ->.
      destruct (ParseLaserSection_loop_result _ _ _ _ _ Hl)
        as (Hsorted & Hcontains & Hin).
      split; [exact Hsorted|]. split; [exact Hcontains|].
      intros y ls Hyls. destruct (Hin y ls Hyls) as [H|[H1 H2]];
        [now left | right].
      split; [exact H1|]. intros Hall.
      pose proof (H2 Hall) as Hw. split; [exact Hw|].
      unfold LaserSection_wide. now rewrite Hw.
    + cbn. intros [= <-]. repeat split; auto.
Qed.

(** X20: ParseByPulse on an array of well-formed entries, each an array
    [[pulse, value, ...]] whose two first elements convert, returns a map
    and pushes no warning.  The map is in ascending key order; at each
    pulse it holds the value of the last entry given for that pulse; and
    when the entries are in ascending order of pulse the map is the list of
    the entries. *)
Theorem ParseByPulse_reads_entries
    {json fault : Type} {J : Json json fault} {T : Type}
    (get : json -> T + fault) (j : json) (entries : list (Pulse * T))
    (warnings : list string) :
  is_array j = true ->
  Forall2 (by_pulse_entry get) (json_elements j) entries ->
  exists result,
    ParseByPulse get j warnings = (inl result, warnings) /\
    keys_sorted result /\
    (forall pulse, map_find result pulse = map_find (rev entries) pulse) /\
    (keys_sorted entries -> result = entries).
Proof.
  intros Harr Hentries. unfold ParseByPulse. rewrite Harr. cbn [negb].
  rewrite (ParseByPulse_loop_entries _ _ _ Hentries).
  eexists. split; [reflexivity|]. split; [|split].
  - apply assign_all_sorted. constructor.
  - intros pulse. rewrite assign_all_find. apply find_rev_or_none.
  - intros Hs. now apply (assign_all_ascending entries []).
Qed.

Lemma ParseByPulse_reads_entries_witness :
  is_array json_bpm = true /\
  Forall2 (by_pulse_entry get_double) (json_elements json_bpm)
    [(0, 120%float); (960, 180%float); (960, 90%float)] /\
  exists result,
    ParseByPulse get_double json_bpm [] = (inl result, []) /\
    keys_sorted result /\
    (forall pulse,
       map_find result pulse =
       map_find (rev [(0, 120%float); (960, 180%float); (960, 90%float)])
         pulse) /\
    (keys_sorted [(0, 120%float); (960, 180%float); (960, 90%float)] ->
     result = [(0, 120%float); (960, 180%float); (960, 90%float)]).
Proof.
  assert (Hentries : Forall2 (by_pulse_entry get_double)
                       (json_elements json_bpm)
                       [(0, 120%float); (960, 180%float); (960, 90%float)]).
  { repeat constructor; cbn; try lia; eexists; split; reflexivity. }
  split; [reflexivity|]. split; [exact Hentries|].
  exact (ParseByPulse_reads_entries get_double json_bpm _ [] eq_refl
           Hentries).
Defined.

(** ** Examples from JSON *)

(** The second entry for pulse 100 replaces the first one, curve included,
    and the malformed entry leaves a warning. *)
Example ParseGraph_example :
  ParseGraph json_graph_example [] =
  (inl [(0, point_of 1); (100, point_of 4)],
   ["Invalid graph entry format"%string]).
Proof. reflexivity. Qed.

Example ParseByPulse_example :
  ParseByPulse get_double json_bpm [] =
  (inl [(0, 120%float); (960, 90%float)], []).
Proof. reflexivity. Qed.

Example ParseLaserSection_example :
  ParseLaserSection json_laser_lane [] [] =
  (inl [(10, LaserSection.mk [(0, point_of 1); (100, point_of 2)]
               kLaserXScale1x);
        (300, LaserSection.mk [] kLaserXScale2x)],
   []).
Proof. reflexivity. Qed.

(** A lane read from JSON, looked up with GraphPointAt. *)
Example parsed_lane_point_at_110 :
  exists lane,
    fst (ParseLaserSection json_laser_lane [] []) = inl lane /\
    GraphPointAt true lane 110 = Return (Some (point_of 2)) /\
    GraphPointAt true lane 50 = Return None.
Proof. eexists. repeat split. Qed.

(** ** KsonIOIn.cpp: notes *)

Section LaneNotesFacts.
Context {json fault : Type} {J : Json json fault}.

Lemma ParseLaneNotes_loop_entries (items : list json) entries :
  Forall2 (fun item entry => long_note item entry \/ compact_note item entry)
    items entries ->
  forall lane warnings,
    ParseLaneNotes_loop items lane warnings =
    (inl (fold_left (fun r e => map_assign (fst e) (snd e) r) entries lane),
     warnings).
Proof.
  induction 1 as [|item [y [len]] items entries Hitem _ IH];
    intros lane warnings; [reflexivity|].
  cbn [ParseLaneNotes_loop fold_left fst snd].
  destruct Hitem as [(Harr & Hsize & (item0 & Hidx0 & Hget0)
                      & (item1 & Hidx1 & Hget1))
                    |(Harr & Hint & Hget & Hlen)];
    cbn [fst snd Interval.length] in *.
  - rewrite Harr. destruct (Nat.leb_spec 2 (json_size item)); [|lia].
    cbn [andb]. unfold and_then at 1, call at 1. rewrite Hidx0.
    unfold and_then at 1, call at 1. rewrite Hget0.
    unfold and_then at 1, call at 1. rewrite Hidx1.
    unfold and_then at 1, call at 1. rewrite Hget1. apply IH.
  - rewrite Harr, Hint. cbn [andb].
    unfold and_then at 1, call at 1. rewrite Hget.
    rewrite Hlen. apply IH.
Qed.

End LaneNotesFacts.

(** X21: ParseLaneNotes on an array of notes, each in the long form
    [[pulse, length]] or in the compact form [pulse] of a chip note (which
    stands for length 0), returns and pushes no warning.  The lane it
    leaves is in ascending key order when the lane it was given is, and at
    each pulse it holds the note of the last entry given for that pulse, in
    either form, or else the note that the lane had there. *)
Theorem ParseLaneNotes_reads_entries
    {json fault : Type} {J : Json json fault}
    (j : json) (lane : ByPulse Interval.t)
    (entries : list (Pulse * Interval.t)) (warnings : list string) :
  is_array j = true ->
  Forall2 (fun item entry => long_note item entry \/ compact_note item entry)
    (json_elements j) entries ->
  exists lane',
    ParseLaneNotes j lane warnings = (inl lane', warnings) /\
    (keys_sorted lane -> keys_sorted lane') /\
    (forall pulse,
       map_find lane' pulse =
       match map_find (rev entries) pulse with
       | Some note => Some note
       | None => map_find lane pulse
       end).
Proof.
  intros Harr Hentries. unfold ParseLaneNotes. rewrite Harr. cbn [negb].
  rewrite (ParseLaneNotes_loop_entries _ _ Hentries).
  eexists. split; [reflexivity|]. split.
  - apply assign_all_sorted.
  - intros pulse. apply assign_all_find.
Qed.

Lemma ParseLaneNotes_reads_entries_witness :
  is_array json_notes = true /\
  Forall2 (fun item entry => long_note item entry \/ compact_note item entry)
    (json_elements json_notes)
    [(0, Interval.mk 240); (480, Interval.mk 0); (960, Interval.mk 0)] /\
  exists lane',
    ParseLaneNotes json_notes [(480, Interval.mk 120)] []
    = (inl lane', []) /\
    (keys_sorted [(480, Interval.mk 120)] -> keys_sorted lane') /\
    (forall pulse,
       map_find lane' pulse =
       match
         map_find
           (rev [(0, Interval.mk 240); (480, Interval.mk 0);
                 (960, Interval.mk 0)]) pulse
       with
       | Some note => Some note
       | None => map_find [(480, Interval.mk 120)] pulse
       end).
Proof.
  assert (Hentries :
            Forall2
              (fun item entry =>
                 long_note item entry \/ compact_note item entry)
              (json_elements json_notes)
              [(0, Interval.mk 240); (480, Interval.mk 0);
               (960, Interval.mk 0)]).
  { constructor; [left|constructor; [right|constructor; [left|constructor]]].
    - repeat split; cbn; try lia; eexists; split; reflexivity.
    - repeat split.
    - repeat split; cbn; try lia; eexists; split; reflexivity. }
  split; [reflexivity|]. split; [exact Hentries|].
  exact (ParseLaneNotes_reads_entries json_notes [(480, Interval.mk 120)] _ []
           eq_refl Hentries).
Defined.

Example ParseLaneNotes_example :
  ParseLaneNotes json_notes [(480, Interval.mk 120)] [] =
  (inl [(0, Interval.mk 240); (480, Interval.mk 0); (960, Interval.mk 0)],
   []).
Proof. reflexivity. Qed.
